(** * GCC ("Grande Compressione Cucita-a-mano"): a shallow embedding of
    [gcc_huffman.py] and the verification of its specification.

    Python [int] is [Z]; [bytes] and [bytearray] are lists of [Z] whose
    elements lie in [0, 256); exceptions are the [Raise] branch of the
    [result] monad. *)

From Stdlib Require Import ZArith Lia String Ascii.
From stdpp Require Import base tactics option list numbers gmap.

Local Open Scope Z_scope.

(** ** Exceptions and the result monad *)

Inductive exn : Type :=
  | TooShort              (* ValueError: "Dati troppo corti ..." *)
  | BadMagic              (* ValueError: "Magic ... non valido" *)
  | BadVersion (found : Z)(* ValueError: "Versione vN richiesta, trovato ..." *)
  | VocabTooLarge (size : Z) (* ValueError: "VOCAB troppo grande ..." *)
  | TokenTooLong          (* ValueError: "Token troppo lungo per LEN(2 byte)" *)
  | TruncatedLen          (* ValueError: "File troncato (LEN token)" *)
  | TruncatedToken        (* ValueError: "File troncato (TOKEN bytes)" *)
  | TruncatedFreq         (* ValueError: "File troncato (freq + lastbits)" *)
  | ByteRange             (* ValueError: byte must be in range(0, 256) *)
  | NegativeShift         (* ValueError: negative shift count *)
  | OverflowError         (* int too big to convert *)
  | IndexError
  | KeyError
  | AttributeError.       (* attribute access on None *)

Inductive result (A : Type) : Type :=
  | Ok (a : A)
  | Raise (e : exn).
Arguments Ok {A} a.
Arguments Raise {A} e.

#[global] Instance result_ret : MRet result := fun A a => Ok a.
#[global] Instance result_bind : MBind result := fun A B f m =>
  match m with
  | Ok a => f a
  | Raise e => Raise e
  end.

Fixpoint foldM {A B : Type} (f : A -> B -> result A) (l : list B) (a : A)
  : result A :=
  match l with
  | [] => Ok a
  | b :: l' => a' ← f a b; foldM f l' a'
  end.

(** ** Python primitives on integers and byte strings *)

Abbreviation bytes := (list Z) (only parsing).

Definition is_byte (b : Z) : Prop := 0 <= b < 256.
Definition is_bytes (data : list Z) : Prop := Forall is_byte data.

Definition len {A : Type} (l : list A) : Z := Z.of_nat (length l).

(** [bytearray.append(b)] *)
Definition bytearray_append (out : bytes) (b : Z) : result bytes :=
  if (0 <=? b) && (b <? 256) then Ok (out ++ [b]) else Raise ByteRange.

(** [a >> n] *)
Definition py_rshift (a n : Z) : result Z :=
  if n <? 0 then Raise NegativeShift else Ok (Z.shiftr a n).

(** [l[i]] for a non-negative index *)
Definition get_item (l : list Z) (i : Z) : result Z :=
  if i <? 0 then Raise IndexError else
  match l !! Z.to_nat i with
  | Some x => Ok x
  | None => Raise IndexError
  end.

(** [l[i:j]] for non-negative indices: both ends are clamped to the length *)
Definition slice {A : Type} (l : list A) (i j : Z) : list A :=
  let i' := Z.min (Z.max 0 i) (len l) in
  let j' := Z.min (Z.max 0 j) (len l) in
  take (Z.to_nat (j' - i')) (drop (Z.to_nat i') l).

(** the [k] big-endian base-256 digits of [v] *)
Fixpoint be_digits (k : nat) (v : Z) : bytes :=
  match k with
  | O => []
  | S k' => be_digits k' (v / 256) ++ [v mod 256]
  end.

(** [v.to_bytes(k, "big")] *)
Definition to_bytes (k : nat) (v : Z) : result bytes :=
  if (0 <=? v) && (v <? 256 ^ Z.of_nat k) then Ok (be_digits k v)
  else Raise OverflowError.

(** [int.from_bytes(bs, "big")] *)
Definition from_bytes (bs : bytes) : Z :=
  fold_left (fun acc b => acc * 256 + b) bs 0.

Definition bytes_of_string (s : string) : bytes :=
  map (fun a => Z.of_N (N_of_ascii a)) (list_ascii_of_string s).

Definition ord (a : ascii) : Z := Z.of_N (N_of_ascii a).

Definition MAGIC : bytes := Eval cbv in bytes_of_string "GCC".
Definition VERSION_STEP1 : Z := 1.
Definition VERSION_STEP2 : Z := 2.
Definition VERSION_STEP3 : Z := 3.
Definition VERSION_STEP4 : Z := 4.

(** ** Huffman engine *)

(** [@dataclass class HuffmanNode] *)
#[warnings="-register-all"]
Inductive HuffmanNode : Type :=
  mkNode { freq : Z;
           symbol : option Z;
           left : option HuffmanNode;
           right : option HuffmanNode }.

Definition leaf_node (f sym : Z) : HuffmanNode := mkNode f (Some sym) None None.

(** [node.symbol is not None and node.left is None and node.right is None] *)
Definition is_leaf (node : HuffmanNode) : bool :=
  match symbol node, left node, right node with
  | Some _, None, None => true
  | _, _, _ => false
  end.

(** [freq[b] += 1] *)
Definition freq_step (fr : list Z) (b : Z) : list Z :=
  <[Z.to_nat b := (fr !!! Z.to_nat b) + 1]> fr.

(** [freq = [0] * 256; for b in data: freq[b] += 1] *)
Definition build_freq_table (data : bytes) : list Z :=
  fold_left freq_step data (replicate 256 0).

(** *** The priority queue of [heapq]

    The heap holds tuples [(f, counter, node)].  Every push draws a fresh
    [counter], so two entries never agree on [(f, counter)] and the tuple
    comparison never reaches the node.  Only [heappush], [heappop], [heap[0]]
    and [len(heap)] are used; the queue is kept as the list of its entries in
    increasing order, whose head is [heap[0]], the entry [heappop] removes. *)

Abbreviation heap_item := (Z * Z * HuffmanNode)%type (only parsing).

Definition item_ltb (a b : heap_item) : bool :=
  let '(fa, ca, _) := a in
  let '(fb, cb, _) := b in
  (fa <? fb) || ((fa =? fb) && (ca <? cb)).

Fixpoint heappush (heap : list heap_item) (item : heap_item) : list heap_item :=
  match heap with
  | [] => [item]
  | x :: rest => if item_ltb item x then item :: heap
                 else x :: heappush rest item
  end.

(** the [for sym, f in enumerate(freq)] loop; the state is the heap and the
    next value of [itertools.count()] *)
Fixpoint push_leaves (sym : Z) (fr : list Z) (heap : list heap_item)
  (counter : Z) : list heap_item * Z :=
  match fr with
  | [] => (heap, counter)
  | f :: fr' =>
      if 0 <? f
      then push_leaves (sym + 1) fr' (heappush heap (f, counter, leaf_node f sym))
                       (counter + 1)
      else push_leaves (sym + 1) fr' heap counter
  end.

(** the [while len(heap) > 1] loop; each round shortens the heap by one, so
    [length heap] rounds are enough *)
Fixpoint merge_loop (fuel : nat) (heap : list heap_item) (counter : Z)
  : list heap_item :=
  match fuel with
  | O => heap
  | S fuel' =>
      match heap with
      | (f1, _, n1) :: (f2, _, n2) :: rest =>
          let parent := mkNode (f1 + f2) None (Some n1) (Some n2) in
          merge_loop fuel' (heappush rest (f1 + f2, counter, parent)) (counter + 1)
      | _ => heap
      end
  end.

Definition build_huffman_tree (fr : list Z) : option HuffmanNode :=
  let '(heap, counter) := push_leaves 0 fr [] 0 in
  match heap with
  | [] => None
  | [(f, _, only)] =>
      match symbol only with (* the entries pushed so far are leaves *)
      | Some s =>
          let dummy_symbol := (s + 1) mod 256 in
          let dummy := leaf_node 0 dummy_symbol in
          let heap := heappush heap (0, counter, dummy) in
          match merge_loop (length heap) heap (counter + 1) with
          | (_, _, root) :: _ => Some root
          | [] => None
          end
      | None => None
      end
  | _ =>
      match merge_loop (length heap) heap counter with
      | (_, _, root) :: _ => Some root
      | [] => None
      end
  end.

(** the nested [dfs(node, path)]; [codes] is the dictionary it fills *)
Fixpoint dfs (node : HuffmanNode) (path : list Z) (codes : gmap Z (list Z))
  {struct node} : gmap Z (list Z) :=
  match node with
  | mkNode _ (Some s) None None =>
      <[s := match path with [] => [0] | _ => path end]> codes
  | mkNode _ _ l r =>
      let codes := match l with
                   | Some nl => dfs nl (path ++ [0]) codes
                   | None => codes
                   end in
      match r with
      | Some nr => dfs nr (path ++ [1]) codes
      | None => codes
      end
  end.

Definition build_code_table (root : HuffmanNode) : gmap Z (list Z) :=
  dfs root [] ∅.

(** the accumulator of [encode_data]: [(out_bytes, current_byte, bit_count)] *)
Abbreviation enc_state := (list Z * Z * Z)%type (only parsing).

Definition encode_bit (st : enc_state) (bit : Z) : result enc_state :=
  let '(out_bytes, current_byte, bit_count) := st in
  let current_byte := Z.lor (Z.shiftl current_byte 1) bit in
  let bit_count := bit_count + 1 in
  if bit_count =? 8
  then out_bytes ← bytearray_append out_bytes current_byte; Ok (out_bytes, 0, 0)
  else Ok (out_bytes, current_byte, bit_count).

Definition encode_symbol (codes : gmap Z (list Z)) (st : enc_state) (b : Z)
  : result enc_state :=
  match codes !! b with
  | Some code => foldM encode_bit code st
  | None => Raise KeyError
  end.

Definition encode_data (data : bytes) (codes : gmap Z (list Z))
  : result (bytes * Z) :=
  match data with
  | [] => Ok ([], 0)
  | _ =>
      '(out_bytes, current_byte, bit_count) ← foldM (encode_symbol codes) data ([], 0, 0);
      if 0 <? bit_count
      then out_bytes ← bytearray_append out_bytes
                         (Z.shiftl current_byte (8 - bit_count));
           Ok (out_bytes, bit_count)
      else Ok (out_bytes, 8)
  end.

(** the state of [decode_bitstream]: either the loops are still running with
    [(out, node, total_symbols)], or the inner [return bytes(out)] was taken *)
Inductive dec_state : Type :=
  | Running (out : bytes) (node : HuffmanNode) (total_symbols : Z)
  | Returned (out : bytes).

(** the body of [for bit_index in range(bits_in_this_byte)] *)
Definition decode_bit (root : HuffmanNode) (N : Z) (byte : Z)
  (st : dec_state) (bit_index : Z) : result dec_state :=
  match st with
  | Returned out => Ok (Returned out)
  | Running out node total_symbols =>
      sh ← py_rshift byte (7 - bit_index);
      let bit := Z.land sh 1 in
      match (if bit =? 0 then left node else right node) with
      | None => Raise AttributeError
      | Some node =>
          if is_leaf node then
            match symbol node with
            | Some s =>
                out ← bytearray_append out s;
                let total_symbols := total_symbols + 1 in
                if total_symbols =? N then Ok (Returned out)
                else Ok (Running out root total_symbols)
            | None => Raise AttributeError
            end
          else Ok (Running out node total_symbols)
      end
  end.

(** the body of [for i, byte in enumerate(bitstream)] *)
Definition decode_byte (root : HuffmanNode) (N lastbits total_bytes : Z)
  (st : dec_state) (ib : Z * Z) : result dec_state :=
  let '(i, byte) := ib in
  let bits_in_this_byte :=
    if (i =? total_bytes - 1) && negb (lastbits =? 0) then lastbits else 8 in
  foldM (decode_bit root N byte) (seqZ 0 bits_in_this_byte) st.

Definition enumerate {A : Type} (l : list A) : list (Z * A) :=
  imap (fun i x => (Z.of_nat i, x)) l.

Definition decode_bitstream (root : option HuffmanNode) (bitstream : bytes)
  (N lastbits : Z) : result bytes :=
  if N =? 0 then Ok [] else
  match root with
  | None => Ok []
  | Some root =>
      st ← foldM (decode_byte root N lastbits (len bitstream))
                 (enumerate bitstream) (Running [] root 0);
      match st with
      | Returned out => Ok out
      | Running out _ _ => Ok out
      end
  end.

Definition huffman_compress_core (data : bytes) : result (list Z * Z * bytes) :=
  let fr := build_freq_table data in
  match build_huffman_tree fr with
  | None => Ok (fr, 0, [])
  | Some root =>
      let codes := build_code_table root in
      '(bitstream, lastbits) ← encode_data data codes;
      Ok (fr, lastbits, bitstream)
  end.

Definition huffman_decompress_core (fr : list Z) (bitstream : bytes)
  (N lastbits : Z) : result bytes :=
  let root := build_huffman_tree fr in
  match root with
  | None => Ok []
  | Some _ => if N =? 0 then Ok [] else decode_bitstream root bitstream N lastbits
  end.

(** [for f in freq: header += f.to_bytes(4, "big")] *)
Definition freq_to_bytes (header : bytes) (fr : list Z) : result bytes :=
  foldM (fun header f => bs ← to_bytes 4 f; Ok (header ++ bs)) fr header.

(** [for _ in range(256): f = int.from_bytes(comp[idx:idx+4], "big"); ...] *)
Fixpoint read_freq (n : nat) (comp : bytes) (idx : Z) (fr : list Z)
  : list Z * Z :=
  match n with
  | O => (fr, idx)
  | S n' =>
      let f := from_bytes (slice comp idx (idx + 4)) in
      read_freq n' comp (idx + 4) (fr ++ [f])
  end.

(** ** Step 1: format v1 *)

Definition compress_bytes_v1 (data : bytes) : result bytes :=
  let N := len data in
  '(fr, lastbits, bitstream) ← huffman_compress_core data;
  let header := MAGIC ++ [VERSION_STEP1] in
  nb ← to_bytes 8 N;
  let header := header ++ nb in
  header ← freq_to_bytes header fr;
  header ← bytearray_append header lastbits;
  Ok (header ++ bitstream).

Definition decompress_bytes_v1 (comp : bytes) : result bytes :=
  let min_header := 3 + 1 + 8 + 256 * 4 + 1 in
  if len comp <? min_header then Raise TooShort else
  let idx := 0 in
  let magic := slice comp idx (idx + 3) in
  let idx := idx + 3 in
  if negb (bool_decide (magic = MAGIC)) then Raise BadMagic else
  version ← get_item comp idx;
  let idx := idx + 1 in
  if negb (version =? VERSION_STEP1) then Raise (BadVersion version) else
  let N := from_bytes (slice comp idx (idx + 8)) in
  let idx := idx + 8 in
  let '(fr, idx) := read_freq 256 comp idx [] in
  lastbits ← get_item comp idx;
  let idx := idx + 1 in
  let bitstream := slice comp idx (len comp) in
  huffman_decompress_core fr bitstream N lastbits.

(** ** Step 2: format v2 (mask + vowels + rest) *)

(** The stream of consonants and other bytes is called [cons] in the source;
    here it is [cons_], since [cons] is the list constructor. *)

(** [VOWELS = set("aeiouAEIOU")], as code points *)
Definition VOWELS : list Z := Eval cbv in bytes_of_string "aeiouAEIOU".

(** [chr(b).isalpha()] for a byte [b]: the letters of Latin-1 *)
Definition isalpha (b : Z) : bool :=
  ((65 <=? b) && (b <=? 90)) || ((97 <=? b) && (b <=? 122))
  || (b =? 170) || (b =? 181) || (b =? 186)
  || ((192 <=? b) && (b <=? 214)) || ((216 <=? b) && (b <=? 246))
  || ((248 <=? b) && (b <=? 255)).

Definition split_step (st : bytes * bytes * bytes) (b : Z)
  : bytes * bytes * bytes :=
  let '(mask, vowels, cons_) := st in
  if bool_decide (b ∈ VOWELS) then (mask ++ [ord "V"], vowels ++ [b], cons_)
  else if isalpha b then (mask ++ [ord "C"], vowels, cons_ ++ [b])
  else (mask ++ [ord "O"], vowels, cons_ ++ [b]).

Definition split_streams_v2 (data : bytes) : bytes * bytes * bytes :=
  fold_left split_step data ([], [], []).

(** the accumulator of [merge_streams_v2]: [(out, iv, ic)] *)
Definition merge_step (vowels cons_ : bytes) (st : bytes * Z * Z) (m : Z)
  : result (bytes * Z * Z) :=
  let '(out, iv, ic) := st in
  if m =? ord "V"
  then b ← get_item vowels iv; Ok (out ++ [b], iv + 1, ic)
  else b ← get_item cons_ ic; Ok (out ++ [b], iv, ic + 1).

Definition merge_streams_v2 (mask vowels cons_ : bytes) : result bytes :=
  '(out, _, _) ← foldM (merge_step vowels cons_) mask ([], 0, 0);
  Ok out.

(** [FREQ[256]*4 | LASTBITS(1) | BSIZE(8)] of one stream *)
Definition stream_header (header : bytes) (fr : list Z) (last : Z) (bs : bytes)
  : result bytes :=
  header ← freq_to_bytes header fr;
  header ← bytearray_append header last;
  sz ← to_bytes 8 (len bs);
  Ok (header ++ sz).

Definition compress_bytes_v2 (data : bytes) : result bytes :=
  let N := len data in
  let '(mask, vowels, cons_) := split_streams_v2 data in
  '(freq_m, last_m, bs_m) ← huffman_compress_core mask;
  '(freq_v, last_v, bs_v) ← huffman_compress_core vowels;
  '(freq_c, last_c, bs_c) ← huffman_compress_core cons_;
  let header := MAGIC ++ [VERSION_STEP2] in
  nb ← to_bytes 8 N;
  let header := header ++ nb in
  lv ← to_bytes 8 (len vowels);
  let header := header ++ lv in
  lc ← to_bytes 8 (len cons_);
  let header := header ++ lc in
  header ← stream_header header freq_m last_m bs_m;
  header ← stream_header header freq_v last_v bs_v;
  header ← stream_header header freq_c last_c bs_c;
  Ok (header ++ bs_m ++ bs_v ++ bs_c).

(** reads [FREQ[256]*4 | LASTBITS(1) | BSIZE(8)] at [idx] *)
Definition read_stream_header (comp : bytes) (idx : Z)
  : result (list Z * Z * Z * Z) :=
  let '(fr, idx) := read_freq 256 comp idx [] in
  last ← get_item comp idx;
  let idx := idx + 1 in
  let bsize := from_bytes (slice comp idx (idx + 8)) in
  let idx := idx + 8 in
  Ok (fr, last, bsize, idx).

Definition decompress_bytes_v2 (comp : bytes) : result bytes :=
  let min_header_base := 3 + 1 + 8 + 8 + 8 in
  if len comp <? min_header_base then Raise TooShort else
  let idx := 0 in
  let magic := slice comp idx (idx + 3) in
  let idx := idx + 3 in
  if negb (bool_decide (magic = MAGIC)) then Raise BadMagic else
  version ← get_item comp idx;
  let idx := idx + 1 in
  if negb (version =? VERSION_STEP2) then Raise (BadVersion version) else
  let N := from_bytes (slice comp idx (idx + 8)) in
  let idx := idx + 8 in
  let len_v := from_bytes (slice comp idx (idx + 8)) in
  let idx := idx + 8 in
  let len_c := from_bytes (slice comp idx (idx + 8)) in
  let idx := idx + 8 in
  '(freq_m, last_m, bsize_m, idx) ← read_stream_header comp idx;
  '(freq_v, last_v, bsize_v, idx) ← read_stream_header comp idx;
  '(freq_c, last_c, bsize_c, idx) ← read_stream_header comp idx;
  let end_m := idx + bsize_m in
  let bs_m := slice comp idx end_m in
  let idx := end_m in
  let end_v := idx + bsize_v in
  let bs_v := slice comp idx end_v in
  let idx := end_v in
  let end_c := idx + bsize_c in
  let bs_c := slice comp idx end_c in
  mask ← huffman_decompress_core freq_m bs_m N last_m;
  vowels ← huffman_decompress_core freq_v bs_v len_v last_v;
  cons_ ← huffman_decompress_core freq_c bs_c len_c last_c;
  merge_streams_v2 mask vowels cons_.

(** ** Steps 3 and 4: token formats v3 and v4 *)

Definition _is_ascii_letter (b : Z) : bool :=
  ((65 <=? b) && (b <=? 90)) || ((97 <=? b) && (b <=? 122)).

Definition _VOWEL_BYTES : list Z := Eval cbv in bytes_of_string "aeiouAEIOU".

Definition _is_vowel_byte (b : Z) : bool := bool_decide (b ∈ _VOWEL_BYTES).

(** the accumulator of [split_word_into_syllables]: [(syllables, current)] *)
Definition syllable_step (st : list bytes * bytes) (b : Z) : list bytes * bytes :=
  let '(syllables, current) := st in
  let current := current ++ [b] in
  if _is_vowel_byte b then (syllables ++ [current], []) else (syllables, current).

Definition split_word_into_syllables (word : bytes) : list bytes :=
  let '(syllables, current) := fold_left syllable_step word ([], []) in
  match current with
  | [] => syllables
  | _ => syllables ++ [current]
  end.

(** [while i < n and p(data[i]): i += 1]; at most [n - i] rounds *)
Fixpoint scan_while (fuel : nat) (p : Z -> bool) (data : bytes) (n i : Z) : Z :=
  match fuel with
  | O => i
  | S fuel' =>
      if (i <? n) && p (data !!! Z.to_nat i)
      then scan_while fuel' p data n (i + 1)
      else i
  end.

(** the outer [while i < n] loop of both tokenizers; they differ in what a
    run of letters contributes: its syllables (v3) or the run itself (v4).
    Every round consumes at least one byte. *)
Fixpoint tokenize_loop (fuel : nat) (letters : bytes -> list bytes)
  (data : bytes) (n i : Z) (tokens : list bytes) : list bytes :=
  match fuel with
  | O => tokens
  | S fuel' =>
      if i <? n then
        let b := data !!! Z.to_nat i in
        if _is_ascii_letter b then
          let start := i in
          let i := i + 1 in
          let i := scan_while (length data) _is_ascii_letter data n i in
          let word := slice data start i in
          tokenize_loop fuel' letters data n i (tokens ++ letters word)
        else
          let start := i in
          let i := i + 1 in
          let i := scan_while (length data)
                     (fun b => negb (_is_ascii_letter b)) data n i in
          tokenize_loop fuel' letters data n i (tokens ++ [slice data start i])
      else tokens
  end.

Definition tokenize_syllables_and_other (data : bytes) : list bytes :=
  let n := len data in
  tokenize_loop (length data) split_word_into_syllables data n 0 [].

Definition tokenize_words_and_other (data : bytes) : list bytes :=
  let n := len data in
  tokenize_loop (length data) (fun word => [word]) data n 0 [].

(** [vocab: Dict[bytes, int]] as the list of its items in insertion order *)
Fixpoint dict_get (vocab : list (bytes * Z)) (tok : bytes) : option Z :=
  match vocab with
  | [] => None
  | (k, v) :: vocab' => if bool_decide (k = tok) then Some v else dict_get vocab' tok
  end.

Definition vocab_step (st : list (bytes * Z) * list bytes) (tok : bytes)
  : list (bytes * Z) * list bytes :=
  let '(vocab, vocab_list) := st in
  match dict_get vocab tok with
  | Some _ => st
  | None => (vocab ++ [(tok, len vocab_list)], vocab_list ++ [tok])
  end.

Definition build_vocab (tokens : list bytes) : list (bytes * Z) * list bytes :=
  fold_left vocab_step tokens ([], []).

(** [for tok in tokens: id_stream.append(vocab[tok])] *)
Definition id_step (vocab : list (bytes * Z)) (id_stream : bytes) (tok : bytes)
  : result bytes :=
  match dict_get vocab tok with
  | Some id => bytearray_append id_stream id
  | None => Raise KeyError
  end.

(** [for tok_bytes in vocab_list: ... header += L.to_bytes(2, "big") ...] *)
Definition vocab_entry (header : bytes) (tok_bytes : bytes) : result bytes :=
  let L := len tok_bytes in
  if 65535 <? L then Raise TokenTooLong else
  lb ← to_bytes 2 L;
  Ok (header ++ lb ++ tok_bytes).

(** the body shared by [compress_bytes_v3] and [compress_bytes_v4], which
    differ in the tokenizer and the version byte only *)
Definition compress_tokens (version : Z) (tokens : list bytes) : result bytes :=
  let N_tokens := len tokens in
  let '(vocab, vocab_list) := build_vocab tokens in
  let vocab_size := len vocab_list in
  if 256 <? vocab_size then Raise (VocabTooLarge vocab_size) else
  id_stream ← foldM (id_step vocab) tokens [];
  '(fr, lastbits, bitstream) ← huffman_compress_core id_stream;
  let header := MAGIC ++ [version] in
  nb ← to_bytes 8 N_tokens;
  let header := header ++ nb in
  vs ← to_bytes 2 vocab_size;
  let header := header ++ vs in
  header ← foldM vocab_entry vocab_list header;
  header ← freq_to_bytes header fr;
  header ← bytearray_append header lastbits;
  Ok (header ++ bitstream).

Definition compress_bytes_v3 (data : bytes) : result bytes :=
  compress_tokens VERSION_STEP3 (tokenize_syllables_and_other data).

Definition compress_bytes_v4 (data : bytes) : result bytes :=
  compress_tokens VERSION_STEP4 (tokenize_words_and_other data).

(** [for _ in range(vocab_size): ...] of the decoders *)
Fixpoint read_vocab (n : nat) (comp : bytes) (idx : Z) (vocab_list : list bytes)
  : result (list bytes * Z) :=
  match n with
  | O => Ok (vocab_list, idx)
  | S n' =>
      if len comp <? idx + 2 then Raise TruncatedLen else
      let L := from_bytes (slice comp idx (idx + 2)) in
      let idx := idx + 2 in
      if len comp <? idx + L then Raise TruncatedToken else
      let tok_bytes := slice comp idx (idx + L) in
      let idx := idx + L in
      read_vocab n' comp idx (vocab_list ++ [tok_bytes])
  end.

(** the fields of a v3/v4 container:
    [(N_tokens, vocab_list, freq, lastbits, bitstream)] *)
Definition read_container (version_wanted : Z) (comp : bytes)
  : result (Z * list bytes * list Z * Z * bytes) :=
  let idx := 0 in
  let min_header_base := 3 + 1 + 8 + 2 in
  if len comp <? min_header_base then Raise TooShort else
  let magic := slice comp idx (idx + 3) in
  let idx := idx + 3 in
  if negb (bool_decide (magic = MAGIC)) then Raise BadMagic else
  version ← get_item comp idx;
  let idx := idx + 1 in
  if negb (version =? version_wanted) then Raise (BadVersion version) else
  let N_tokens := from_bytes (slice comp idx (idx + 8)) in
  let idx := idx + 8 in
  let vocab_size := from_bytes (slice comp idx (idx + 2)) in
  let idx := idx + 2 in
  '(vocab_list, idx) ← read_vocab (Z.to_nat vocab_size) comp idx [];
  if len comp <? idx + 256 * 4 + 1 then Raise TruncatedFreq else
  let '(fr, idx) := read_freq 256 comp idx [] in
  lastbits ← get_item comp idx;
  let idx := idx + 1 in
  let bitstream := slice comp idx (len comp) in
  Ok (N_tokens, vocab_list, fr, lastbits, bitstream).

(** [for b in id_bytes: tok = vocab_list[b]; out += tok] *)
Definition lookup_token (vocab_list : list bytes) (out : bytes) (b : Z)
  : result bytes :=
  match vocab_list !! Z.to_nat b with
  | Some tok => Ok (out ++ tok)
  | None => Raise IndexError
  end.

(** the body shared by [decompress_bytes_v3] and [decompress_bytes_v4] *)
Definition decompress_tokens (version_wanted : Z) (comp : bytes) : result bytes :=
  '(N_tokens, vocab_list, fr, lastbits, bitstream) ← read_container version_wanted comp;
  id_bytes ← huffman_decompress_core fr bitstream N_tokens lastbits;
  foldM (lookup_token vocab_list) id_bytes [].

Definition decompress_bytes_v3 (comp : bytes) : result bytes :=
  decompress_tokens VERSION_STEP3 comp.

Definition decompress_bytes_v4 (comp : bytes) : result bytes :=
  decompress_tokens VERSION_STEP4 comp.

(** ** The first step as released: [gcc_huffman_step1.py]

    The frequency table, the tree and the code table are the functions above;
    [encode_data] has no shortcut for the empty input, [compress_bytes] writes
    the header itself, and [decompress_bytes] decodes in line, reading
    [lastbits] bits of the last byte even when [lastbits] is 0. *)
Module Step1.

Definition VERSION : Z := 1.

Definition encode_data (data : bytes) (codes : gmap Z (list Z))
  : result (bytes * Z) :=
  '(out_bytes, current_byte, bit_count) ← foldM (encode_symbol codes) data ([], 0, 0);
  if 0 <? bit_count
  then out_bytes ← bytearray_append out_bytes
                     (Z.shiftl current_byte (8 - bit_count));
       Ok (out_bytes, bit_count)
  else Ok (out_bytes, 8).

Definition compress_bytes (data : bytes) : result bytes :=
  let N := len data in
  let fr := build_freq_table data in
  let root := build_huffman_tree fr in
  let header := MAGIC ++ [VERSION] in
  nb ← to_bytes 8 N;
  let header := header ++ nb in
  header ← freq_to_bytes header fr;
  match root with
  | None => Ok (header ++ [0])
  | Some root =>
      let codes := build_code_table root in
      '(bitstream, lastbits) ← encode_data data codes;
      header ← bytearray_append header lastbits;
      Ok (header ++ bitstream)
  end.

(** the body of [for i, byte in enumerate(bitstream)] *)
Definition decode_byte (root : HuffmanNode) (N lastbits total_bytes : Z)
  (st : dec_state) (ib : Z * Z) : result dec_state :=
  let '(i, byte) := ib in
  let bits_in_this_byte := if i =? total_bytes - 1 then lastbits else 8 in
  foldM (decode_bit root N byte) (seqZ 0 bits_in_this_byte) st.

Definition decompress_bytes (comp : bytes) : result bytes :=
  let min_header := 3 + 1 + 8 + 256 * 4 + 1 in
  if len comp <? min_header then Raise TooShort else
  let idx := 0 in
  let magic := slice comp idx (idx + 3) in
  let idx := idx + 3 in
  if negb (bool_decide (magic = MAGIC)) then Raise BadMagic else
  version ← get_item comp idx;
  let idx := idx + 1 in
  if negb (version =? VERSION) then Raise (BadVersion version) else
  let N := from_bytes (slice comp idx (idx + 8)) in
  let idx := idx + 8 in
  let '(fr, idx) := read_freq 256 comp idx [] in
  lastbits ← get_item comp idx;
  let idx := idx + 1 in
  let bitstream := slice comp idx (len comp) in
  if N =? 0 then Ok [] else
  match build_huffman_tree fr with
  | None => Ok []
  | Some root =>
      st ← foldM (decode_byte root N lastbits (len bitstream))
                 (enumerate bitstream) (Running [] root 0);
      match st with
      | Returned out => Ok out
      | Running out _ _ => Ok out
      end
  end.

End Step1.

(** * Specification vocabulary

    The predicates, reference functions and example inputs the theorems
    below are stated with. *)

(** The nodes [build_huffman_tree] makes: a leaf carries a symbol and no
    child, an internal node carries no symbol and both children. *)
Inductive proper : HuffmanNode -> Prop :=
  | proper_leaf f s : proper (leaf_node f s)
  | proper_internal f l r :
      proper l -> proper r -> proper (mkNode f None (Some l) (Some r)).

(** the leaves of a tree, left to right, each with the path that leads to it *)
Fixpoint leaf_codes (node : HuffmanNode) : list (Z * list Z) :=
  match node with
  | mkNode _ (Some s) None None => [(s, [])]
  | mkNode _ _ l r =>
      match l with
      | Some nl => (fun sp => (sp.1, 0 :: sp.2)) <$> leaf_codes nl
      | None => []
      end ++
      match r with
      | Some nr => (fun sp => (sp.1, 1 :: sp.2)) <$> leaf_codes nr
      | None => []
      end
  end.

Definition leaf_syms (node : HuffmanNode) : list Z := (leaf_codes node).*1.

(** [path.copy() if path else [0]] *)
Definition code_of_path (path : list Z) : list Z :=
  match path with [] => [0] | _ => path end.

Definition record_code (path : list Z) (codes : gmap Z (list Z))
  (sp : Z * list Z) : gmap Z (list Z) :=
  <[sp.1 := code_of_path (path ++ sp.2)]> codes.

Definition prefix_free (codes : gmap Z (list Z)) : Prop :=
  forall s1 s2 c1 c2,
    codes !! s1 = Some c1 -> codes !! s2 = Some c2 ->
    s1 <> s2 -> ~ c1 `prefix_of` c2.

(** the symbols with a positive count, in the order the leaves are pushed *)
Fixpoint positive_syms (sym : Z) (fr : list Z) : list Z :=
  match fr with
  | [] => []
  | f :: fr' => if 0 <? f then sym :: positive_syms (sym + 1) fr'
                else positive_syms (sym + 1) fr'
  end.

Definition forest_syms (heap : list heap_item) : list Z :=
  heap ≫= (fun it => leaf_syms it.2).

Definition forest_proper (heap : list heap_item) : Prop :=
  Forall (fun it => proper it.2) heap.

Definition forest_leaves (heap : list heap_item) : Prop :=
  Forall (fun it => exists f s, it.2 = leaf_node f s) heap.

(** the [n] low bits of [v], most significant first *)
Fixpoint to_bits (n : nat) (v : Z) : list Z :=
  match n with
  | O => []
  | S n' => to_bits n' (v / 2) ++ [v mod 2]
  end.

(** all eight bits of every byte of a stream *)
Definition unpack_bits (bs : list Z) : list Z := bs ≫= to_bits 8.

(** the bits [encode_data] writes: the codes of the symbols, in order *)
Definition code_bits (codes : gmap Z (list Z)) (data : list Z) : list Z :=
  data ≫= (fun b => default [] (codes !! b)).

Definition is_bit (b : Z) : Prop := b = 0 \/ b = 1.

(** every symbol of [data] has a code, made of bits *)
Definition covers (codes : gmap Z (list Z)) (data : list Z) : Prop :=
  forall b, b ∈ data -> exists code, codes !! b = Some code /\ Forall is_bit code.

(** the accumulator [(out_bytes, current_byte, bit_count)] holds the bits
    written so far: whole bytes, then [bit_count] pending bits *)
Definition enc_inv (bits : list Z) (st : enc_state) : Prop :=
  let '(out, cur, cnt) := st in
  0 <= cnt < 8 /\ 0 <= cur < 2 ^ cnt /\
  unpack_bits out ++ to_bits (Z.to_nat cnt) cur = bits.

(** what [decode_bitstream] does with one bit *)
Definition walk_bit (root : HuffmanNode) (N : Z) (st : dec_state) (bit : Z)
  : result dec_state :=
  match st with
  | Returned out => Ok (Returned out)
  | Running out node total_symbols =>
      match (if bit =? 0 then left node else right node) with
      | None => Raise AttributeError
      | Some node =>
          if is_leaf node then
            match symbol node with
            | Some s =>
                out ← bytearray_append out s;
                if total_symbols + 1 =? N then Ok (Returned out)
                else Ok (Running out root (total_symbols + 1))
            | None => Raise AttributeError
            end
          else Ok (Running out node total_symbols)
      end
  end.

(** the bits [decode_bitstream] reads: eight of every byte, but of the last
    byte [lastbits] only (eight when [lastbits] is 0) *)
Fixpoint stream_bits (lastbits : Z) (bs : list Z) : list Z :=
  match bs with
  | [] => []
  | [b] => take (Z.to_nat (if lastbits =? 0 then 8 else lastbits)) (to_bits 8 b)
  | b :: bs' => to_bits 8 b ++ stream_bits lastbits bs'
  end.

(** the 4-byte fields of a frequency table *)
Definition freq_bytes (fr : list Z) : list Z := fr ≫= be_digits 4.

Ltac reassoc := rewrite <- ?app_assoc; reflexivity.

(** ranges of the 2-, 4- and 8-byte fields *)
Ltac field_range :=
  change (Z.of_nat 2) with 2; change (Z.of_nat 4) with 4;
  change (Z.of_nat 8) with 8; lia.

(** [ MAGIC(3) | VERSION(1) | N(8) | FREQ[256]*4 | LASTBITS(1) | DATA(...) ] *)
Definition container_v1 (N : Z) (fr : list Z) (lastbits : Z) (bitstream : list Z)
  : list Z :=
  MAGIC ++ [VERSION_STEP1] ++ be_digits 8 N ++ freq_bytes fr ++ [lastbits]
  ++ bitstream.

(** [split_streams_v2] by recursion on the input *)
Fixpoint split_spec (data : list Z) : list Z * list Z * list Z :=
  match data with
  | [] => ([], [], [])
  | b :: data' =>
      let '(mask, vowels, cons_) := split_spec data' in
      if bool_decide (b ∈ VOWELS) then (ord "V" :: mask, b :: vowels, cons_)
      else if isalpha b then (ord "C" :: mask, vowels, b :: cons_)
      else (ord "O" :: mask, vowels, b :: cons_)
  end.

(** the fields [FREQ[256]*4 | LASTBITS(1) | BSIZE(8)] of one stream *)
Definition stream_fields (fr : list Z) (last : Z) (bs : list Z) : list Z :=
  freq_bytes fr ++ [last] ++ be_digits 8 (len bs).

(** [ MAGIC | VERSION=2 | N | LEN_V | LEN_C | three stream headers | three
    bitstreams ] *)
Definition container_v2 (N len_v len_c : Z)
  (fm : list Z) (last_m : Z) (bs_m : list Z)
  (fv : list Z) (last_v : Z) (bs_v : list Z)
  (fc : list Z) (last_c : Z) (bs_c : list Z) : list Z :=
  MAGIC ++ [VERSION_STEP2] ++ be_digits 8 N ++ be_digits 8 len_v
  ++ be_digits 8 len_c
  ++ stream_fields fm last_m bs_m ++ stream_fields fv last_v bs_v
  ++ stream_fields fc last_c bs_c ++ bs_m ++ bs_v ++ bs_c.

(** every field of a v2 header holds its value *)
Definition v2_fields_fit (data mask vowels cons_ bs_m bs_v bs_c : list Z) : Prop :=
  len data < 2 ^ 64 /\
  (Forall (fun f => 0 <= f < 2 ^ 32) (build_freq_table mask) /\ len bs_m < 2 ^ 64) /\
  (Forall (fun f => 0 <= f < 2 ^ 32) (build_freq_table vowels) /\ len bs_v < 2 ^ 64) /\
  (Forall (fun f => 0 <= f < 2 ^ 32) (build_freq_table cons_) /\ len bs_c < 2 ^ 64).

(** a dictionary that maps every token of [vl] to its position, from [k] on *)
Definition indexed (k : nat) (vl : list (list Z)) : list (list Z * Z) :=
  imap (fun i tok => (tok, Z.of_nat (k + i))) vl.

(** an id stream that names the tokens of [tokens] in the vocabulary [vl] *)
Definition names (vl : list (list Z)) (tokens : list (list Z)) (ids : list Z) : Prop :=
  Forall2 (fun tok id => 0 <= id < len vl /\ vl !! Z.to_nat id = Some tok) tokens ids.

(** the [LEN(2) | TOKEN_BYTES] entries of a vocabulary *)
Definition vocab_bytes (vl : list (list Z)) : list Z :=
  vl ≫= (fun tok => be_digits 2 (len tok) ++ tok).

Definition tokens_fit (vl : list (list Z)) : Prop :=
  Forall (fun tok => len tok <= 65535) vl.

(** [ MAGIC | VERSION | N_TOKENS(8) | VOCAB_SIZE(2) | VOCAB | FREQ | LASTBITS |
    BITSTREAM ] *)
Definition container_tokens (version N : Z) (vl : list (list Z)) (fr : list Z)
  (lastbits : Z) (bitstream : list Z) : list Z :=
  MAGIC ++ [version] ++ be_digits 8 N ++ be_digits 2 (len vl) ++ vocab_bytes vl
  ++ freq_bytes fr ++ [lastbits] ++ bitstream.

(** every field of a v3/v4 header holds its value *)
Definition token_fields_fit (tokens vl : list (list Z)) (ids : list Z) : Prop :=
  len tokens < 2 ^ 64 /\ tokens_fit vl /\
  Forall (fun f => 0 <= f < 2 ^ 32) (build_freq_table ids).

(** the longest prefix of [l] whose bytes satisfy [p], and what follows it *)
Fixpoint run (p : Z -> bool) (l : list Z) : list Z :=
  match l with
  | b :: l' => if p b then b :: run p l' else []
  | [] => []
  end.

Fixpoint skip (p : Z -> bool) (l : list Z) : list Z :=
  match l with
  | b :: l' => if p b then skip p l' else l
  | [] => []
  end.

(** the maximal runs of letters and of non-letters, in order *)
Fixpoint group (data : list Z) : list (list Z) :=
  match data with
  | [] => []
  | b :: rest =>
      match group rest with
      | (c :: tok) :: toks =>
          if Bool.eqb (_is_ascii_letter b) (_is_ascii_letter c)
          then (b :: c :: tok) :: toks
          else [b] :: (c :: tok) :: toks
      | _ => [[b]]
      end
  end.

(** what a run contributes to the token list *)
Definition emit (letters : list Z -> list (list Z)) (tok : list Z) : list (list Z) :=
  if _is_ascii_letter (default 0 (head tok)) then letters tok else [tok].

#[global] Instance is_byte_dec (b : Z) : Decision (is_byte b).
Proof. unfold is_byte. apply _. Defined.

#[global] Instance is_bytes_dec (data : list Z) : Decision (is_bytes data).
Proof. unfold is_bytes. apply _. Defined.

(** Inputs with many distinct tokens: [many_words n] is [n] distinct
    two-letter words without vowels, each followed by a space. *)
Definition consonants : list Z := Eval cbv in bytes_of_string "bcdfghjklmnpqrstvwxyz".

Definition cword (i : nat) : list Z :=
  [consonants !!! (i / 21)%nat; consonants !!! (i mod 21)%nat].

Definition many_words (n : nat) : list Z :=
  flat_map (fun i => cword i ++ [32]) (seq 0 n).

(** a word of 65536 letters, then 254 distinct short words *)
Definition long_word_input : list Z :=
  replicate (Z.to_nat 65536) 98 ++ [32] ++ many_words 254.

(** the number of distinct tokens of a token list *)
Definition distinct (tokens : list (list Z)) : nat := length (remove_dups tokens).

(** a container with an empty vocabulary whose id stream holds one id *)
Definition unchecked_container (version : Z) : list Z :=
  MAGIC ++ [version] ++ be_digits 8 1 ++ be_digits 2 0
  ++ freq_bytes (<[0%nat := 1]> (replicate 256 0)) ++ [1] ++ [128].

(** ** Vocabulary of the further properties *)

(** the leaves of a tree, left to right, each with its weight *)
Fixpoint leaf_items (node : HuffmanNode) : list (Z * Z) :=
  match node with
  | mkNode f (Some s) None None => [(s, f)]
  | mkNode _ _ l r =>
      match l with Some nl => leaf_items nl | None => [] end ++
      match r with Some nr => leaf_items nr | None => [] end
  end.

(** a tree in which every internal node weighs what its two children weigh *)
Inductive weighted : HuffmanNode -> Prop :=
  | weighted_leaf f s : weighted (leaf_node f s)
  | weighted_internal l r :
      weighted l -> weighted r ->
      weighted (mkNode (freq l + freq r) None (Some l) (Some r)).

(** the symbols with a positive count and their counts, in table order *)
Fixpoint positive_items (sym : Z) (fr : list Z) : list (Z * Z) :=
  match fr with
  | [] => []
  | f :: fr' => if 0 <? f then (sym, f) :: positive_items (sym + 1) fr'
                else positive_items (sym + 1) fr'
  end.

Definition forest_items (heap : list heap_item) : list (Z * Z) :=
  heap ≫= (fun it => leaf_items it.2).

(** every heap entry is keyed by the weight of its tree *)
Definition forest_weighted (heap : list heap_item) : Prop :=
  Forall (fun it => weighted it.2 /\ it.1.1 = freq it.2) heap.

(** a token list in which neighbours differ in kind: letters next to
    non-letters *)
Fixpoint alternating (toks : list (list Z)) : Prop :=
  match toks with
  | t1 :: (t2 :: _) as rest =>
      (forall b c, b ∈ t1 -> c ∈ t2 -> _is_ascii_letter b <> _is_ascii_letter c)
      /\ alternating rest
  | _ => True
  end.

(** the state of the syllable loop: the closed syllables end with their only
    vowel, the open one has no vowel *)
Definition closed_syllable (s : list Z) : Prop :=
  exists body v, s = body ++ [v] /\ _is_vowel_byte v = true /\
    Forall (fun b => _is_vowel_byte b = false) body.

(** a subtree the decoder can walk: proper, with byte symbols at the leaves *)
Definition walkable (node : HuffmanNode) : Prop :=
  proper node /\ Forall is_byte (leaf_syms node).

(** the states the decoder goes through when [N] symbols are wanted *)
Definition dec_inv (N : Z) (st : dec_state) : Prop :=
  match st with
  | Running out node t =>
      is_bytes out /\ len out = t /\ t < N /\ walkable node /\ is_leaf node = false
  | Returned out => is_bytes out /\ len out = N
  end.

(** the errors a decoder raises on purpose or through an index out of range
    or a shift by a negative count *)
Definition decoder_error (e : exn) : Prop :=
  match e with
  | TooShort | BadMagic | BadVersion _ | TruncatedLen | TruncatedToken
  | TruncatedFreq | NegativeShift | IndexError => True
  | _ => False
  end.

(** * Verification *)

(** ** Lists, slices and the result monad *)

Lemma len_app {A} (l k : list A) : len (l ++ k) = len l + len k.
Proof. unfold len. rewrite length_app. lia. Qed.

Lemma len_singleton {A} (x : A) : len [x] = 1.
Proof. done. Qed.

Lemma len_nonneg {A} (l : list A) : 0 <= len l.
Proof. unfold len. lia. Qed.

Lemma slice_in_range {A} (l : list A) (i j : Z) :
  0 <= i <= j -> j <= len l ->
  slice l i j = take (Z.to_nat (j - i)) (drop (Z.to_nat i) l).
Proof.
  intros Hij Hj. unfold slice.
  replace (Z.min (Z.max 0 i) (len l)) with i by lia.
  replace (Z.min (Z.max 0 j) (len l)) with j by lia. reflexivity.
Qed.

Lemma slice_all {A} (l : list A) : slice l 0 (len l) = l.
Proof.
  rewrite slice_in_range by (pose proof (len_nonneg l); lia).
  simpl. unfold len. rewrite Z.sub_0_r, Nat2Z.id. apply firstn_all.
Qed.

Lemma slice_nil {A} (l : list A) (i : Z) : slice l i i = [].
Proof. unfold slice. by rewrite Z.sub_diag. Qed.

Lemma slice_app {A} (l : list A) (i j k : Z) :
  0 <= i <= j -> j <= k <= len l ->
  slice l i j ++ slice l j k = slice l i k.
Proof.
  intros Hij Hjk. rewrite !slice_in_range by lia.
  replace (Z.to_nat j) with (Z.to_nat i + Z.to_nat (j - i))%nat by lia.
  rewrite <- drop_drop, take_take_drop. f_equal. lia.
Qed.

Lemma slice_prefix {A} (pre x post : list A) :
  slice (pre ++ x ++ post) (len pre) (len pre + len x) = x.
Proof.
  rewrite slice_in_range.
  - unfold len. rewrite Nat2Z.id, drop_app_length.
    replace (Z.to_nat _) with (length x) by lia. apply take_app_length.
  - unfold len. lia.
  - rewrite !len_app. pose proof (len_nonneg post). lia.
Qed.

Lemma slice_suffix {A} (pre post : list A) :
  slice (pre ++ post) (len pre) (len (pre ++ post)) = post.
Proof.
  rewrite slice_in_range.
  - unfold len. rewrite Nat2Z.id, drop_app_length, length_app.
    apply take_ge. lia.
  - rewrite len_app. pose proof (len_nonneg pre). pose proof (len_nonneg post). lia.
  - lia.
Qed.

Lemma foldM_app {A B} (f : A -> B -> result A) (l k : list B) (a : A) :
  foldM f (l ++ k) a = (a' ← foldM f l a; foldM f k a').
Proof.
  revert a. induction l as [|b l IH]; intros a; simpl; [reflexivity|].
  destruct (f a b); simpl; auto.
Qed.

(** ** Format 2: the three streams *)

Lemma split_step_lengths (st : bytes * bytes * bytes) (b : Z) :
  length (split_step st b).1.1 = S (length st.1.1) /\
  (length (split_step st b).1.2 + length (split_step st b).2
   = S (length st.1.2 + length st.2))%nat.
Proof.
  destruct st as [[mask vowels] cons_]. unfold split_step.
  destruct (bool_decide _); [|destruct (isalpha b)]; simpl;
    rewrite !length_app; simpl; lia.
Qed.

Lemma split_fold_lengths (data : bytes) (st : bytes * bytes * bytes) :
  length (fold_left split_step data st).1.1 = (length st.1.1 + length data)%nat /\
  (length (fold_left split_step data st).1.2 + length (fold_left split_step data st).2
   = length st.1.2 + length st.2 + length data)%nat.
Proof.
  revert st. induction data as [|b data IH]; intros st; simpl; [lia|].
  destruct (IH (split_step st b)) as [H1 H2].
  destruct (split_step_lengths st b) as [H3 H4]. lia.
Qed.

Lemma split_streams_lengths (data : bytes) :
  length (split_streams_v2 data).1.1 = length data /\
  (length (split_streams_v2 data).1.2 + length (split_streams_v2 data).2)%nat
  = length data.
Proof.
  unfold split_streams_v2.
  pose proof (split_fold_lengths data ([], [], [])) as H. simpl in H. lia.
Qed.

(** C6: the mask stream is as long as the input, and the vowel stream and
    the stream of consonants and other bytes together are as long as the
    input. *)
Theorem split_streams_v2_lengths (data : bytes) :
  let '(mask, vowels, cons_) := split_streams_v2 data in
  length mask = length data /\
  (length vowels + length cons_)%nat = length data.
Proof.
  pose proof (split_streams_lengths data) as H. revert H.
  destruct (split_streams_v2 data) as [[mask vowels] cons_]. simpl. tauto.
Qed.

(** ** The tokenizers *)

Lemma scan_while_range (fuel : nat) (p : Z -> bool) (data : bytes) (n i : Z) :
  i <= n -> i <= scan_while fuel p data n i <= n.
Proof.
  revert i. induction fuel as [|fuel IH]; intros i Hi; simpl; [lia|].
  destruct (i <? n) eqn:Hlt; simpl; [|lia].
  destruct (p _); [|lia].
  apply Z.ltb_lt in Hlt. specialize (IH (i + 1)). lia.
Qed.

Lemma syllable_fold_concat (word : bytes) (syllables : list bytes) (current : bytes) :
  concat (fold_left syllable_step word (syllables, current)).1
    ++ (fold_left syllable_step word (syllables, current)).2
  = concat syllables ++ current ++ word.
Proof.
  revert syllables current.
  induction word as [|b word IH]; intros syllables current; simpl.
  - by rewrite app_nil_r.
  - destruct (_is_vowel_byte b); rewrite IH.
    + rewrite concat_app. simpl. by rewrite !app_nil_r, <- !app_assoc.
    + by rewrite <- !app_assoc.
Qed.

Lemma split_word_into_syllables_concat (word : bytes) :
  concat (split_word_into_syllables word) = word.
Proof.
  unfold split_word_into_syllables.
  pose proof (syllable_fold_concat word [] []) as H. revert H.
  destruct (fold_left syllable_step word ([], [])) as [syllables current].
  simpl. intros H. destruct current.
  - by rewrite app_nil_r in H.
  - rewrite concat_app. simpl. by rewrite app_nil_r.
Qed.

Section tokenize_loop.

Variable letters : bytes -> list bytes.

Hypothesis letters_concat : forall word, concat (letters word) = word.

Lemma tokenize_loop_concat (fuel : nat) (data : bytes) (i : Z)
  (tokens : list bytes) :
  0 <= i <= len data ->
  len data - i <= Z.of_nat fuel ->
  concat tokens = slice data 0 i ->
  concat (tokenize_loop fuel letters data (len data) i tokens) = data.
Proof using letters_concat.
  revert i tokens. induction fuel as [|fuel IH]; intros i tokens Hi Hfuel Htok.
  - simpl. rewrite Htok. replace i with (len data) by lia. apply slice_all.
  - simpl. destruct (i <? len data) eqn:Hlt.
    + apply Z.ltb_lt in Hlt.
      destruct (_is_ascii_letter _).
      * pose proof (scan_while_range (length data) _is_ascii_letter data
                      (len data) (i + 1)).
        apply IH; [lia..|].
        rewrite concat_app, letters_concat, Htok. apply slice_app; lia.
      * pose proof (scan_while_range (length data)
                      (fun b => negb (_is_ascii_letter b)) data (len data) (i + 1)).
        apply IH; [lia..|].
        rewrite concat_app, Htok. simpl. rewrite app_nil_r. apply slice_app; lia.
    + apply Z.ltb_ge in Hlt. rewrite Htok.
      replace i with (len data) by lia. apply slice_all.
Qed.

End tokenize_loop.

Lemma tokenize_words_concat (data : bytes) :
  concat (tokenize_words_and_other data) = data.
Proof.
  pose proof (len_nonneg data) as Hn.
  apply tokenize_loop_concat; [|lia|unfold len; lia|by rewrite slice_nil].
  intros word. simpl. apply app_nil_r.
Qed.

Lemma tokenize_syllables_concat (data : bytes) :
  concat (tokenize_syllables_and_other data) = data.
Proof.
  pose proof (len_nonneg data) as Hn.
  apply tokenize_loop_concat; [|lia|unfold len; lia|by rewrite slice_nil].
  apply split_word_into_syllables_concat.
Qed.

(** C9: the tokens of either tokenizer, concatenated in order, are the
    input: no byte is dropped, duplicated or moved. *)
Theorem tokenize_concat (data : bytes) :
  concat (tokenize_words_and_other data) = data /\
  concat (tokenize_syllables_and_other data) = data.
Proof.
  split; [apply tokenize_words_concat|apply tokenize_syllables_concat].
Qed.

(** C8: on "ciao, mondo!" the word tokenizer yields "ciao", ", ", "mondo",
    "!"; the syllable tokenizer closes a syllable after each vowel, so
    "ciao" becomes "ci", "a", "o", and it leaves the runs ", " and "!" whole. *)
Theorem tokenize_ciao_mondo :
  tokenize_words_and_other (bytes_of_string "ciao, mondo!")
    = map bytes_of_string ["ciao"; ", "; "mondo"; "!"]%string /\
  split_word_into_syllables (bytes_of_string "ciao")
    = map bytes_of_string ["ci"; "a"; "o"]%string /\
  tokenize_syllables_and_other (bytes_of_string "ciao, mondo!")
    = map bytes_of_string ["ci"; "a"; "o"; ", "; "mo"; "ndo"; "!"]%string.
Proof. repeat split; vm_compute; reflexivity. Qed.

(** ** Huffman trees and their codes *)

Lemma record_code_fmap (b : Z) (path : list Z) (l : list (Z * list Z))
  (codes : gmap Z (list Z)) :
  fold_left (record_code path) ((fun sp => (sp.1, b :: sp.2)) <$> l) codes
  = fold_left (record_code (path ++ [b])) l codes.
Proof.
  revert codes. induction l as [|[s p] l IH]; intros codes; simpl; [done|].
  rewrite IH. unfold record_code at 2 4. simpl. by rewrite <- app_assoc.
Qed.

Lemma dfs_proper (node : HuffmanNode) :
  proper node -> forall path codes,
  dfs node path codes = fold_left (record_code path) (leaf_codes node) codes.
Proof.
  induction 1 as [f s|f l r Hl IHl Hr IHr]; intros path codes.
  - simpl. unfold record_code. simpl. by rewrite app_nil_r.
  - simpl. rewrite IHl, IHr, fold_left_app, !record_code_fmap. done.
Qed.

Lemma record_codes_lookup_notin (path : list Z) (l : list (Z * list Z))
  (codes : gmap Z (list Z)) (s : Z) :
  s ∉ l.*1 -> fold_left (record_code path) l codes !! s = codes !! s.
Proof.
  revert codes. induction l as [|[s' p] l IH]; intros codes Hs; simpl; [done|].
  rewrite fmap_cons, not_elem_of_cons in Hs. destruct Hs as [Hne Hs].
  rewrite IH by done. unfold record_code. simpl. by rewrite lookup_insert_ne.
Qed.

Lemma record_codes_lookup_elem (path : list Z) (l : list (Z * list Z))
  (codes : gmap Z (list Z)) (s : Z) (p : list Z) :
  NoDup l.*1 -> (s, p) ∈ l ->
  fold_left (record_code path) l codes !! s = Some (code_of_path (path ++ p)).
Proof.
  revert codes. induction l as [|[s' p'] l IH]; intros codes Hnd Hin; simpl.
  - by apply elem_of_nil in Hin.
  - rewrite fmap_cons in Hnd. apply NoDup_cons in Hnd as [Hs' Hnd].
    apply elem_of_cons in Hin as [Heq|Hin].
    + injection Heq as -> ->. rewrite record_codes_lookup_notin by done.
      unfold record_code. simpl. by rewrite lookup_insert_eq.
    + by apply IH.
Qed.

Lemma record_codes_lookup_inv (path : list Z) (l : list (Z * list Z))
  (codes : gmap Z (list Z)) (s : Z) (c : list Z) :
  fold_left (record_code path) l codes !! s = Some c ->
  (exists p, (s, p) ∈ l /\ c = code_of_path (path ++ p)) \/ codes !! s = Some c.
Proof.
  revert codes. induction l as [|[s' p'] l IH]; intros codes Hc; simpl in Hc.
  - by right.
  - apply IH in Hc as [(p & Hin & ->)|Hc].
    + left. exists p. split; [by apply elem_of_cons; right|done].
    + unfold record_code in Hc. simpl in Hc.
      destruct (decide (s' = s)) as [->|Hne].
      * rewrite lookup_insert_eq in Hc. injection Hc as <-.
        left. exists p'. split; [apply elem_of_cons; by left|done].
      * rewrite lookup_insert_ne in Hc by done. by right.
Qed.

(** two leaves whose paths are prefix-related are the same leaf *)
Lemma leaf_codes_prefix (node : HuffmanNode) :
  proper node -> forall s1 p1 s2 p2,
  (s1, p1) ∈ leaf_codes node -> (s2, p2) ∈ leaf_codes node ->
  p1 `prefix_of` p2 -> s1 = s2.
Proof.
  induction 1 as [f s|f l r Hl IHl Hr IHr]; intros s1 p1 s2 p2 H1 H2 Hpre.
  - simpl in H1, H2. apply list_elem_of_singleton in H1, H2. congruence.
  - simpl in H1, H2. apply elem_of_app in H1, H2.
    destruct H1 as [H1|H1], H2 as [H2|H2];
      apply list_elem_of_fmap in H1 as ([s1' q1] & E1 & H1);
      apply list_elem_of_fmap in H2 as ([s2' q2] & E2 & H2);
      simpl in E1, E2; injection E1 as -> ->; injection E2 as -> ->.
    + eapply IHl; eauto using prefix_cons_inv_2.
    + by apply prefix_cons_inv_1 in Hpre.
    + by apply prefix_cons_inv_1 in Hpre.
    + eapply IHr; eauto using prefix_cons_inv_2.
Qed.

Lemma leaf_codes_bits (node : HuffmanNode) :
  proper node -> forall s p, (s, p) ∈ leaf_codes node ->
  Forall (fun b => b = 0 \/ b = 1) p.
Proof.
  induction 1 as [f s|f l r Hl IHl Hr IHr]; intros s0 p Hin; simpl in Hin.
  - apply list_elem_of_singleton in Hin. injection Hin as -> ->. constructor.
  - apply elem_of_app in Hin as [Hin|Hin];
      apply list_elem_of_fmap in Hin as ([s' q] & E & Hin);
      simpl in E; injection E as -> ->; constructor; eauto.
Qed.

Lemma leaf_syms_internal f l r :
  leaf_syms (mkNode f None (Some l) (Some r)) = leaf_syms l ++ leaf_syms r.
Proof.
  unfold leaf_syms. simpl. rewrite fmap_app, <- !list_fmap_compose.
  f_equal; by apply list_fmap_ext.
Qed.

Lemma proper_leaf_syms_length (node : HuffmanNode) :
  proper node -> (1 <= length (leaf_syms node))%nat.
Proof.
  induction 1 as [f s|f l r Hl IHl Hr IHr]; [simpl; lia|].
  rewrite leaf_syms_internal, length_app. lia.
Qed.

Lemma proper_single_leaf (node : HuffmanNode) (s : Z) :
  proper node -> leaf_syms node = [s] -> exists f, node = leaf_node f s.
Proof.
  destruct 1 as [f s'|f l r Hl Hr]; intros Hs.
  - injection Hs as ->. by exists f.
  - apply (f_equal length) in Hs. rewrite leaf_syms_internal, length_app in Hs.
    apply proper_leaf_syms_length in Hl, Hr. simpl in Hs. lia.
Qed.

Lemma internal_codes_nonempty f l r s p :
  (s, p) ∈ leaf_codes (mkNode f None (Some l) (Some r)) -> p <> [].
Proof.
  simpl. intros Hin. apply elem_of_app in Hin as [Hin|Hin];
    apply list_elem_of_fmap in Hin as ([s' q] & E & Hin);
    simpl in E; by injection E as -> ->.
Qed.

(** ** Building the tree *)

Lemma heappush_perm (heap : list heap_item) (item : heap_item) :
  heappush heap item ≡ₚ item :: heap.
Proof.
  induction heap as [|x heap IH]; simpl; [done|].
  destruct (item_ltb item x); [done|]. rewrite IH. apply Permutation_swap.
Qed.

Lemma heappush_length (heap : list heap_item) (item : heap_item) :
  length (heappush heap item) = S (length heap).
Proof. by rewrite heappush_perm. Qed.

Lemma heappush_proper (heap : list heap_item) (item : heap_item) :
  forest_proper heap -> proper item.2 -> forest_proper (heappush heap item).
Proof.
  intros Hh Hi. unfold forest_proper. rewrite heappush_perm. by constructor.
Qed.

Lemma heappush_syms (heap : list heap_item) (item : heap_item) :
  forest_syms (heappush heap item) ≡ₚ leaf_syms item.2 ++ forest_syms heap.
Proof. unfold forest_syms. by rewrite heappush_perm. Qed.

Lemma positive_syms_lower (sym : Z) (fr : list Z) (x : Z) :
  x ∈ positive_syms sym fr -> sym <= x.
Proof.
  revert sym. induction fr as [|f fr IH]; intros sym; simpl.
  - by intros ?%elem_of_nil.
  - destruct (0 <? f).
    + intros [->|Hx%IH]%elem_of_cons; lia.
    + intros Hx%IH. lia.
Qed.

Lemma positive_syms_NoDup (sym : Z) (fr : list Z) : NoDup (positive_syms sym fr).
Proof.
  revert sym. induction fr as [|f fr IH]; intros sym; simpl; [constructor|].
  destruct (0 <? f); [|done]. constructor; [|done].
  intros Hx%positive_syms_lower. lia.
Qed.

Lemma positive_syms_lookup (sym : Z) (fr : list Z) (i : nat) (f : Z) :
  fr !! i = Some f -> 0 < f -> sym + Z.of_nat i ∈ positive_syms sym fr.
Proof.
  revert sym i. induction fr as [|f0 fr IH]; intros sym i Hi Hf; [done|].
  destruct i as [|i].
  - simpl in *. injection Hi as ->. apply Z.ltb_lt in Hf.
    rewrite Hf, Z.add_0_r. by left.
  - replace (sym + Z.of_nat (S i)) with ((sym + 1) + Z.of_nat i) by lia.
    simpl in Hi. cbn [positive_syms].
    destruct (0 <? f0); [right|]; by eapply IH.
Qed.

Lemma positive_syms_nil (sym : Z) (fr : list Z) :
  Forall (fun f => f <= 0) fr -> positive_syms sym fr = [].
Proof.
  intros H. revert sym.
  induction H as [|f fr Hf _ IH]; intros sym; simpl; [done|].
  apply Z.ltb_ge in Hf. by rewrite Hf.
Qed.

Lemma push_leaves_spec (fr : list Z) :
  forall sym heap counter, forest_proper heap ->
  forest_proper (push_leaves sym fr heap counter).1 /\
  forest_syms (push_leaves sym fr heap counter).1
    ≡ₚ forest_syms heap ++ positive_syms sym fr.
Proof.
  induction fr as [|f fr IH]; intros sym heap counter Hp; simpl.
  - by rewrite app_nil_r.
  - destruct (0 <? f); [|by apply IH].
    destruct (IH (sym + 1) (heappush heap (f, counter, leaf_node f sym))
                 (counter + 1)) as [IH1 IH2].
    { apply heappush_proper; [done|constructor]. }
    split; [done|]. rewrite IH2, heappush_syms. simpl.
    by rewrite (Permutation_middle (forest_syms heap)).
Qed.

Lemma forest_leaves_syms_length (heap : list heap_item) :
  forest_leaves heap -> length (forest_syms heap) = length heap.
Proof.
  induction 1 as [|[[f c] n] heap (f' & s & Hn) _ IH]; [done|].
  simpl in Hn. subst n.
  change (forest_syms ((f, c, leaf_node f' s) :: heap)) with (s :: forest_syms heap).
  simpl. by rewrite IH.
Qed.

Lemma push_leaves_leaves (fr : list Z) :
  forall sym heap counter, forest_leaves heap ->
  forest_leaves (push_leaves sym fr heap counter).1.
Proof.
  induction fr as [|f fr IH]; intros sym heap counter Hl; simpl; [done|].
  destruct (0 <? f); apply IH; [|done].
  unfold forest_leaves. rewrite heappush_perm. constructor; [|done]. simpl. eauto.
Qed.

Lemma merge_loop_spec (fuel : nat) :
  forall heap counter, forest_proper heap -> heap <> [] ->
  (length heap <= S fuel)%nat ->
  exists f c root, merge_loop fuel heap counter = [(f, c, root)] /\
    proper root /\ leaf_syms root ≡ₚ forest_syms heap.
Proof.
  induction fuel as [|fuel IH]; intros heap counter Hp Hne Hlen.
  - destruct heap as [|[[f c] root] [|? ?]]; simpl in *; [done| |lia].
    exists f, c, root. apply Forall_cons in Hp as [Hp _].
    repeat split; [done|]. unfold forest_syms. simpl. by rewrite app_nil_r.
  - destruct heap as [|[[f1 c1] n1] [|[[f2 c2] n2] rest]]; [done| |].
    + exists f1, c1, n1. apply Forall_cons in Hp as [Hp _].
      repeat split; [done|]. unfold forest_syms. simpl. by rewrite app_nil_r.
    + simpl. apply Forall_cons in Hp as [Hp1 Hp]. apply Forall_cons in Hp as [Hp2 Hp].
      destruct (IH (heappush rest (f1 + f2, counter,
                      mkNode (f1 + f2) None (Some n1) (Some n2))) (counter + 1))
        as (f & c & root & Hm & Hroot & Hsyms).
      * apply heappush_proper; [done|]. by constructor.
      * intros Hnil. apply (f_equal length) in Hnil.
        rewrite heappush_length in Hnil. done.
      * rewrite heappush_length. simpl in Hlen. lia.
      * exists f, c, root. repeat split; [done..|].
        rewrite Hsyms, heappush_syms. cbn [snd]. rewrite leaf_syms_internal.
        unfold forest_syms. simpl. by rewrite <- app_assoc.
Qed.

Lemma dummy_symbol_fresh (s : Z) : (s + 1) mod 256 <> s.
Proof.
  pose proof (Z.mod_pos_bound (s + 1) 256 ltac:(lia)) as Hb.
  intros Heq. destruct (decide (s = 255)) as [->|Hne]; [done|].
  rewrite Z.mod_small in Heq; lia.
Qed.

Lemma positive_syms_length (sym : Z) (fr : list Z) :
  (length (positive_syms sym fr) <= length fr)%nat.
Proof.
  revert sym. induction fr as [|f fr IH]; intros sym; simpl; [lia|].
  destruct (0 <? f); simpl; specialize (IH (sym + 1)); lia.
Qed.

(** What [build_huffman_tree] returns when some count is positive: a proper
    tree with an internal root, whose leaves carry pairwise distinct symbols,
    among them every symbol with a positive count; there is at most one leaf
    more than the table has entries. *)
Lemma build_huffman_tree_spec (fr : list Z) :
  Exists (fun f => 0 < f) fr ->
  exists f l r,
    build_huffman_tree fr = Some (mkNode f None (Some l) (Some r)) /\
    proper l /\ proper r /\
    NoDup (leaf_syms (mkNode f None (Some l) (Some r))) /\
    (forall s, s ∈ positive_syms 0 fr ->
       s ∈ leaf_syms (mkNode f None (Some l) (Some r))) /\
    (length (leaf_syms (mkNode f None (Some l) (Some r))) <= S (length fr))%nat.
Proof.
  intros Hex. unfold build_huffman_tree.
  destruct (push_leaves_spec fr 0 [] 0) as [Hp Hsyms]; [constructor|].
  pose proof (push_leaves_leaves fr 0 [] 0 ltac:(constructor)) as Hlv.
  revert Hp Hsyms Hlv. destruct (push_leaves 0 fr [] 0) as [heap counter]. simpl.
  intros Hp Hsyms Hlv.
  assert (Hpos : positive_syms 0 fr <> []).
  { apply Exists_exists in Hex as (f & Hin & Hf).
    apply list_elem_of_lookup in Hin as [i Hi].
    intros Hnil. pose proof (positive_syms_lookup 0 fr i f Hi Hf) as Hin.
    rewrite Hnil in Hin. by apply elem_of_nil in Hin. }
  pose proof (positive_syms_length 0 fr) as Hcount.
  assert (Hroot : forall heap' counter', forest_proper heap' ->
            (2 <= length (forest_syms heap'))%nat -> heap' <> [] ->
            NoDup (forest_syms heap') ->
            (forall s, s ∈ positive_syms 0 fr -> s ∈ forest_syms heap') ->
            (length (forest_syms heap') <= S (length fr))%nat ->
            exists f l r,
              match merge_loop (length heap') heap' counter' with
              | [] => None
              | (_, _, root) :: _ => Some root
              end = Some (mkNode f None (Some l) (Some r)) /\
              proper l /\ proper r /\
              NoDup (leaf_syms (mkNode f None (Some l) (Some r))) /\
              (forall s, s ∈ positive_syms 0 fr ->
                 s ∈ leaf_syms (mkNode f None (Some l) (Some r))) /\
              (length (leaf_syms (mkNode f None (Some l) (Some r)))
               <= S (length fr))%nat).
  { intros heap' counter' Hp' Hlen' Hne' Hnd' Hall' Hcnt'.
    destruct (merge_loop_spec (length heap') heap' counter' Hp' Hne')
      as (f & c & root & Hm & Hr & Hs); [lia|].
    rewrite Hm. destruct Hr as [f' s|f' l r Hl Hr].
    - rewrite <- Hs in Hlen'. simpl in Hlen'. lia.
    - exists f', l, r. repeat split; [done..| | |].
      + by rewrite Hs.
      + intros s Hin. rewrite Hs. by apply Hall'.
      + by rewrite Hs. }
  simpl in Hsyms.
  destruct heap as [|[[f c] only] [|it2 rest]].
  - simpl in Hsyms. by apply Permutation_nil in Hsyms.
  - apply Forall_cons in Hlv as [(f' & s & Honly) _]. simpl in Honly. subst only.
    unfold forest_syms in Hsyms. simpl in Hsyms.
    cbn [symbol leaf_node]. apply Hroot.
    + apply heappush_proper; [|constructor]. by repeat constructor.
    + rewrite heappush_syms. simpl. lia.
    + intros Hnil. apply (f_equal length) in Hnil.
      by rewrite heappush_length in Hnil.
    + rewrite heappush_syms. simpl. apply NoDup_cons. split; [|apply NoDup_singleton].
      intros Hin%list_elem_of_singleton. by apply dummy_symbol_fresh in Hin.
    + intros s' Hin. rewrite heappush_syms, <- Hsyms in *. simpl. by right.
    + rewrite heappush_syms. rewrite <- Hsyms in Hcount. simpl in *. lia.
  - apply Hroot; [done| |done| | |].
    + rewrite forest_leaves_syms_length by done. simpl. lia.
    + rewrite Hsyms. apply positive_syms_NoDup.
    + intros s Hin. by rewrite Hsyms.
    + rewrite Hsyms. lia.
Qed.

(** the path to a leaf is shorter than the number of leaves *)
Lemma leaf_codes_depth (node : HuffmanNode) :
  proper node -> forall s p, (s, p) ∈ leaf_codes node ->
  (length p < length (leaf_syms node))%nat.
Proof.
  induction 1 as [f s|f l r Hl IHl Hr IHr]; intros s0 p Hin.
  - simpl in Hin. apply list_elem_of_singleton in Hin. injection Hin as -> ->.
    simpl. lia.
  - rewrite leaf_syms_internal, length_app.
    pose proof (proper_leaf_syms_length l Hl).
    pose proof (proper_leaf_syms_length r Hr).
    simpl in Hin. apply elem_of_app in Hin as [Hin|Hin];
      apply list_elem_of_fmap in Hin as ([s' q] & E & Hin);
      simpl in E; injection E as -> ->; simpl.
    + specialize (IHl _ _ Hin). lia.
    + specialize (IHr _ _ Hin). lia.
Qed.

(** the code table of a tree with an internal root and distinct symbols
    maps each leaf's symbol to the path of that leaf, and nothing else *)
Lemma build_code_table_lookup f l r (s : Z) (c : list Z) :
  proper l -> proper r ->
  NoDup (leaf_syms (mkNode f None (Some l) (Some r))) ->
  build_code_table (mkNode f None (Some l) (Some r)) !! s = Some c
  <-> (s, c) ∈ leaf_codes (mkNode f None (Some l) (Some r)).
Proof.
  intros Hl Hr Hnd. unfold build_code_table.
  rewrite dfs_proper by by constructor. split.
  - intros [(p & Hin & ->)|Hc]%record_codes_lookup_inv; [|done].
    pose proof (internal_codes_nonempty _ _ _ _ _ Hin). by destruct p.
  - intros Hin. rewrite (record_codes_lookup_elem _ _ _ _ c) by done.
    pose proof (internal_codes_nonempty _ _ _ _ _ Hin). by destruct c.
Qed.

Lemma push_leaves_app (l1 l2 : list Z) :
  forall sym heap counter,
  push_leaves sym (l1 ++ l2) heap counter
  = push_leaves (sym + len l1) l2 (push_leaves sym l1 heap counter).1
                (push_leaves sym l1 heap counter).2.
Proof.
  induction l1 as [|f l1 IH]; intros sym heap counter; simpl.
  - by rewrite Z.add_0_r.
  - replace (sym + len (f :: l1)) with (sym + 1 + len l1) by (unfold len; simpl; lia).
    destruct (0 <? f); apply IH.
Qed.

Lemma push_leaves_zeros (l : list Z) :
  Forall (fun x => x = 0) l ->
  forall sym heap counter, push_leaves sym l heap counter = (heap, counter).
Proof. induction 1 as [|x l -> _ IH]; intros sym heap counter; simpl; auto. Qed.

(** C4: when the frequency table has a non-zero count, the tree exists and
    its code table is prefix-free: the code of one symbol is never a prefix
    of the code of another. *)
Theorem code_table_prefix_free (fr : list Z) :
  Forall (fun f => 0 <= f) fr -> Exists (fun f => f <> 0) fr ->
  exists root, build_huffman_tree fr = Some root /\
               prefix_free (build_code_table root).
Proof.
  intros Hnn Hex.
  destruct (build_huffman_tree_spec fr) as (f & l & r & Hb & Hl & Hr & Hnd & _ & _).
  { apply Exists_exists in Hex as (x & Hin & Hx). apply Exists_exists.
    exists x. split; [done|]. rewrite Forall_forall in Hnn.
    specialize (Hnn x Hin). lia. }
  eexists. split; [exact Hb|].
  intros s1 s2 c1 c2 H1 H2 Hne Hpre.
  apply build_code_table_lookup in H1, H2; try done.
  apply Hne. eapply (leaf_codes_prefix _ (proper_internal f l r Hl Hr)); eauto.
Qed.

Lemma code_table_prefix_free_witness :
  exists root, build_huffman_tree [3; 0; 1; 2; 1] = Some root /\
               prefix_free (build_code_table root).
Proof.
  apply code_table_prefix_free.
  - repeat constructor; lia.
  - apply Exists_cons_hd. lia.
Defined.

(** C5: when exactly one symbol [s] has a non-zero count [f], the tree is a
    root over two leaves, the zero-weight dummy [(s + 1) mod 256] on the left
    and [s] on the right; every symbol with a non-zero count, that is [s],
    gets a non-empty code. *)
Theorem single_symbol_tree (fr : list Z) (s : nat) (f : Z) :
  Forall (fun f => 0 <= f) fr ->
  fr !! s = Some f -> f <> 0 ->
  (forall i x, fr !! i = Some x -> x <> 0 -> i = s) ->
  let sym := Z.of_nat s in
  let dummy := leaf_node 0 ((sym + 1) mod 256) in
  let root := mkNode f None (Some dummy) (Some (leaf_node f sym)) in
  build_huffman_tree fr = Some root /\
  leaf_syms root = [(sym + 1) mod 256; sym] /\
  (forall i x, fr !! i = Some x -> x <> 0 ->
     exists code, build_code_table root !! Z.of_nat i = Some code /\ code <> []).
Proof.
  intros Hnn Hs Hf Hothers sym dummy root.
  assert (Hpos : 0 < f).
  { rewrite Forall_forall in Hnn. apply list_elem_of_lookup_2 in Hs as Hin.
    specialize (Hnn f Hin). lia. }
  assert (Hzero : forall k, (forall x, x ∈ k -> exists i, fr !! i = Some x /\ i <> s) ->
                    Forall (fun x => x = 0) k).
  { intros k Hk. apply Forall_forall. intros x (i & Hi & Hne)%Hk.
    destruct (decide (x = 0)); [done|]. by apply Hothers in Hi. }
  assert (Hb : build_huffman_tree fr = Some root).
  { unfold build_huffman_tree.
    rewrite <- (take_drop_middle fr s f Hs), push_leaves_app.
    rewrite (push_leaves_zeros (take s fr)); cycle 1.
    { apply Hzero. intros x (i & Hi)%list_elem_of_lookup.
      apply lookup_take_Some in Hi as [Hi Hlt]. exists i. split; [done|lia]. }
    cbn [fst snd push_leaves]. apply Z.ltb_lt in Hpos as Hpos'. rewrite Hpos'.
    rewrite push_leaves_zeros; cycle 1.
    { apply Hzero. intros x (i & Hi)%list_elem_of_lookup.
      rewrite lookup_drop in Hi. exists (S s + i)%nat. split; [done|lia]. }
    assert (Hlen : 0 + len (take s fr) = sym).
    { unfold len. rewrite length_take. apply lookup_lt_Some in Hs. lia. }
    rewrite Hlen. simpl. rewrite Hpos'. simpl. done. }
  split; [exact Hb|]. split; [done|].
  intros i x Hi Hx. apply Hothers in Hi as ->; [|done].
  exists [1]. split; [|done]. subst root. unfold build_code_table. simpl.
  apply lookup_insert_eq.
Qed.

Lemma single_symbol_tree_witness :
  build_huffman_tree [0; 0; 4; 0]
    = Some (mkNode 4 None (Some (leaf_node 0 3)) (Some (leaf_node 4 2))) /\
  leaf_syms (mkNode 4 None (Some (leaf_node 0 3)) (Some (leaf_node 4 2))) = [3; 2] /\
  (forall i x, [0; 0; 4; 0] !! i = Some x -> x <> 0 ->
     exists code,
       build_code_table (mkNode 4 None (Some (leaf_node 0 3)) (Some (leaf_node 4 2)))
         !! Z.of_nat i = Some code /\ code <> []).
Proof.
  apply (single_symbol_tree [0; 0; 4; 0] 2 4).
  - repeat constructor; lia.
  - reflexivity.
  - lia.
  - intros [|[|[|[|i]]]] x Hi Hx; simpl in Hi; try done;
      injection Hi as <-; lia.
Defined.

(** ** Packing bits into bytes *)

Lemma to_bits_length (n : nat) (v : Z) : length (to_bits n v) = n.
Proof.
  revert v. induction n as [|n IH]; intros v; simpl; [done|].
  rewrite length_app, IH. simpl. lia.
Qed.

Lemma to_bits_snoc (n : nat) (v bit : Z) :
  is_bit bit -> to_bits (S n) (2 * v + bit) = to_bits n v ++ [bit].
Proof.
  intros Hb. simpl. f_equal.
  - f_equal. destruct Hb as [-> | ->]; Z.div_mod_to_equations; lia.
  - f_equal. destruct Hb as [-> | ->]; Z.div_mod_to_equations; lia.
Qed.

Lemma to_bits_pad (n k : nat) (v : Z) :
  to_bits (k + n) (v * 2 ^ Z.of_nat k) = to_bits n v ++ replicate k 0.
Proof.
  revert v. induction k as [|k IH]; intros v.
  - simpl. by rewrite Z.mul_1_r, app_nil_r.
  - replace (v * 2 ^ Z.of_nat (S k)) with (2 * (v * 2 ^ Z.of_nat k) + 0)
      by (rewrite Nat2Z.inj_succ, Z.pow_succ_r; lia).
    change (S k + n)%nat with (S (k + n)).
    rewrite to_bits_snoc by by left. rewrite IH, <- app_assoc. f_equal.
    change [0] with (replicate 1 0). rewrite <- replicate_add. f_equal. lia.
Qed.

Lemma unpack_bits_snoc (out : list Z) (b : Z) :
  unpack_bits (out ++ [b]) = unpack_bits out ++ to_bits 8 b.
Proof.
  unfold unpack_bits. rewrite bind_app. f_equal.
Qed.

Lemma shift_in_bit (cur bit : Z) :
  0 <= cur -> is_bit bit -> Z.lor (Z.shiftl cur 1) bit = 2 * cur + bit.
Proof.
  intros Hc Hb. rewrite Z.shiftl_mul_pow2, Z.pow_1_r, (Z.mul_comm cur 2) by lia.
  destruct Hb as [-> | ->].
  - rewrite Z.lor_0_r. lia.
  - destruct cur as [|p|p]; [done|reflexivity|lia].
Qed.

Lemma encode_bit_inv (bits : list Z) (st : enc_state) (bit : Z) :
  enc_inv bits st -> is_bit bit ->
  exists st', encode_bit st bit = Ok st' /\ enc_inv (bits ++ [bit]) st'.
Proof.
  destruct st as [[out cur] cnt]. intros (Hcnt & Hcur & Hbits) Hb.
  unfold encode_bit. rewrite shift_in_bit by (done || lia).
  assert (Hnew : 0 <= 2 * cur + bit < 2 ^ (cnt + 1)).
  { rewrite Z.pow_add_r by lia. destruct Hb as [-> | ->]; lia. }
  assert (Hsnoc : to_bits (Z.to_nat (cnt + 1)) (2 * cur + bit)
                  = to_bits (Z.to_nat cnt) cur ++ [bit]).
  { replace (Z.to_nat (cnt + 1)) with (S (Z.to_nat cnt)) by lia.
    by apply to_bits_snoc. }
  destruct (cnt + 1 =? 8) eqn:Heq.
  - apply Z.eqb_eq in Heq. unfold bytearray_append.
    replace (cnt + 1) with 8 in Hnew by lia.
    destruct (0 <=? 2 * cur + bit) eqn:H1; [|lia].
    destruct (2 * cur + bit <? 256) eqn:H2; [|lia]. simpl.
    eexists. split; [reflexivity|]. repeat split; try lia.
    rewrite unpack_bits_snoc, app_nil_r. simpl Z.to_nat.
    replace 8%nat with (Z.to_nat (cnt + 1)) by lia.
    by rewrite Hsnoc, app_assoc, Hbits.
  - apply Z.eqb_neq in Heq. eexists. split; [reflexivity|].
    repeat split; try lia. by rewrite Hsnoc, app_assoc, Hbits.
Qed.

Lemma encode_code_inv (code : list Z) :
  forall bits st, enc_inv bits st -> Forall is_bit code ->
  exists st', foldM encode_bit code st = Ok st' /\ enc_inv (bits ++ code) st'.
Proof.
  induction code as [|bit code IH]; intros bits st Hinv Hcode; simpl.
  - exists st. by rewrite app_nil_r.
  - apply Forall_cons in Hcode as [Hb Hcode].
    destruct (encode_bit_inv bits st bit Hinv Hb) as (st1 & -> & Hinv1). simpl.
    destruct (IH _ st1 Hinv1 Hcode) as (st' & -> & Hinv').
    exists st'. split; [done|]. by rewrite <- app_assoc in Hinv'.
Qed.

Lemma encode_symbol_inv (codes : gmap Z (list Z)) (b : Z) (code : list Z) :
  codes !! b = Some code -> Forall is_bit code ->
  forall bits st, enc_inv bits st ->
  exists st', encode_symbol codes st b = Ok st' /\ enc_inv (bits ++ code) st'.
Proof.
  intros Hcode Hbits bits st Hinv. unfold encode_symbol. rewrite Hcode.
  by apply encode_code_inv.
Qed.

Lemma encode_symbols_inv (codes : gmap Z (list Z)) (data : list Z) :
  forall bits st, enc_inv bits st -> covers codes data ->
  exists st', foldM (encode_symbol codes) data st = Ok st' /\
              enc_inv (bits ++ code_bits codes data) st'.
Proof.
  induction data as [|b data IH]; intros bits st Hinv Hcov.
  - exists st. by rewrite app_nil_r.
  - destruct (Hcov b) as (code & Hcode & Hbits); [by left|].
    destruct (encode_symbol_inv codes b code Hcode Hbits bits st Hinv)
      as (st1 & Hst1 & Hinv1).
    destruct (IH _ st1 Hinv1) as (st' & Hst' & Hinv').
    { intros b' Hb'. apply Hcov. by right. }
    exists st'. split.
    + cbn [foldM]. rewrite Hst1. exact Hst'.
    + unfold code_bits in *. cbn [mbind list_bind]. rewrite Hcode.
      by rewrite <- app_assoc in Hinv'.
Qed.

Lemma unpack_bits_length (bs : list Z) : len (unpack_bits bs) = 8 * len bs.
Proof.
  unfold len. induction bs as [|b bs IH]; [done|].
  change (unpack_bits (b :: bs)) with (to_bits 8 b ++ unpack_bits bs).
  rewrite length_app, to_bits_length. simpl length. lia.
Qed.

(** [encode_data] on a non-empty input: the stream holds the code bits,
    padded with zeros up to a whole byte, and [lastbits] counts the bits of
    the last byte that are code bits *)
Lemma encode_data_spec (data : list Z) (codes : gmap Z (list Z)) :
  covers codes data -> data <> [] ->
  exists bitstream lastbits,
    encode_data data codes = Ok (bitstream, lastbits) /\
    1 <= lastbits <= 8 /\
    len (code_bits codes data) = 8 * len bitstream - (8 - lastbits) /\
    unpack_bits bitstream
      = code_bits codes data ++ replicate (Z.to_nat (8 - lastbits)) 0.
Proof.
  intros Hcov Hne.
  destruct (encode_symbols_inv codes data [] ([], 0, 0)) as (st & Hst & Hinv);
    [by repeat split|done|].
  destruct st as [[out cur] cnt]. destruct Hinv as (Hcnt & Hcur & Hbits).
  rewrite app_nil_l in Hbits.
  assert (Hlen : len (code_bits codes data) = 8 * len out + cnt).
  { rewrite <- Hbits, len_app, unpack_bits_length. unfold len at 2.
    rewrite to_bits_length. lia. }
  unfold encode_data. destruct data as [|b data]; [done|]. rewrite Hst.
  cbn [mbind result_bind]. destruct (0 <? cnt) eqn:Hpos.
  - apply Z.ltb_lt in Hpos. unfold bytearray_append.
    rewrite Z.shiftl_mul_pow2 by lia.
    assert (Hrange : 0 <= cur * 2 ^ (8 - cnt) < 256).
    { replace 256 with (2 ^ cnt * 2 ^ (8 - cnt))
        by (rewrite <- Z.pow_add_r by lia; by replace (cnt + (8 - cnt)) with 8 by lia).
      assert (0 < 2 ^ (8 - cnt)) by (apply Z.pow_pos_nonneg; lia). nia. }
    destruct (0 <=? cur * 2 ^ (8 - cnt)) eqn:H1; [|lia].
    destruct (cur * 2 ^ (8 - cnt) <? 256) eqn:H2; [|lia]. cbn [andb mbind result_bind].
    eexists _, _. split; [reflexivity|]. split; [lia|]. split.
    + rewrite Hlen, len_app. unfold len at 3. simpl length. lia.
    + rewrite unpack_bits_snoc, <- Hbits, <- app_assoc. f_equal.
      remember (Z.to_nat (8 - cnt)) as k eqn:Hk.
      replace (8 - cnt) with (Z.of_nat k) by lia.
      replace 8%nat with (k + Z.to_nat cnt)%nat by lia.
      apply to_bits_pad.
  - apply Z.ltb_ge in Hpos. assert (cnt = 0) as -> by lia.
    eexists _, _. split; [reflexivity|]. split; [lia|]. split; [lia|].
    change (Z.to_nat 0) with 0%nat in Hbits. cbn [to_bits] in Hbits.
    change (Z.to_nat (8 - 8)) with 0%nat. cbn [replicate].
    by rewrite app_nil_r in *.
Qed.

(** C7: [lastbits] is 0 exactly for the empty input; for a non-empty input
    whose code bits fill whole bytes it is 8; otherwise it is the number of
    code bits in the last byte (the bit count modulo 8, between 1 and 8), and
    the rest of that byte is zero bits. *)
Theorem encode_data_lastbits (data : list Z) (codes : gmap Z (list Z)) :
  covers codes data ->
  exists bitstream lastbits,
    encode_data data codes = Ok (bitstream, lastbits) /\
    (lastbits = 0 <-> data = []) /\
    (data = [] -> bitstream = []) /\
    (data <> [] ->
       let n := len (code_bits codes data) in
       1 <= lastbits <= 8 /\
       (n mod 8 = 0 -> lastbits = 8) /\
       (n mod 8 <> 0 -> lastbits = n mod 8) /\
       8 * len bitstream = n + (8 - lastbits) /\
       unpack_bits bitstream
         = code_bits codes data ++ replicate (Z.to_nat (8 - lastbits)) 0).
Proof.
  intros Hcov. destruct data as [|b data].
  - exists [], 0. repeat split; done.
  - destruct (encode_data_spec (b :: data) codes Hcov)
      as (bitstream & lastbits & Henc & Hrange & Hlen & Hbits); [done|].
    exists bitstream, lastbits. split; [done|]. split; [|split; [done|]].
    + split; [lia|done].
    + intros _ n. subst n. rewrite Hlen. repeat split; try lia.
      * intros Hmod. Z.div_mod_to_equations. lia.
      * intros Hmod. Z.div_mod_to_equations. lia.
      * done.
Qed.

Lemma encode_data_lastbits_witness :
  exists bitstream lastbits,
    encode_data [97; 98; 97] (<[97 := [0]]> (<[98 := [1; 0]]> ∅))
      = Ok (bitstream, lastbits) /\
    (lastbits = 0 <-> [97; 98; 97] = []) /\
    ([97; 98; 97] = [] -> bitstream = []) /\
    ([97; 98; 97] <> [] ->
       let n := len (code_bits (<[97 := [0]]> (<[98 := [1; 0]]> ∅)) [97; 98; 97]) in
       1 <= lastbits <= 8 /\
       (n mod 8 = 0 -> lastbits = 8) /\
       (n mod 8 <> 0 -> lastbits = n mod 8) /\
       8 * len bitstream = n + (8 - lastbits) /\
       unpack_bits bitstream
         = code_bits (<[97 := [0]]> (<[98 := [1; 0]]> ∅)) [97; 98; 97]
           ++ replicate (Z.to_nat (8 - lastbits)) 0).
Proof.
  apply (encode_data_lastbits [97; 98; 97] (<[97 := [0]]> (<[98 := [1; 0]]> ∅))).
  intros b Hb.
  repeat (apply elem_of_cons in Hb as [->|Hb]); [..|by apply elem_of_nil in Hb];
    eexists; (split; [reflexivity|]);
    repeat (constructor; [unfold is_bit; lia|]); constructor.
Defined.

(** ** Unpacking bits and walking the tree *)

Lemma foldM_fmap_ext {A B C} (f : A -> B -> result A) (g : A -> C -> result A)
  (h : B -> C) (l : list B) :
  (forall a x, x ∈ l -> f a x = g a (h x)) ->
  forall a, foldM f l a = foldM g (h <$> l) a.
Proof.
  induction l as [|x l IH]; intros Hfg a; simpl; [done|].
  rewrite Hfg by by left. destruct (g a (h x)); simpl; [|done].
  apply IH. intros a' x' Hx'. apply Hfg. by right.
Qed.

Lemma to_bits_lookup (n : nat) : forall (v : Z) (j : nat),
  (j < n)%nat ->
  to_bits n v !! j = Some ((v / 2 ^ Z.of_nat (n - 1 - j)) mod 2).
Proof.
  induction n as [|n IH]; intros v j Hj; [lia|]. simpl to_bits.
  destruct (decide (j = n)) as [->|Hne].
  - rewrite lookup_app_r by (rewrite to_bits_length; lia).
    rewrite to_bits_length. replace (n - n)%nat with 0%nat by lia.
    replace (S n - 1 - n)%nat with 0%nat by lia. simpl. by rewrite Z.div_1_r.
  - rewrite lookup_app_l by (rewrite to_bits_length; lia).
    rewrite IH by lia. f_equal.
    replace (Z.of_nat (S n - 1 - j)) with (1 + Z.of_nat (n - 1 - j)) by lia.
    rewrite Z.pow_add_r, Z.pow_1_r, Z.div_div by lia. done.
Qed.

Lemma decode_bit_walk (root : HuffmanNode) (N byte : Z) (st : dec_state) (j : Z) :
  0 <= j < 8 ->
  decode_bit root N byte st j = walk_bit root N st ((byte / 2 ^ (7 - j)) mod 2).
Proof.
  intros Hj. destruct st as [out node total|out]; [|done].
  unfold decode_bit, walk_bit, py_rshift.
  destruct (7 - j <? 0) eqn:Hs; [lia|]. cbn [mbind result_bind].
  rewrite Z.shiftr_div_pow2 by lia.
  change 1 with (Z.ones 1) at 1. rewrite Z.land_ones by lia. by rewrite Z.pow_1_r.
Qed.

Lemma bits_of_byte (byte m : Z) :
  0 <= m <= 8 ->
  (fun j => (byte / 2 ^ (7 - j)) mod 2) <$> seqZ 0 m
  = take (Z.to_nat m) (to_bits 8 byte).
Proof.
  intros Hm. apply list_eq. intros i.
  rewrite list_lookup_fmap, lookup_take.
  destruct (decide (i < Z.to_nat m)%nat) as [Hi|Hi].
  - rewrite lookup_seqZ_lt, to_bits_lookup by lia.
    cbn [fmap option_fmap option_map]. do 4 f_equal. lia.
  - by rewrite lookup_seqZ_ge by lia.
Qed.

Lemma decode_byte_walk (root : HuffmanNode) (N lastbits total_bytes : Z)
  (st : dec_state) (i byte : Z) :
  0 <= lastbits <= 8 ->
  decode_byte root N lastbits total_bytes st (i, byte)
  = foldM (walk_bit root N)
      (take (Z.to_nat (if (i =? total_bytes - 1) && negb (lastbits =? 0)
                       then lastbits else 8)) (to_bits 8 byte)) st.
Proof.
  intros Hl. unfold decode_byte.
  set (m := if (i =? total_bytes - 1) && negb (lastbits =? 0) then lastbits else 8).
  assert (Hm : 0 <= m <= 8) by (subst m; destruct (_ && _); lia).
  rewrite <- bits_of_byte by done.
  apply foldM_fmap_ext. intros a j (k & Hj)%list_elem_of_lookup.
  apply lookup_seqZ in Hj as [-> Hk]. apply decode_bit_walk. lia.
Qed.

Lemma enumerate_cons {A} (k : nat) (x : A) (l : list A) :
  imap (fun i y => (Z.of_nat (k + i), y)) (x :: l)
  = (Z.of_nat k, x) :: imap (fun i y => (Z.of_nat (S k + i), y)) l.
Proof.
  rewrite imap_cons. f_equal; [by rewrite Nat.add_0_r|].
  apply imap_ext. intros i y _. simpl. do 2 f_equal. lia.
Qed.

Lemma decode_bytes_walk (root : HuffmanNode) (N lastbits : Z) (bs : list Z) :
  0 <= lastbits <= 8 ->
  forall (k : nat) (st : dec_state),
  foldM (decode_byte root N lastbits (Z.of_nat (k + length bs)))
        (imap (fun i y => (Z.of_nat (k + i), y)) bs) st
  = foldM (walk_bit root N) (stream_bits lastbits bs) st.
Proof.
  intros Hl. induction bs as [|b bs IH]; intros k st; [done|].
  rewrite enumerate_cons. cbn [foldM]. rewrite decode_byte_walk by done.
  destruct bs as [|b' bs].
  - cbn [stream_bits imap foldM length].
    rewrite (proj2 (Z.eqb_eq _ _)) by lia.
    cbn [andb]. destruct (lastbits =? 0); cbn [negb];
      by destruct (foldM _ _ _).
  - rewrite (proj2 (Z.eqb_neq _ _)) by (simpl length; lia).
    cbn [andb]. change (stream_bits lastbits (b :: b' :: bs))
      with (to_bits 8 b ++ stream_bits lastbits (b' :: bs)).
    rewrite foldM_app. change (Z.to_nat 8) with 8%nat.
    rewrite (take_ge (to_bits 8 b)) by (rewrite to_bits_length; lia).
    destruct (foldM (walk_bit root N) (to_bits 8 b) st) as [st'|e]; [|done].
    cbn [mbind result_bind].
    replace (k + length (b :: b' :: bs))%nat with (S k + length (b' :: bs))%nat
      by (simpl length; lia).
    apply IH.
Qed.

Lemma decode_bitstream_walk (root : HuffmanNode) (bitstream : list Z)
  (N lastbits : Z) :
  N <> 0 -> 0 <= lastbits <= 8 ->
  decode_bitstream (Some root) bitstream N lastbits
  = (st ← foldM (walk_bit root N) (stream_bits lastbits bitstream)
                (Running [] root 0);
     match st with
     | Returned out => Ok out
     | Running out _ _ => Ok out
     end).
Proof.
  intros HN Hl. unfold decode_bitstream.
  apply Z.eqb_neq in HN. rewrite HN. unfold enumerate, len.
  by rewrite <- (decode_bytes_walk root N lastbits bitstream Hl 0).
Qed.

Lemma stream_bits_unpack (lastbits : Z) (bs : list Z) :
  1 <= lastbits <= 8 -> bs <> [] ->
  stream_bits lastbits bs
  = take (length (unpack_bits bs) - Z.to_nat (8 - lastbits)) (unpack_bits bs).
Proof.
  intros Hl. induction bs as [|b bs IH]; intros Hne; [done|].
  change (unpack_bits (b :: bs)) with (to_bits 8 b ++ unpack_bits bs).
  destruct bs as [|b' bs].
  - cbn [stream_bits]. rewrite (proj2 (Z.eqb_neq lastbits 0)) by lia.
    change (unpack_bits []) with (@nil Z). rewrite app_nil_r, to_bits_length.
    f_equal. lia.
  - change (stream_bits lastbits (b :: b' :: bs))
      with (to_bits 8 b ++ stream_bits lastbits (b' :: bs)).
    rewrite IH by done.
    rewrite (take_app (to_bits 8 b)), (length_app (to_bits 8 b)), to_bits_length.
    assert (8 <= length (unpack_bits (b' :: bs)))%nat.
    { change (unpack_bits (b' :: bs)) with (to_bits 8 b' ++ unpack_bits bs).
      rewrite length_app, to_bits_length. lia. }
    rewrite (take_ge (to_bits 8 b)) by (rewrite to_bits_length; lia).
    f_equal. f_equal. lia.
Qed.

Lemma proper_is_leaf (node : HuffmanNode) :
  proper node -> is_leaf node = true -> exists f s, node = leaf_node f s.
Proof. destruct 1 as [f s|f l r _ _]; [eauto|done]. Qed.

(** following the path of a leaf from an internal node emits its symbol *)
Lemma walk_code (root : HuffmanNode) (N : Z) (node : HuffmanNode) :
  proper node -> is_leaf node = false ->
  forall s p out t, (s, p) ∈ leaf_codes node -> is_byte s ->
  foldM (walk_bit root N) p (Running out node t)
  = Ok (if t + 1 =? N then Returned (out ++ [s])
        else Running (out ++ [s]) root (t + 1)).
Proof.
  induction 1 as [f s|f l r Hl IHl Hr IHr]; intros Hleaf s0 p out t Hin Hs; [done|].
  assert (Hchild : forall child q, proper child ->
            (is_leaf child = false -> forall s p out t, (s, p) ∈ leaf_codes child ->
               is_byte s ->
               foldM (walk_bit root N) p (Running out child t)
               = Ok (if t + 1 =? N then Returned (out ++ [s])
                     else Running (out ++ [s]) root (t + 1))) ->
            (s0, q) ∈ leaf_codes child ->
            (c ← (if is_leaf child then
                    match symbol child with
                    | Some s => out ← bytearray_append out s;
                                if t + 1 =? N then Ok (Returned out)
                                else Ok (Running out root (t + 1))
                    | None => Raise AttributeError
                    end
                  else Ok (Running out child t));
             foldM (walk_bit root N) q c)
            = Ok (if t + 1 =? N then Returned (out ++ [s0])
                  else Running (out ++ [s0]) root (t + 1))).
  { intros child q Hc IHc Hq. destruct (is_leaf child) eqn:Hlf.
    - destruct (proper_is_leaf child Hc Hlf) as (f' & s' & ->).
      simpl in Hq. apply list_elem_of_singleton in Hq. injection Hq as -> ->.
      cbn [symbol leaf_node]. unfold bytearray_append.
      destruct Hs as [Hs1 Hs2].
      rewrite (proj2 (Z.leb_le _ _)), (proj2 (Z.ltb_lt _ _)) by done.
      cbn [andb mbind result_bind]. by destruct (t + 1 =? N).
    - cbn [mbind result_bind]. by apply IHc. }
  simpl in Hin. apply elem_of_app in Hin as [Hin|Hin];
    apply list_elem_of_fmap in Hin as ([s' q] & E & Hin);
    simpl in E; injection E as -> ->; cbn [foldM walk_bit left right].
  - rewrite Z.eqb_refl. by apply Hchild.
  - change (1 =? 0) with false. cbv iota. by apply Hchild.
Qed.

Lemma code_bits_cons (codes : gmap Z (list Z)) (b : Z) (data : list Z) (p : list Z) :
  codes !! b = Some p -> code_bits codes (b :: data) = p ++ code_bits codes data.
Proof. intros Hp. unfold code_bits. cbn [mbind list_bind]. by rewrite Hp. Qed.

Lemma walk_returned (root : HuffmanNode) (N : Z) (bits : list Z) (out : list Z) :
  foldM (walk_bit root N) bits (Returned out) = Ok (Returned out).
Proof. induction bits as [|b bits IH]; [done|]. exact IH. Qed.

(** decoding the code bits of [data] from the root gives [data] back and
    stops at the declared count *)
Lemma walk_data (N : Z) (codes : gmap Z (list Z)) f l r (data : list Z) :
  let root := mkNode f None (Some l) (Some r) in
  proper l -> proper r ->
  (forall b, b ∈ data -> is_byte b /\
     exists p, (b, p) ∈ leaf_codes root /\ codes !! b = Some p) ->
  forall out t, data <> [] -> N = t + len data ->
  foldM (walk_bit root N) (code_bits codes data) (Running out root t)
  = Ok (Returned (out ++ data)).
Proof.
  intros root Hl Hr. induction data as [|b data IH]; intros Hd out t Hne HN; [done|].
  destruct (Hd b) as (Hb & p & Hin & Hp); [by left|].
  rewrite (code_bits_cons _ _ _ _ Hp), foldM_app.
  rewrite (walk_code root N root (proper_internal f l r Hl Hr) eq_refl b p out t Hin Hb).
  cbn [mbind result_bind]. destruct data as [|b' data].
  - rewrite (proj2 (Z.eqb_eq _ _)) by (unfold len in HN; simpl in HN; lia).
    apply walk_returned.
  - rewrite (proj2 (Z.eqb_neq _ _))
      by (unfold len in HN; simpl length in HN; lia).
    rewrite IH; [by rewrite <- app_assoc| |done|].
    + intros b0 Hb0. apply Hd. by right.
    + unfold len in *. simpl length in *. lia.
Qed.

(** ** The frequency table *)

Lemma freq_fold_length (data : list Z) : forall fr,
  length (fold_left freq_step data fr) = length fr.
Proof.
  induction data as [|b data IH]; intros fr; simpl; [done|].
  rewrite IH. apply length_insert.
Qed.

Lemma freq_step_range (fr : list Z) (b : Z) (i : nat) :
  fr !!! i <= freq_step fr b !!! i <= fr !!! i + 1.
Proof.
  unfold freq_step. rewrite list_lookup_total_insert.
  case_decide as H; [destruct H as [-> _]|]; lia.
Qed.

Lemma freq_fold_range (data : list Z) : forall fr i,
  fr !!! i <= fold_left freq_step data fr !!! i <= fr !!! i + len data.
Proof.
  induction data as [|b data IH]; intros fr i; simpl.
  - unfold len. simpl. lia.
  - specialize (IH (freq_step fr b) i). pose proof (freq_step_range fr b i).
    unfold len in *. simpl length. lia.
Qed.

Lemma freq_fold_pos (data : list Z) (b : Z) : forall fr,
  length fr = 256%nat -> is_bytes data -> b ∈ data ->
  fr !!! Z.to_nat b + 1 <= fold_left freq_step data fr !!! Z.to_nat b.
Proof.
  induction data as [|b0 data IH]; intros fr Hlen Hbytes Hin; simpl.
  - by apply elem_of_nil in Hin.
  - apply Forall_cons in Hbytes as [Hb0 Hbytes].
    apply elem_of_cons in Hin as [->|Hin].
    + pose proof (freq_fold_range data (freq_step fr b0) (Z.to_nat b0)) as Hr.
      unfold freq_step in Hr at 1.
      rewrite list_lookup_total_insert_eq in Hr by (unfold is_byte in Hb0; lia).
      lia.
    + assert (Hlen' : length (freq_step fr b0) = 256%nat)
        by (unfold freq_step; by rewrite length_insert).
      specialize (IH (freq_step fr b0) Hlen' Hbytes Hin).
      pose proof (freq_step_range fr b0 (Z.to_nat b)) as Hr. lia.
Qed.

Lemma build_freq_table_length (data : list Z) :
  length (build_freq_table data) = 256%nat.
Proof. unfold build_freq_table. by rewrite (freq_fold_length data). Qed.

Lemma build_freq_table_bound (data : list Z) (f : Z) :
  f ∈ build_freq_table data -> 0 <= f <= len data.
Proof.
  intros (i & Hi)%list_elem_of_lookup.
  apply list_lookup_total_correct in Hi as Hi'. subst f.
  apply lookup_lt_Some in Hi. rewrite build_freq_table_length in Hi.
  pose proof (freq_fold_range data (replicate 256 0) i) as Hr.
  rewrite lookup_total_replicate_2 in Hr by done. exact Hr.
Qed.

Lemma build_freq_table_pos (data : list Z) (b : Z) :
  is_bytes data -> b ∈ data -> b ∈ positive_syms 0 (build_freq_table data).
Proof.
  intros Hbytes Hin.
  assert (Hb : is_byte b) by (by eapply Forall_forall in Hbytes).
  pose proof (freq_fold_pos data b (replicate 256 0) eq_refl Hbytes Hin) as Hpos.
  rewrite lookup_total_replicate_2 in Hpos by (unfold is_byte in Hb; lia).
  replace b with (0 + Z.of_nat (Z.to_nat b)) at 1 by (unfold is_byte in Hb; lia).
  eapply positive_syms_lookup.
  - apply list_lookup_lookup_total_lt. rewrite build_freq_table_length.
    unfold is_byte in Hb. lia.
  - unfold build_freq_table. lia.
Qed.

(** ** The Huffman core round trip *)

Lemma encoded_stream_bits (codes : gmap Z (list Z)) (data bitstream : list Z)
  (lastbits : Z) :
  1 <= lastbits <= 8 ->
  len (code_bits codes data) = 8 * len bitstream - (8 - lastbits) ->
  unpack_bits bitstream
    = code_bits codes data ++ replicate (Z.to_nat (8 - lastbits)) 0 ->
  stream_bits lastbits bitstream = code_bits codes data.
Proof.
  intros Hl Hlen Hbits. destruct bitstream as [|b bs].
  - unfold len in Hlen. simpl in Hlen.
    destruct (code_bits codes data); [done|simpl in Hlen; lia].
  - rewrite stream_bits_unpack by done. rewrite Hbits, length_app, length_replicate.
    rewrite take_app_le by lia. apply take_ge. lia.
Qed.

Lemma code_bits_length_bound (codes : gmap Z (list Z)) (K : Z) (data : list Z) :
  (forall b, b ∈ data -> exists p, codes !! b = Some p /\ len p <= K) ->
  len (code_bits codes data) <= K * len data.
Proof.
  induction data as [|b data IH]; intros Hd.
  - unfold len. simpl. lia.
  - destruct (Hd b) as (p & Hp & Hlen); [by left|].
    rewrite (code_bits_cons _ _ _ _ Hp), len_app.
    assert (len (code_bits codes data) <= K * len data).
    { apply IH. intros b' Hb'. apply Hd. by right. }
    unfold len in *. simpl length. lia.
Qed.

Lemma huffman_core_roundtrip (data : list Z) :
  is_bytes data ->
  exists lastbits bitstream,
    huffman_compress_core data = Ok (build_freq_table data, lastbits, bitstream) /\
    0 <= lastbits <= 8 /\
    len bitstream <= 32 * len data + 1 /\
    huffman_decompress_core (build_freq_table data) bitstream (len data) lastbits
      = Ok data.
Proof.
  intros Hbytes. destruct data as [|b0 data0] eqn:Hdata.
  - exists 0, []. by vm_compute.
  - rewrite <- Hdata in *. assert (Hne : data <> []) by by rewrite Hdata.
    assert (Hb0 : b0 ∈ data) by (rewrite Hdata; by left).
    clear Hdata data0.
    destruct (build_huffman_tree_spec (build_freq_table data))
      as (f & l & r & Htree & Hl & Hr & Hnd & Hsyms & Hcount).
    { pose proof (build_freq_table_pos data b0 Hbytes Hb0) as Hin.
      destruct (decide (Exists (fun f => 0 < f) (build_freq_table data)))
        as [|Hno]; [done|].
      apply not_Exists_Forall in Hno; [|intros x; apply _].
      rewrite positive_syms_nil in Hin; [by apply elem_of_nil in Hin|].
      eapply Forall_impl; [exact Hno|]. simpl. lia. }
    rewrite build_freq_table_length in Hcount.
    set (root := mkNode f None (Some l) (Some r)) in *.
    assert (Hroot : proper root) by by constructor.
    assert (Hcodes : forall b, b ∈ data -> is_byte b /\
              exists p, (b, p) ∈ leaf_codes root /\
                        build_code_table root !! b = Some p).
    { intros b Hb. split; [by eapply Forall_forall in Hbytes|].
      pose proof (Hsyms b (build_freq_table_pos data b Hbytes Hb)) as Hin.
      apply list_elem_of_fmap in Hin as ([b' p] & -> & Hin).
      exists p. split; [done|]. by apply build_code_table_lookup. }
    destruct (encode_data_spec data (build_code_table root))
      as (bitstream & lastbits & Henc & Hlast & Hlen & Hbits); [|done|].
    { intros b (_ & p & Hin & Hp)%Hcodes. exists p. split; [done|].
      by eapply leaf_codes_bits. }
    assert (Hbound : len (code_bits (build_code_table root) data) <= 256 * len data).
    { apply code_bits_length_bound.
      intros b (_ & p & Hin & Hp)%Hcodes. exists p. split; [done|].
      pose proof (leaf_codes_depth root Hroot b p Hin). unfold len. lia. }
    exists lastbits, bitstream. split; [|split; [lia|split; [lia|]]].
    + unfold huffman_compress_core. rewrite Htree. fold root. by rewrite Henc.
    + unfold huffman_decompress_core. rewrite Htree. fold root.
      assert (HN : len data <> 0) by (unfold len; destruct data; simpl; [done|lia]).
      rewrite (proj2 (Z.eqb_neq _ _)) by done.
      rewrite decode_bitstream_walk by (done || lia).
      rewrite (encoded_stream_bits _ _ _ _ Hlast Hlen Hbits).
      pose proof (walk_data (len data) (build_code_table root) f l r data
                    Hl Hr Hcodes [] 0 Hne ltac:(lia)) as Hw.
      cbv zeta in Hw. fold root in Hw. by rewrite Hw.
Qed.

(** ** Big-endian integers and header fields *)

Lemma be_digits_length (k : nat) (v : Z) : length (be_digits k v) = k.
Proof.
  revert v. induction k as [|k IH]; intros v; simpl; [done|].
  rewrite length_app, IH. simpl. lia.
Qed.

Lemma from_bytes_snoc (bs : list Z) (b : Z) :
  from_bytes (bs ++ [b]) = from_bytes bs * 256 + b.
Proof. unfold from_bytes. by rewrite fold_left_app. Qed.

Lemma from_bytes_be_digits (k : nat) : forall v,
  0 <= v < 256 ^ Z.of_nat k -> from_bytes (be_digits k v) = v.
Proof.
  induction k as [|k IH]; intros v Hv.
  - simpl in *. unfold from_bytes. simpl. lia.
  - cbn [be_digits]. rewrite from_bytes_snoc, IH.
    + Z.div_mod_to_equations. lia.
    + rewrite Nat2Z.inj_succ, Z.pow_succ_r in Hv by lia.
      Z.div_mod_to_equations. nia.
Qed.

Lemma to_bytes_ok (k : nat) (v : Z) :
  0 <= v < 256 ^ Z.of_nat k -> to_bytes k v = Ok (be_digits k v).
Proof.
  intros [H1 H2]. unfold to_bytes.
  by rewrite (proj2 (Z.leb_le _ _)), (proj2 (Z.ltb_lt _ _)).
Qed.

Lemma bytearray_append_ok (out : list Z) (b : Z) :
  is_byte b -> bytearray_append out b = Ok (out ++ [b]).
Proof.
  intros [H1 H2]. unfold bytearray_append.
  by rewrite (proj2 (Z.leb_le _ _)), (proj2 (Z.ltb_lt _ _)).
Qed.

Lemma freq_bytes_length (fr : list Z) :
  len (freq_bytes fr) = 4 * len fr.
Proof.
  unfold len. induction fr as [|f fr IH]; [done|].
  change (freq_bytes (f :: fr)) with (be_digits 4 f ++ freq_bytes fr).
  rewrite length_app, be_digits_length. simpl length. lia.
Qed.

Lemma freq_to_bytes_ok (fr : list Z) : forall header,
  Forall (fun f => 0 <= f < 2 ^ 32) fr ->
  freq_to_bytes header fr = Ok (header ++ freq_bytes fr).
Proof.
  induction fr as [|f fr IH]; intros header Hfr.
  - unfold freq_to_bytes, freq_bytes. simpl. by rewrite app_nil_r.
  - apply Forall_cons in Hfr as [Hf Hfr]. unfold freq_to_bytes in *.
    cbn [foldM]. rewrite to_bytes_ok by (change (Z.of_nat 4) with 4; lia).
    cbn [mbind result_bind]. rewrite IH by done.
    change (freq_bytes (f :: fr)) with (be_digits 4 f ++ freq_bytes fr).
    by rewrite <- app_assoc.
Qed.

Lemma slice_at {A} (pre x post : list A) (i j : Z) :
  i = len pre -> j = i + len x -> slice (pre ++ x ++ post) i j = x.
Proof. intros -> ->. apply slice_prefix. Qed.

Lemma get_item_at (pre post : list Z) (x i : Z) :
  i = len pre -> get_item (pre ++ x :: post) i = Ok x.
Proof.
  intros ->. unfold get_item, len.
  rewrite (proj2 (Z.ltb_ge _ _)) by lia.
  by rewrite Nat2Z.id, list_lookup_middle.
Qed.

Lemma read_freq_at (fr : list Z) : forall pre post acc idx,
  Forall (fun f => 0 <= f < 2 ^ 32) fr ->
  idx = len pre ->
  read_freq (length fr) (pre ++ freq_bytes fr ++ post) idx acc
  = (acc ++ fr, idx + 4 * len fr).
Proof.
  induction fr as [|f fr IH]; intros pre post acc idx Hfr Hidx.
  - simpl. rewrite app_nil_r. f_equal. unfold len. simpl. lia.
  - apply Forall_cons in Hfr as [Hf Hfr].
    change (freq_bytes (f :: fr)) with (be_digits 4 f ++ freq_bytes fr).
    cbn [length read_freq]. rewrite <- (app_assoc (be_digits 4 f)).
    rewrite (slice_at pre (be_digits 4 f))
      by (done || (unfold len at 1; rewrite be_digits_length; lia)).
    rewrite from_bytes_be_digits by (change (Z.of_nat 4) with 4; lia).
    rewrite (app_assoc pre (be_digits 4 f)).
    rewrite IH by (done || (rewrite len_app; unfold len at 2;
                           rewrite be_digits_length; lia)).
    rewrite <- app_assoc. f_equal. unfold len. simpl length. lia.
Qed.

Lemma bind_Ok_inv {A B} (m : result A) (k : A -> result B) (y : B) :
  (x ← m; k x) = Ok y -> exists x, m = Ok x /\ k x = Ok y.
Proof. destruct m as [x|e]; [by exists x|done]. Qed.

Lemma to_bytes_inv (k : nat) (v : Z) (bs : list Z) :
  to_bytes k v = Ok bs -> 0 <= v < 256 ^ Z.of_nat k /\ bs = be_digits k v.
Proof.
  unfold to_bytes. destruct (0 <=? v) eqn:H1; [|done].
  destruct (v <? 256 ^ Z.of_nat k) eqn:H2; [|done]. simpl.
  intros [= <-]. split; [lia|done].
Qed.

Lemma bytearray_append_inv (out : list Z) (b : Z) (out' : list Z) :
  bytearray_append out b = Ok out' -> is_byte b /\ out' = out ++ [b].
Proof.
  unfold bytearray_append, is_byte. destruct (0 <=? b) eqn:H1; [|done].
  destruct (b <? 256) eqn:H2; [|done]. simpl. intros [= <-]. split; [lia|done].
Qed.

Lemma freq_to_bytes_inv (fr : list Z) : forall header h,
  freq_to_bytes header fr = Ok h -> Forall (fun f => 0 <= f < 2 ^ 32) fr.
Proof.
  unfold freq_to_bytes.
  induction fr as [|f fr IH]; intros header h Hh; [constructor|].
  cbn [foldM] in Hh. apply bind_Ok_inv in Hh as (h1 & Hh1 & Hh).
  apply bind_Ok_inv in Hh1 as (bs & Hbs & _).
  apply to_bytes_inv in Hbs as [Hf _]. change (Z.of_nat 4) with 4 in Hf.
  constructor; [lia|]. by eapply IH.
Qed.

(** ** Format 1 *)

Lemma freq_table_fields (data : list Z) :
  len data < 2 ^ 32 ->
  Forall (fun f => 0 <= f < 2 ^ 32) (build_freq_table data).
Proof.
  intros Hlen. apply Forall_forall. intros f Hf%build_freq_table_bound. lia.
Qed.

Lemma compress_bytes_v1_container (data : list Z) (lastbits : Z) (bitstream : list Z) :
  huffman_compress_core data = Ok (build_freq_table data, lastbits, bitstream) ->
  is_byte lastbits -> len data < 2 ^ 64 ->
  Forall (fun f => 0 <= f < 2 ^ 32) (build_freq_table data) ->
  compress_bytes_v1 data
  = Ok (container_v1 (len data) (build_freq_table data) lastbits bitstream).
Proof.
  intros Hc Hlast Hlen Hfr. pose proof (len_nonneg data).
  unfold compress_bytes_v1. rewrite Hc. cbn [mbind result_bind].
  rewrite to_bytes_ok by field_range. cbn [mbind result_bind].
  rewrite freq_to_bytes_ok by done. cbn [mbind result_bind].
  rewrite bytearray_append_ok by done.
  cbn [mbind result_bind]. f_equal. unfold container_v1. reassoc.
Qed.

Lemma compress_bytes_v1_inv (data : list Z) (lastbits : Z) (bitstream comp : list Z) :
  huffman_compress_core data = Ok (build_freq_table data, lastbits, bitstream) ->
  compress_bytes_v1 data = Ok comp ->
  len data < 2 ^ 64 /\ Forall (fun f => 0 <= f < 2 ^ 32) (build_freq_table data).
Proof.
  intros Hc Hcomp. unfold compress_bytes_v1 in Hcomp. rewrite Hc in Hcomp.
  cbn [mbind result_bind] in Hcomp.
  apply bind_Ok_inv in Hcomp as (nb & Hnb & Hcomp).
  apply to_bytes_inv in Hnb as [Hn _]. change (Z.of_nat 8) with 8 in Hn.
  apply bind_Ok_inv in Hcomp as (h & Hh & _).
  apply freq_to_bytes_inv in Hh. split; [lia|done].
Qed.

Lemma decompress_container_v1 (N : Z) (fr : list Z) (lastbits : Z)
  (bitstream : list Z) :
  0 <= N < 2 ^ 64 -> length fr = 256%nat ->
  Forall (fun f => 0 <= f < 2 ^ 32) fr ->
  decompress_bytes_v1 (container_v1 N fr lastbits bitstream)
  = huffman_decompress_core fr bitstream N lastbits.
Proof.
  intros HN Hfrlen Hfr.
  set (nb := be_digits 8 N).
  set (comp := container_v1 N fr lastbits bitstream).
  assert (Hfl : len fr = 256) by (unfold len; lia).
  assert (Hnb : len nb = 8) by (subst nb; unfold len; by rewrite be_digits_length).
  assert (Hmg : len MAGIC = 3) by done.
  pose proof (len_nonneg bitstream).
  assert (Hclen : len comp = 1037 + len bitstream).
  { subst comp. unfold container_v1. fold nb.
    rewrite !len_app, freq_bytes_length, !len_singleton. lia. }
  assert (E1 : slice comp 0 3 = MAGIC).
  { apply (slice_at [] MAGIC); done. }
  assert (E2 : get_item comp 3 = Ok VERSION_STEP1).
  { apply (get_item_at MAGIC); done. }
  assert (E3 : slice comp 4 12 = nb).
  { replace comp with ((MAGIC ++ [VERSION_STEP1]) ++ nb
                        ++ freq_bytes fr ++ [lastbits] ++ bitstream)
      by (subst comp; unfold container_v1; reassoc).
    apply slice_at; [done|lia]. }
  assert (E4 : read_freq 256 comp 12 [] = (fr, 1036)).
  { replace comp with ((MAGIC ++ [VERSION_STEP1] ++ nb) ++ freq_bytes fr
                        ++ [lastbits] ++ bitstream)
      by (subst comp; unfold container_v1; reassoc).
    rewrite <- Hfrlen at 1. rewrite read_freq_at; [|done|].
    - rewrite Hfl. done.
    - rewrite !len_app, len_singleton. lia. }
  assert (E5 : get_item comp 1036 = Ok lastbits).
  { replace comp with ((MAGIC ++ [VERSION_STEP1] ++ nb ++ freq_bytes fr)
                        ++ lastbits :: bitstream)
      by (subst comp; unfold container_v1; reassoc).
    apply get_item_at. rewrite !len_app, freq_bytes_length, len_singleton. lia. }
  assert (E6 : slice comp 1037 (len comp) = bitstream).
  { replace comp with ((MAGIC ++ [VERSION_STEP1] ++ nb ++ freq_bytes fr ++ [lastbits])
                        ++ bitstream) at 1 2
      by (subst comp; unfold container_v1; reassoc).
    replace 1037 with (len (MAGIC ++ [VERSION_STEP1] ++ nb ++ freq_bytes fr ++ [lastbits])).
    - apply slice_suffix.
    - rewrite !len_app, freq_bytes_length, !len_singleton. lia. }
  unfold decompress_bytes_v1. cbv zeta.
  change (3 + 1 + 8 + 256 * 4 + 1) with 1037.
  rewrite (proj2 (Z.ltb_ge _ _)) by lia.
  change (0 + 3) with 3. rewrite E1. rewrite bool_decide_eq_true_2 by done.
  cbn [negb]. rewrite E2. cbn [mbind result_bind].
  change (3 + 1) with 4. change (4 + 8) with 12. rewrite E3.
  change (negb (VERSION_STEP1 =? VERSION_STEP1)) with false. cbv iota.
  rewrite E4. change (1036 + 1) with 1037. rewrite E5. cbn [mbind result_bind].
  rewrite E6. subst nb. by rewrite from_bytes_be_digits by field_range.
Qed.

(** format 1: whatever [compress_bytes_v1] returns decompresses to the input *)
Lemma compress_bytes_v1_roundtrip (data comp : list Z) :
  is_bytes data -> compress_bytes_v1 data = Ok comp ->
  decompress_bytes_v1 comp = Ok data.
Proof.
  intros Hbytes Hcomp.
  destruct (huffman_core_roundtrip data Hbytes)
    as (lastbits & bitstream & Hc & Hlast & _ & Hd).
  destruct (compress_bytes_v1_inv data lastbits bitstream comp Hc Hcomp)
    as [Hlen Hfr].
  rewrite (compress_bytes_v1_container data lastbits bitstream) in Hcomp
    by (done || (unfold is_byte; lia)).
  injection Hcomp as <-. pose proof (len_nonneg data).
  rewrite decompress_container_v1; [done|lia| |done].
  apply build_freq_table_length.
Qed.

(** format 1 accepts every input shorter than 2^32 bytes *)
Lemma compress_bytes_v1_ok (data : list Z) :
  is_bytes data -> len data < 2 ^ 32 -> exists comp, compress_bytes_v1 data = Ok comp.
Proof.
  intros Hbytes Hlen.
  destruct (huffman_core_roundtrip data Hbytes)
    as (lastbits & bitstream & Hc & Hlast & _ & Hd).
  eexists. apply (compress_bytes_v1_container data lastbits bitstream);
    [done|unfold is_byte; lia|lia|by apply freq_table_fields].
Qed.

(** ** Format 2 *)

Lemma split_fold_spec (data : list Z) : forall mask vowels cons_,
  fold_left split_step data (mask, vowels, cons_)
  = (mask ++ (split_spec data).1.1, vowels ++ (split_spec data).1.2,
     cons_ ++ (split_spec data).2).
Proof.
  induction data as [|b data IH]; intros mask vowels cons_.
  - simpl. by rewrite !app_nil_r.
  - cbn [fold_left split_step split_spec].
    destruct (split_spec data) as [[m v] c]. simpl in IH.
    destruct (bool_decide (b ∈ VOWELS)); [|destruct (isalpha b)];
      rewrite IH; simpl; by rewrite <- ?app_assoc.
Qed.

Lemma split_streams_v2_spec (data : list Z) :
  split_streams_v2 data = split_spec data.
Proof.
  unfold split_streams_v2. rewrite split_fold_spec.
  by destruct (split_spec data) as [[m v] c].
Qed.

Lemma split_spec_bytes (data : list Z) :
  is_bytes data ->
  is_bytes (split_spec data).1.1 /\ is_bytes (split_spec data).1.2 /\
  is_bytes (split_spec data).2.
Proof.
  induction 1 as [|b data Hb _ IH]; [by repeat constructor|].
  cbn [split_spec]. destruct (split_spec data) as [[m v] c]. simpl in IH.
  destruct IH as (Hm & Hv & Hc).
  destruct (bool_decide (b ∈ VOWELS)); [|destruct (isalpha b)]; simpl;
    repeat split; try done; constructor; try done; by vm_compute.
Qed.

Lemma merge_split_spec (data : list Z) : forall vpre cpre vpost cpost out,
  foldM (merge_step (vpre ++ (split_spec data).1.2 ++ vpost)
                    (cpre ++ (split_spec data).2 ++ cpost))
        (split_spec data).1.1 (out, len vpre, len cpre)
  = Ok (out ++ data, len vpre + len (split_spec data).1.2,
        len cpre + len (split_spec data).2).
Proof.
  induction data as [|b data IH]; intros vpre cpre vpost cpost out.
  - simpl. rewrite app_nil_r. unfold len. simpl. do 3 f_equal; lia.
  - cbn [split_spec]. destruct (split_spec data) as [[m v] c]. simpl in IH.
    destruct (bool_decide (b ∈ VOWELS)); [|destruct (isalpha b)];
      cbn [fst snd foldM merge_step app].
    + rewrite Z.eqb_refl. rewrite get_item_at by done. cbn [mbind result_bind].
      specialize (IH (vpre ++ [b]) cpre vpost cpost (out ++ [b])).
      rewrite <- !app_assoc in IH. simpl in IH.
      replace (len (vpre ++ [b])) with (len vpre + 1) in IH
        by (rewrite len_app; done).
      rewrite IH. f_equal. rewrite !pair_equal_spec.
      split_and!; try done; unfold len; simpl length; lia.
    + change (ord "C" =? ord "V") with false. cbv iota.
      rewrite get_item_at by done. cbn [mbind result_bind].
      specialize (IH vpre (cpre ++ [b]) vpost cpost (out ++ [b])).
      rewrite <- !app_assoc in IH. simpl in IH.
      replace (len (cpre ++ [b])) with (len cpre + 1) in IH
        by (rewrite len_app; done).
      rewrite IH. f_equal. rewrite !pair_equal_spec.
      split_and!; try done; unfold len; simpl length; lia.
    + change (ord "O" =? ord "V") with false. cbv iota.
      rewrite get_item_at by done. cbn [mbind result_bind].
      specialize (IH vpre (cpre ++ [b]) vpost cpost (out ++ [b])).
      rewrite <- !app_assoc in IH. simpl in IH.
      replace (len (cpre ++ [b])) with (len cpre + 1) in IH
        by (rewrite len_app; done).
      rewrite IH. f_equal. rewrite !pair_equal_spec.
      split_and!; try done; unfold len; simpl length; lia.
Qed.

(** merging the three streams of an input gives the input back *)
Lemma merge_split_streams (data : list Z) :
  let '(mask, vowels, cons_) := split_streams_v2 data in
  merge_streams_v2 mask vowels cons_ = Ok data.
Proof.
  rewrite split_streams_v2_spec.
  pose proof (merge_split_spec data [] [] [] [] []) as H. revert H.
  destruct (split_spec data) as [[m v] c]. simpl. rewrite !app_nil_r.
  intros H. unfold merge_streams_v2. change 0 with (@len Z []) at 1 2.
  by rewrite H.
Qed.

Lemma stream_fields_length (fr : list Z) (last : Z) (bs : list Z) :
  length fr = 256%nat -> len (stream_fields fr last bs) = 1033.
Proof.
  intros Hfr. unfold stream_fields. rewrite !len_app, freq_bytes_length.
  unfold len. rewrite be_digits_length, Hfr. simpl length. lia.
Qed.

Lemma stream_header_ok (header fr : list Z) (last : Z) (bs : list Z) :
  Forall (fun f => 0 <= f < 2 ^ 32) fr -> is_byte last -> len bs < 2 ^ 64 ->
  stream_header header fr last bs = Ok (header ++ stream_fields fr last bs).
Proof.
  intros Hfr Hlast Hbs. unfold stream_header, stream_fields.
  rewrite freq_to_bytes_ok by done. cbn [mbind result_bind].
  rewrite bytearray_append_ok by done. cbn [mbind result_bind].
  pose proof (len_nonneg bs).
  rewrite to_bytes_ok by field_range. cbn [mbind result_bind].
  f_equal. reassoc.
Qed.

Lemma read_stream_header_at (pre post fr : list Z) (last : Z) (bs : list Z)
  (idx : Z) :
  Forall (fun f => 0 <= f < 2 ^ 32) fr -> length fr = 256%nat ->
  len bs < 2 ^ 64 -> idx = len pre ->
  read_stream_header (pre ++ stream_fields fr last bs ++ post) idx
  = Ok (fr, last, len bs, idx + 1033).
Proof.
  intros Hfr Hlen Hbs Hidx. unfold read_stream_header, stream_fields.
  assert (Hfl : len fr = 256) by (unfold len; lia).
  rewrite <- !app_assoc. rewrite <- Hlen at 1.
  rewrite read_freq_at by done. rewrite app_nil_l, Hfl.
  rewrite (app_assoc pre (freq_bytes fr)).
  rewrite (get_item_at (pre ++ freq_bytes fr) (be_digits 8 (len bs) ++ post) last)
    by (rewrite len_app, freq_bytes_length; lia).
  cbn [mbind result_bind].
  replace ((pre ++ freq_bytes fr) ++ [last] ++ be_digits 8 (len bs) ++ post)
    with ((pre ++ freq_bytes fr ++ [last]) ++ be_digits 8 (len bs) ++ post)
    by reassoc.
  rewrite (slice_at (pre ++ freq_bytes fr ++ [last]) (be_digits 8 (len bs)) post).
  - pose proof (len_nonneg bs).
    rewrite from_bytes_be_digits by field_range. do 2 f_equal. lia.
  - rewrite !len_app, freq_bytes_length. unfold len at 3. simpl length. lia.
  - unfold len at 1. rewrite be_digits_length. lia.
Qed.

Lemma stream_header_inv (header fr : list Z) (last : Z) (bs h : list Z) :
  stream_header header fr last bs = Ok h ->
  Forall (fun f => 0 <= f < 2 ^ 32) fr /\ len bs < 2 ^ 64.
Proof.
  unfold stream_header. intros Hh.
  apply bind_Ok_inv in Hh as (h1 & Hh1 & Hh). apply freq_to_bytes_inv in Hh1.
  apply bind_Ok_inv in Hh as (h2 & _ & Hh).
  apply bind_Ok_inv in Hh as (sz & Hsz & _).
  apply to_bytes_inv in Hsz as [Hsz _]. change (Z.of_nat 8) with 8 in Hsz.
  split; [done|lia].
Qed.

Section format2.

Variables (data mask vowels cons_ : list Z).

Variables (last_m last_v last_c : Z) (bs_m bs_v bs_c : list Z).

Hypothesis Hsplit : split_streams_v2 data = (mask, vowels, cons_).

Hypothesis Hcm :
  huffman_compress_core mask = Ok (build_freq_table mask, last_m, bs_m).

Hypothesis Hcv :
  huffman_compress_core vowels = Ok (build_freq_table vowels, last_v, bs_v).

Hypothesis Hcc :
  huffman_compress_core cons_ = Ok (build_freq_table cons_, last_c, bs_c).

Hypothesis Hlast : is_byte last_m /\ is_byte last_v /\ is_byte last_c.

Lemma split_lens : len mask = len data /\ len vowels + len cons_ = len data.
Proof using Hsplit.
  pose proof (split_streams_lengths data) as H. rewrite Hsplit in H.
  simpl in H. unfold len. lia.
Qed.

Lemma compress_bytes_v2_container :
  v2_fields_fit data mask vowels cons_ bs_m bs_v bs_c ->
  compress_bytes_v2 data
  = Ok (container_v2 (len data) (len vowels) (len cons_)
          (build_freq_table mask) last_m bs_m
          (build_freq_table vowels) last_v bs_v
          (build_freq_table cons_) last_c bs_c).
Proof using Hsplit Hcm Hcv Hcc Hlast.
  intros (Hn & [Hfm Hsm] & [Hfv Hsv] & [Hfc Hsc]).
  destruct Hlast as (Hlm & Hlv & Hlc). destruct split_lens as [Hl1 Hl2].
  pose proof (len_nonneg data). pose proof (len_nonneg vowels).
  pose proof (len_nonneg cons_).
  unfold compress_bytes_v2. rewrite Hsplit, Hcm. cbn [mbind result_bind].
  rewrite Hcv. cbn [mbind result_bind]. rewrite Hcc. cbn [mbind result_bind].
  rewrite !to_bytes_ok by field_range. cbn [mbind result_bind].
  do 3 (rewrite stream_header_ok by done; cbn [mbind result_bind]).
  f_equal. unfold container_v2. reassoc.
Qed.

Lemma compress_bytes_v2_inv (comp : list Z) :
  compress_bytes_v2 data = Ok comp ->
  v2_fields_fit data mask vowels cons_ bs_m bs_v bs_c.
Proof using Hsplit Hcm Hcv Hcc Hlast.
  unfold compress_bytes_v2. rewrite Hsplit, Hcm. cbn [mbind result_bind].
  rewrite Hcv. cbn [mbind result_bind]. rewrite Hcc. cbn [mbind result_bind].
  intros Hcomp.
  apply bind_Ok_inv in Hcomp as (nb & Hnb & Hcomp).
  apply to_bytes_inv in Hnb as [Hn _]. change (Z.of_nat 8) with 8 in Hn.
  apply bind_Ok_inv in Hcomp as (lv & _ & Hcomp).
  apply bind_Ok_inv in Hcomp as (lc & _ & Hcomp).
  apply bind_Ok_inv in Hcomp as (h1 & Hh1%stream_header_inv & Hcomp).
  apply bind_Ok_inv in Hcomp as (h2 & Hh2%stream_header_inv & Hcomp).
  apply bind_Ok_inv in Hcomp as (h3 & Hh3%stream_header_inv & Hcomp).
  repeat split; (lia || tauto).
Qed.

End format2.

Lemma decompress_container_v2 (N len_v len_c : Z)
  (fm : list Z) (last_m : Z) (bs_m : list Z)
  (fv : list Z) (last_v : Z) (bs_v : list Z)
  (fc : list Z) (last_c : Z) (bs_c : list Z) :
  0 <= N < 2 ^ 64 -> 0 <= len_v < 2 ^ 64 -> 0 <= len_c < 2 ^ 64 ->
  length fm = 256%nat -> length fv = 256%nat -> length fc = 256%nat ->
  Forall (fun f => 0 <= f < 2 ^ 32) fm -> len bs_m < 2 ^ 64 ->
  Forall (fun f => 0 <= f < 2 ^ 32) fv -> len bs_v < 2 ^ 64 ->
  Forall (fun f => 0 <= f < 2 ^ 32) fc -> len bs_c < 2 ^ 64 ->
  decompress_bytes_v2
    (container_v2 N len_v len_c fm last_m bs_m fv last_v bs_v fc last_c bs_c)
  = (mask ← huffman_decompress_core fm bs_m N last_m;
     vowels ← huffman_decompress_core fv bs_v len_v last_v;
     cons_ ← huffman_decompress_core fc bs_c len_c last_c;
     merge_streams_v2 mask vowels cons_).
Proof.
  intros HN Hlenv Hlenc Hflm Hflv Hflc Hfm Hszm Hfv Hszv Hfc Hszc.
  pose proof (len_nonneg bs_m). pose proof (len_nonneg bs_v).
  pose proof (len_nonneg bs_c).
  set (sm := stream_fields fm last_m bs_m).
  set (sv := stream_fields fv last_v bs_v).
  set (sc := stream_fields fc last_c bs_c).
  set (nb := be_digits 8 N).
  set (lv := be_digits 8 len_v).
  set (lc := be_digits 8 len_c).
  set (comp := container_v2 N len_v len_c fm last_m bs_m fv last_v bs_v
                 fc last_c bs_c).
  assert (Hcomp : comp = MAGIC ++ [VERSION_STEP2] ++ nb ++ lv ++ lc ++ sm ++ sv
                         ++ sc ++ bs_m ++ bs_v ++ bs_c) by done.
  assert (Hnb : len nb = 8) by (subst nb; unfold len; by rewrite be_digits_length).
  assert (Hlv : len lv = 8) by (subst lv; unfold len; by rewrite be_digits_length).
  assert (Hlc : len lc = 8) by (subst lc; unfold len; by rewrite be_digits_length).
  assert (Hsm : len sm = 1033) by by apply stream_fields_length.
  assert (Hsv : len sv = 1033) by by apply stream_fields_length.
  assert (Hsc : len sc = 1033) by by apply stream_fields_length.
  assert (Hmg : len MAGIC = 3) by done.
  assert (Fn : from_bytes nb = N)
    by (subst nb; apply from_bytes_be_digits; field_range).
  assert (Fv : from_bytes lv = len_v)
    by (subst lv; apply from_bytes_be_digits; field_range).
  assert (Fc : from_bytes lc = len_c)
    by (subst lc; apply from_bytes_be_digits; field_range).
  clearbody comp nb lv lc.
  assert (Hclen : len comp = 3127 + len bs_m + len bs_v + len bs_c).
  { subst comp. rewrite !len_app, Hnb, Hlv, Hlc, Hsm, Hsv, Hsc, Hmg, len_singleton.
    lia. }
  assert (E1 : slice comp 0 3 = MAGIC).
  { subst comp. apply (slice_at [] MAGIC); done. }
  assert (E2 : get_item comp 3 = Ok VERSION_STEP2).
  { subst comp. apply (get_item_at MAGIC); done. }
  assert (E3 : slice comp 4 12 = nb).
  { replace comp with ((MAGIC ++ [VERSION_STEP2]) ++ nb ++ lv ++ lc ++ sm ++ sv
                        ++ sc ++ bs_m ++ bs_v ++ bs_c)
      by (subst comp; reassoc).
    apply slice_at; [done|lia]. }
  assert (E4 : slice comp 12 20 = lv).
  { replace comp with ((MAGIC ++ [VERSION_STEP2] ++ nb) ++ lv ++ lc ++ sm ++ sv
                        ++ sc ++ bs_m ++ bs_v ++ bs_c)
      by (subst comp; reassoc).
    apply slice_at; [rewrite !len_app, len_singleton|]; lia. }
  assert (E5 : slice comp 20 28 = lc).
  { replace comp with ((MAGIC ++ [VERSION_STEP2] ++ nb ++ lv) ++ lc ++ sm ++ sv
                        ++ sc ++ bs_m ++ bs_v ++ bs_c)
      by (subst comp; reassoc).
    apply slice_at; [rewrite !len_app, len_singleton|]; lia. }
  assert (E6 : read_stream_header comp 28 = Ok (fm, last_m, len bs_m, 1061)).
  { replace comp with ((MAGIC ++ [VERSION_STEP2] ++ nb ++ lv ++ lc) ++ sm
                        ++ (sv ++ sc ++ bs_m ++ bs_v ++ bs_c))
      by (subst comp; reassoc).
    subst sm. rewrite read_stream_header_at; [done|done|done|lia|].
    rewrite !len_app, len_singleton. lia. }
  assert (E7 : read_stream_header comp 1061 = Ok (fv, last_v, len bs_v, 2094)).
  { replace comp with ((MAGIC ++ [VERSION_STEP2] ++ nb ++ lv ++ lc ++ sm) ++ sv
                        ++ (sc ++ bs_m ++ bs_v ++ bs_c))
      by (subst comp; reassoc).
    subst sv. rewrite read_stream_header_at; [done|done|done|lia|].
    rewrite !len_app, len_singleton. lia. }
  assert (E8 : read_stream_header comp 2094 = Ok (fc, last_c, len bs_c, 3127)).
  { replace comp with ((MAGIC ++ [VERSION_STEP2] ++ nb ++ lv ++ lc ++ sm ++ sv)
                        ++ sc ++ (bs_m ++ bs_v ++ bs_c))
      by (subst comp; reassoc).
    subst sc. rewrite read_stream_header_at; [done|done|done|lia|].
    rewrite !len_app, len_singleton. lia. }
  assert (E9 : slice comp 3127 (3127 + len bs_m) = bs_m).
  { replace comp with ((MAGIC ++ [VERSION_STEP2] ++ nb ++ lv ++ lc ++ sm ++ sv ++ sc)
                        ++ bs_m ++ (bs_v ++ bs_c))
      by (subst comp; reassoc).
    apply slice_at; [rewrite !len_app, len_singleton|]; lia. }
  assert (E10 : slice comp (3127 + len bs_m) (3127 + len bs_m + len bs_v) = bs_v).
  { replace comp with ((MAGIC ++ [VERSION_STEP2] ++ nb ++ lv ++ lc ++ sm ++ sv ++ sc
                         ++ bs_m) ++ bs_v ++ bs_c)
      by (subst comp; reassoc).
    apply slice_at; [rewrite !len_app, len_singleton|]; lia. }
  assert (E11 : slice comp (3127 + len bs_m + len bs_v)
                  (3127 + len bs_m + len bs_v + len bs_c) = bs_c).
  { replace comp with ((MAGIC ++ [VERSION_STEP2] ++ nb ++ lv ++ lc ++ sm ++ sv ++ sc
                         ++ bs_m ++ bs_v) ++ bs_c ++ [])
      by (subst comp; rewrite app_nil_r; reassoc).
    apply slice_at; [rewrite !len_app, len_singleton|]; lia. }
  clear Hcomp.
  unfold decompress_bytes_v2. cbv zeta.
  change (3 + 1 + 8 + 8 + 8) with 28.
  rewrite (proj2 (Z.ltb_ge _ _)) by lia.
  change (0 + 3) with 3. rewrite E1. rewrite bool_decide_eq_true_2 by done.
  cbn [negb]. rewrite E2. cbn [mbind result_bind].
  change (negb (VERSION_STEP2 =? VERSION_STEP2)) with false. cbv iota.
  change (3 + 1) with 4. change (4 + 8) with 12. change (12 + 8) with 20.
  change (20 + 8) with 28.
  rewrite E3, E4, E5, E6. cbn [mbind result_bind].
  rewrite E7. cbn [mbind result_bind]. rewrite E8. cbn [mbind result_bind].
  by rewrite E9, E10, E11, Fn, Fv, Fc.
Qed.

Lemma v2_streams (data : list Z) :
  is_bytes data ->
  exists mask vowels cons_ last_m bs_m last_v bs_v last_c bs_c,
    split_streams_v2 data = (mask, vowels, cons_) /\
    huffman_compress_core mask = Ok (build_freq_table mask, last_m, bs_m) /\
    huffman_compress_core vowels = Ok (build_freq_table vowels, last_v, bs_v) /\
    huffman_compress_core cons_ = Ok (build_freq_table cons_, last_c, bs_c) /\
    (is_byte last_m /\ is_byte last_v /\ is_byte last_c) /\
    (len bs_m <= 32 * len mask + 1 /\ len bs_v <= 32 * len vowels + 1 /\
     len bs_c <= 32 * len cons_ + 1) /\
    (mask ← huffman_decompress_core (build_freq_table mask) bs_m (len mask) last_m;
     vowels ← huffman_decompress_core (build_freq_table vowels) bs_v (len vowels) last_v;
     cons_ ← huffman_decompress_core (build_freq_table cons_) bs_c (len cons_) last_c;
     merge_streams_v2 mask vowels cons_) = Ok data.
Proof.
  intros Hbytes.
  pose proof (merge_split_streams data) as Hmerge.
  pose proof (split_spec_bytes data Hbytes) as Hsb.
  rewrite <- split_streams_v2_spec in Hsb.
  destruct (split_streams_v2 data) as [[mask vowels] cons_].
  simpl in Hsb. destruct Hsb as (Hbm & Hbv & Hbc).
  destruct (huffman_core_roundtrip mask Hbm)
    as (last_m & bs_m & Hcm & Hlastm & Hszm & Hdm).
  destruct (huffman_core_roundtrip vowels Hbv)
    as (last_v & bs_v & Hcv & Hlastv & Hszv & Hdv).
  destruct (huffman_core_roundtrip cons_ Hbc)
    as (last_c & bs_c & Hcc & Hlastc & Hszc & Hdc).
  exists mask, vowels, cons_, last_m, bs_m, last_v, bs_v, last_c, bs_c.
  split_and!; try done; try (unfold is_byte; lia).
  rewrite Hdm, Hdv, Hdc. exact Hmerge.
Qed.

(** format 2: whatever [compress_bytes_v2] returns decompresses to the input *)
Lemma compress_bytes_v2_roundtrip (data comp : list Z) :
  is_bytes data -> compress_bytes_v2 data = Ok comp ->
  decompress_bytes_v2 comp = Ok data.
Proof.
  intros Hbytes Hcomp.
  destruct (v2_streams data Hbytes)
    as (mask & vowels & cons_ & last_m & bs_m & last_v & bs_v & last_c & bs_c
        & Hsplit & Hcm & Hcv & Hcc & Hlast & _ & Hdec).
  pose proof (compress_bytes_v2_inv _ _ _ _ _ _ _ _ _ _ Hsplit Hcm Hcv Hcc Hlast
                comp Hcomp) as Hfit.
  rewrite (compress_bytes_v2_container _ _ _ _ _ _ _ _ _ _ Hsplit Hcm Hcv Hcc Hlast Hfit)
    in Hcomp.
  injection Hcomp as <-.
  destruct Hfit as (Hn & [Hfm Hsm] & [Hfv Hsv] & [Hfc Hsc]).
  destruct (split_lens _ _ _ _ Hsplit) as [Hl1 Hl2].
  pose proof (len_nonneg data). pose proof (len_nonneg vowels).
  pose proof (len_nonneg cons_).
  rewrite decompress_container_v2;
    try done; try apply build_freq_table_length; try lia.
  by rewrite <- Hl1.
Qed.

(** format 2 accepts every input shorter than 2^32 bytes *)
Lemma compress_bytes_v2_ok (data : list Z) :
  is_bytes data -> len data < 2 ^ 32 -> exists comp, compress_bytes_v2 data = Ok comp.
Proof.
  intros Hbytes Hlen.
  destruct (v2_streams data Hbytes)
    as (mask & vowels & cons_ & last_m & bs_m & last_v & bs_v & last_c & bs_c
        & Hsplit & Hcm & Hcv & Hcc & Hlast & (Hszm & Hszv & Hszc) & _).
  destruct (split_lens _ _ _ _ Hsplit) as [Hl1 Hl2].
  pose proof (len_nonneg data). pose proof (len_nonneg vowels).
  pose proof (len_nonneg cons_).
  eexists.
  apply (compress_bytes_v2_container _ _ _ _ _ _ _ _ _ _ Hsplit Hcm Hcv Hcc Hlast).
  unfold v2_fields_fit. split_and!; try lia; apply freq_table_fields; lia.
Qed.

(** ** Formats 3 and 4: the vocabulary *)

Lemma indexed_cons (k : nat) (tok : list Z) (vl : list (list Z)) :
  indexed k (tok :: vl) = (tok, Z.of_nat k) :: indexed (S k) vl.
Proof.
  unfold indexed. rewrite imap_cons. f_equal; [by rewrite Nat.add_0_r|].
  apply imap_ext. intros i y _. simpl. do 2 f_equal. lia.
Qed.

Lemma indexed_snoc (vl : list (list Z)) (tok : list Z) :
  indexed 0 vl ++ [(tok, len vl)] = indexed 0 (vl ++ [tok]).
Proof.
  unfold indexed. rewrite imap_app. f_equal. simpl.
  by rewrite Nat.add_0_r.
Qed.

Lemma dict_get_indexed_Some (vl : list (list Z)) : forall k tok id,
  dict_get (indexed k vl) tok = Some id ->
  exists i, id = Z.of_nat (k + i) /\ vl !! i = Some tok.
Proof.
  induction vl as [|t vl IH]; intros k tok id Hid; [done|].
  rewrite indexed_cons in Hid. cbn [dict_get] in Hid. case_bool_decide.
  - injection Hid as <-. subst t. exists 0%nat. by rewrite Nat.add_0_r.
  - apply IH in Hid as (i & -> & Hi). exists (S i). split; [f_equal; lia|done].
Qed.

Lemma dict_get_indexed_None (vl : list (list Z)) : forall k tok,
  dict_get (indexed k vl) tok = None -> tok ∉ vl.
Proof.
  induction vl as [|t vl IH]; intros k tok Hid; [by apply not_elem_of_nil|].
  rewrite indexed_cons in Hid. cbn [dict_get] in Hid. case_bool_decide; [done|].
  apply not_elem_of_cons. split; [done|by eapply IH].
Qed.

(** the state of the vocabulary loop: the dictionary indexes the list, which
    has no duplicates *)
Lemma build_vocab_fold (tokens : list (list Z)) : forall vl,
  NoDup vl ->
  exists vl',
    fold_left vocab_step tokens (indexed 0 vl, vl) = (indexed 0 vl', vl') /\
    NoDup vl' /\ (forall t, t ∈ vl' <-> t ∈ vl \/ t ∈ tokens).
Proof.
  induction tokens as [|tok tokens IH]; intros vl Hnd.
  - exists vl. split; [done|]. split; [done|]. intros t. rewrite elem_of_nil. tauto.
  - cbn [fold_left vocab_step].
    destruct (dict_get (indexed 0 vl) tok) as [id|] eqn:Hget.
    + destruct (IH vl Hnd) as (vl' & Hf & Hnd' & Hel).
      exists vl'. split; [done|]. split; [done|].
      intros t. rewrite Hel, elem_of_cons.
      apply dict_get_indexed_Some in Hget as (i & _ & Hi%list_elem_of_lookup_2).
      split; [tauto|]. intros [?|[->|?]]; tauto.
    + apply dict_get_indexed_None in Hget.
      rewrite indexed_snoc.
      destruct (IH (vl ++ [tok])) as (vl' & Hf & Hnd' & Hel).
      { apply NoDup_app. split; [done|]. split; [|apply NoDup_singleton].
        intros x Hx Hx'%list_elem_of_singleton. by subst. }
      exists vl'. split; [done|]. split; [done|].
      intros t. rewrite Hel, elem_of_app, list_elem_of_singleton, elem_of_cons. tauto.
Qed.

(** [build_vocab] returns the distinct tokens in order of first occurrence,
    and the dictionary of their positions *)
Lemma build_vocab_spec (tokens : list (list Z)) :
  exists vl,
    build_vocab tokens = (indexed 0 vl, vl) /\
    NoDup vl /\ (forall t, t ∈ vl <-> t ∈ tokens).
Proof.
  destruct (build_vocab_fold tokens []) as (vl & Hf & Hnd & Hel); [constructor|].
  exists vl. split; [done|]. split; [done|].
  intros t. rewrite Hel, elem_of_nil. tauto.
Qed.

(** the number of distinct tokens is the size of the vocabulary *)
Lemma build_vocab_distinct (tokens : list (list Z)) :
  length (build_vocab tokens).2 = length (remove_dups tokens).
Proof.
  destruct (build_vocab_spec tokens) as (vl & -> & Hnd & Hel). simpl.
  apply Permutation_length, NoDup_Permutation; [done|apply NoDup_remove_dups|].
  intros t. by rewrite Hel, elem_of_remove_dups.
Qed.

Lemma id_stream_ok (vl : list (list Z)) (tokens : list (list Z)) :
  len vl <= 256 -> (forall t, t ∈ tokens -> t ∈ vl) ->
  forall acc, exists ids,
    foldM (id_step (indexed 0 vl)) tokens acc = Ok (acc ++ ids) /\
    names vl tokens ids.
Proof.
  intros Hsize. induction tokens as [|tok tokens IH]; intros Hel acc.
  - exists []. split; [by rewrite app_nil_r|constructor].
  - destruct (dict_get (indexed 0 vl) tok) as [id|] eqn:Hget.
    + assert (Hstep : id_step (indexed 0 vl) acc tok = bytearray_append acc id)
        by (unfold id_step; by rewrite Hget).
      apply dict_get_indexed_Some in Hget as (i & -> & Hi). simpl Nat.add in *.
      apply lookup_lt_Some in Hi as Hlt.
      rewrite bytearray_append_ok in Hstep by (unfold is_byte, len in *; lia).
      cbn [foldM]. rewrite Hstep. cbn [mbind result_bind].
      destruct (IH (fun t Ht => Hel t (list_elem_of_further _ _ _ Ht))
                   (acc ++ [Z.of_nat i])) as (ids & -> & Hids).
      exists (Z.of_nat i :: ids). split; [by rewrite <- app_assoc|].
      constructor; [|done]. rewrite Nat2Z.id. split; [unfold len; lia|done].
    + apply dict_get_indexed_None in Hget. destruct Hget. apply Hel. by left.
Qed.

Lemma names_bytes (vl tokens : list (list Z)) (ids : list Z) :
  len vl <= 256 -> names vl tokens ids -> is_bytes ids /\ len ids = len tokens.
Proof.
  intros Hsize. induction 1 as [|tok id tokens ids [Hid _] _ [IH1 IH2]].
  - split; [constructor|done].
  - split; [constructor; [unfold is_byte; lia|done]|].
    unfold len in *. simpl length. lia.
Qed.

Lemma lookup_tokens_ok (vl tokens : list (list Z)) (ids : list Z) :
  names vl tokens ids ->
  forall out, foldM (lookup_token vl) ids out = Ok (out ++ concat tokens).
Proof.
  induction 1 as [|tok id tokens ids [_ Hid] _ IH]; intros out.
  - simpl. by rewrite app_nil_r.
  - assert (Hstep : lookup_token vl out id = Ok (out ++ tok))
      by (unfold lookup_token; by rewrite Hid).
    cbn [foldM]. rewrite Hstep. cbn [mbind result_bind].
    rewrite IH. simpl. by rewrite <- app_assoc.
Qed.

Lemma vocab_bytes_cons (tok : list Z) (vl : list (list Z)) :
  vocab_bytes (tok :: vl) = be_digits 2 (len tok) ++ tok ++ vocab_bytes vl.
Proof. unfold vocab_bytes. cbn [mbind list_bind]. by rewrite <- app_assoc. Qed.

Lemma vocab_entries_ok (vl : list (list Z)) : forall header,
  tokens_fit vl -> foldM vocab_entry vl header = Ok (header ++ vocab_bytes vl).
Proof.
  induction vl as [|tok vl IH]; intros header Hfit.
  - simpl. by rewrite app_nil_r.
  - apply Forall_cons in Hfit as [Htok Hfit]. pose proof (len_nonneg tok).
    assert (Hstep : vocab_entry header tok
                    = Ok (header ++ be_digits 2 (len tok) ++ tok)).
    { unfold vocab_entry. rewrite (proj2 (Z.ltb_ge _ _)) by lia.
      by rewrite to_bytes_ok by field_range. }
    cbn [foldM]. rewrite Hstep. cbn [mbind result_bind]. rewrite IH by done.
    rewrite vocab_bytes_cons. f_equal. reassoc.
Qed.

Lemma vocab_entries_inv (vl : list (list Z)) : forall header h,
  foldM vocab_entry vl header = Ok h -> tokens_fit vl.
Proof.
  induction vl as [|tok vl IH]; intros header h Hh; [constructor|].
  cbn [foldM] in Hh. apply bind_Ok_inv in Hh as (h1 & Hh1 & Hh).
  constructor; [|by eapply IH].
  unfold vocab_entry in Hh1. destruct (65535 <? len tok) eqn:Hlt; [done|lia].
Qed.

Lemma read_vocab_at (vl : list (list Z)) : forall pre post acc idx,
  tokens_fit vl -> idx = len pre ->
  read_vocab (length vl) (pre ++ vocab_bytes vl ++ post) idx acc
  = Ok (acc ++ vl, idx + len (vocab_bytes vl)).
Proof.
  induction vl as [|tok vl IH]; intros pre post acc idx Hfit Hidx.
  - simpl. rewrite app_nil_r. do 2 f_equal. unfold len. simpl. lia.
  - apply Forall_cons in Hfit as [Htok Hfit].
    pose proof (len_nonneg tok). pose proof (len_nonneg (vocab_bytes vl)).
    pose proof (len_nonneg post).
    rewrite vocab_bytes_cons. cbn [length read_vocab].
    set (lb := be_digits 2 (len tok)).
    assert (Hlb : len lb = 2) by (subst lb; unfold len; by rewrite be_digits_length).
    set (comp := pre ++ (lb ++ tok ++ vocab_bytes vl) ++ post).
    assert (Hclen : len comp = len pre + 2 + len tok + len (vocab_bytes vl) + len post).
    { subst comp. rewrite !len_app. lia. }
    assert (E1 : slice comp idx (idx + 2) = lb).
    { replace comp with (pre ++ lb ++ (tok ++ vocab_bytes vl ++ post))
        by (subst comp; reassoc).
      apply slice_at; [done|lia]. }
    assert (E2 : slice comp (idx + 2) (idx + 2 + len tok) = tok).
    { replace comp with ((pre ++ lb) ++ tok ++ (vocab_bytes vl ++ post))
        by (subst comp; reassoc).
      apply slice_at; [rewrite len_app; lia|done]. }
    rewrite (proj2 (Z.ltb_ge _ _)) by lia. rewrite E1.
    subst lb. rewrite from_bytes_be_digits by field_range.
    rewrite (proj2 (Z.ltb_ge _ _)) by lia. rewrite E2.
    replace comp with ((pre ++ be_digits 2 (len tok) ++ tok) ++ vocab_bytes vl ++ post)
      by (subst comp; reassoc).
    rewrite IH; [|done|rewrite !len_app; lia].
    rewrite <- app_assoc. do 2 f_equal. rewrite !len_app. lia.
Qed.

Lemma read_container_tokens (version N : Z) (vl : list (list Z)) (fr : list Z)
  (lastbits : Z) (bitstream : list Z) :
  0 <= N < 2 ^ 64 -> len vl < 2 ^ 16 -> tokens_fit vl ->
  length fr = 256%nat -> Forall (fun f => 0 <= f < 2 ^ 32) fr ->
  read_container version (container_tokens version N vl fr lastbits bitstream)
  = Ok (N, vl, fr, lastbits, bitstream).
Proof.
  intros HN Hvl Hfit Hfrlen Hfr.
  pose proof (len_nonneg vl). pose proof (len_nonneg bitstream).
  pose proof (len_nonneg (vocab_bytes vl)).
  set (nb := be_digits 8 N).
  set (vs := be_digits 2 (len vl)).
  set (vb := vocab_bytes vl) in *.
  set (comp := container_tokens version N vl fr lastbits bitstream).
  assert (Hcomp : comp = MAGIC ++ [version] ++ nb ++ vs ++ vb ++ freq_bytes fr
                         ++ [lastbits] ++ bitstream) by done.
  assert (Hfl : len fr = 256) by (unfold len; lia).
  assert (Hnb : len nb = 8) by (subst nb; unfold len; by rewrite be_digits_length).
  assert (Hvs : len vs = 2) by (subst vs; unfold len; by rewrite be_digits_length).
  assert (Hmg : len MAGIC = 3) by done.
  assert (Fn : from_bytes nb = N)
    by (subst nb; apply from_bytes_be_digits; field_range).
  assert (Fv : from_bytes vs = len vl)
    by (subst vs; apply from_bytes_be_digits; field_range).
  clearbody comp nb vs.
  assert (Hclen : len comp = 14 + len vb + 1025 + len bitstream).
  { subst comp. rewrite !len_app, freq_bytes_length, !len_singleton. lia. }
  assert (E1 : slice comp 0 3 = MAGIC).
  { subst comp. apply (slice_at [] MAGIC); done. }
  assert (E2 : get_item comp 3 = Ok version).
  { subst comp. apply (get_item_at MAGIC); done. }
  assert (E3 : slice comp 4 12 = nb).
  { replace comp with ((MAGIC ++ [version]) ++ nb ++ vs ++ vb ++ freq_bytes fr
                        ++ [lastbits] ++ bitstream)
      by (subst comp; reassoc).
    apply slice_at; [done|lia]. }
  assert (E4 : slice comp 12 14 = vs).
  { replace comp with ((MAGIC ++ [version] ++ nb) ++ vs ++ vb ++ freq_bytes fr
                        ++ [lastbits] ++ bitstream)
      by (subst comp; reassoc).
    apply slice_at; [rewrite !len_app, len_singleton|]; lia. }
  assert (E5 : read_vocab (length vl) comp 14 [] = Ok (vl, 14 + len vb)).
  { replace comp with ((MAGIC ++ [version] ++ nb ++ vs) ++ vb
                        ++ (freq_bytes fr ++ [lastbits] ++ bitstream))
      by (subst comp; reassoc).
    subst vb. rewrite read_vocab_at; [done|done|].
    rewrite !len_app, len_singleton. lia. }
  assert (E6 : read_freq 256 comp (14 + len vb) [] = (fr, 14 + len vb + 1024)).
  { replace comp with ((MAGIC ++ [version] ++ nb ++ vs ++ vb) ++ freq_bytes fr
                        ++ [lastbits] ++ bitstream)
      by (subst comp; reassoc).
    rewrite <- Hfrlen at 1. rewrite read_freq_at; [|done|].
    - rewrite Hfl. done.
    - rewrite !len_app, len_singleton. lia. }
  assert (E7 : get_item comp (14 + len vb + 1024) = Ok lastbits).
  { replace comp with ((MAGIC ++ [version] ++ nb ++ vs ++ vb ++ freq_bytes fr)
                        ++ lastbits :: bitstream)
      by (subst comp; reassoc).
    apply get_item_at. rewrite !len_app, freq_bytes_length, len_singleton. lia. }
  assert (E8 : slice comp (14 + len vb + 1024 + 1) (len comp) = bitstream).
  { replace comp with ((MAGIC ++ [version] ++ nb ++ vs ++ vb ++ freq_bytes fr
                         ++ [lastbits]) ++ bitstream) at 1 2
      by (subst comp; reassoc).
    replace (14 + len vb + 1024 + 1)
      with (len (MAGIC ++ [version] ++ nb ++ vs ++ vb ++ freq_bytes fr ++ [lastbits])).
    - apply slice_suffix.
    - rewrite !len_app, freq_bytes_length, !len_singleton. lia. }
  clear Hcomp.
  unfold read_container. cbv zeta.
  change (3 + 1 + 8 + 2) with 14.
  rewrite (proj2 (Z.ltb_ge _ _)) by lia.
  change (0 + 3) with 3. rewrite E1. rewrite bool_decide_eq_true_2 by done.
  cbn [negb]. rewrite E2. cbn [mbind result_bind].
  rewrite Z.eqb_refl. cbn [negb].
  change (3 + 1) with 4. change (4 + 8) with 12. change (12 + 2) with 14.
  rewrite E3, E4, Fn, Fv.
  replace (Z.to_nat (len vl)) with (length vl) by (unfold len; lia).
  rewrite E5. cbn [mbind result_bind].
  change (256 * 4) with 1024.
  rewrite (proj2 (Z.ltb_ge _ _)) by lia.
  rewrite E6, E7. cbn [mbind result_bind]. by rewrite E8.
Qed.

Section token_formats.

Variables (version : Z) (tokens vl : list (list Z)).

Variables (ids : list Z) (lastbits : Z) (bitstream : list Z).

Hypothesis Hvocab : build_vocab tokens = (indexed 0 vl, vl).

Hypothesis Hsize : len vl <= 256.

Hypothesis Hids : foldM (id_step (indexed 0 vl)) tokens [] = Ok ids.

Hypothesis Hcore :
  huffman_compress_core ids = Ok (build_freq_table ids, lastbits, bitstream).

Hypothesis Hlast : is_byte lastbits.

Lemma compress_tokens_container :
  token_fields_fit tokens vl ids ->
  compress_tokens version tokens
  = Ok (container_tokens version (len tokens) vl (build_freq_table ids)
          lastbits bitstream).
Proof using Hvocab Hsize Hids Hcore Hlast.
  intros (Hn & Hfit & Hfr).
  pose proof (len_nonneg tokens). pose proof (len_nonneg vl).
  unfold compress_tokens. rewrite Hvocab.
  rewrite (proj2 (Z.ltb_ge _ _)) by lia.
  rewrite Hids. cbn [mbind result_bind]. rewrite Hcore. cbn [mbind result_bind].
  rewrite !to_bytes_ok by field_range. cbn [mbind result_bind].
  rewrite vocab_entries_ok by done. cbn [mbind result_bind].
  rewrite freq_to_bytes_ok by done. cbn [mbind result_bind].
  rewrite bytearray_append_ok by done. cbn [mbind result_bind].
  f_equal. unfold container_tokens. reassoc.
Qed.

Lemma compress_tokens_inv (comp : list Z) :
  compress_tokens version tokens = Ok comp -> token_fields_fit tokens vl ids.
Proof using Hvocab Hsize Hids Hcore.
  pose proof (len_nonneg vl).
  unfold compress_tokens. rewrite Hvocab.
  rewrite (proj2 (Z.ltb_ge _ _)) by lia.
  rewrite Hids. cbn [mbind result_bind]. rewrite Hcore. cbn [mbind result_bind].
  intros Hcomp.
  apply bind_Ok_inv in Hcomp as (nb & Hnb & Hcomp).
  apply to_bytes_inv in Hnb as [Hn _]. change (Z.of_nat 8) with 8 in Hn.
  apply bind_Ok_inv in Hcomp as (vs & _ & Hcomp).
  apply bind_Ok_inv in Hcomp as (h1 & Hh1%vocab_entries_inv & Hcomp).
  apply bind_Ok_inv in Hcomp as (h2 & Hh2%freq_to_bytes_inv & Hcomp).
  repeat split; (lia || done).
Qed.

End token_formats.

(** what the token formats compute before the header is written *)
Lemma token_streams (tokens : list (list Z)) :
  len (build_vocab tokens).2 <= 256 ->
  exists vl ids lastbits bitstream,
    build_vocab tokens = (indexed 0 vl, vl) /\
    NoDup vl /\ (forall t, t ∈ vl <-> t ∈ tokens) /\
    foldM (id_step (indexed 0 vl)) tokens [] = Ok ids /\
    names vl tokens ids /\
    huffman_compress_core ids = Ok (build_freq_table ids, lastbits, bitstream) /\
    is_byte lastbits /\
    huffman_decompress_core (build_freq_table ids) bitstream (len tokens) lastbits
      = Ok ids.
Proof.
  intros Hsize. destruct (build_vocab_spec tokens) as (vl & Hv & Hnd & Hel).
  rewrite Hv in Hsize. simpl in Hsize.
  destruct (id_stream_ok vl tokens Hsize (fun t => proj2 (Hel t)) [])
    as (ids & Hids & Hnames).
  destruct (names_bytes vl tokens ids Hsize Hnames) as [Hbytes Hlen].
  destruct (huffman_core_roundtrip ids Hbytes)
    as (lastbits & bitstream & Hc & Hlast & _ & Hd).
  exists vl, ids, lastbits, bitstream.
  split_and!; try done; [unfold is_byte; lia|by rewrite <- Hlen].
Qed.

Lemma compress_tokens_overflow (version : Z) (tokens : list (list Z)) :
  256 < len (build_vocab tokens).2 ->
  compress_tokens version tokens
  = Raise (VocabTooLarge (len (build_vocab tokens).2)).
Proof.
  intros Hsize. unfold compress_tokens.
  destruct (build_vocab tokens) as [vocab vl]. simpl in *.
  by rewrite (proj2 (Z.ltb_lt _ _)).
Qed.

(** whatever [compress_tokens] returns is read back field by field, its id
    stream decodes to ids below the vocabulary size, and looking them up
    gives the tokens back *)
Lemma compress_tokens_decode (version : Z) (tokens : list (list Z)) (comp : list Z) :
  compress_tokens version tokens = Ok comp ->
  exists vl fr lastbits bitstream ids,
    read_container version comp = Ok (len tokens, vl, fr, lastbits, bitstream) /\
    huffman_decompress_core fr bitstream (len tokens) lastbits = Ok ids /\
    names vl tokens ids /\
    foldM (lookup_token vl) ids [] = Ok (concat tokens).
Proof.
  intros Hcomp.
  destruct (decide (256 < len (build_vocab tokens).2)) as [Hbig|Hsize].
  { by rewrite compress_tokens_overflow in Hcomp. }
  destruct (token_streams tokens ltac:(lia))
    as (vl & ids & lastbits & bitstream & Hv & Hnd & Hel & Hids & Hnames & Hc
        & Hlast & Hd).
  rewrite Hv in Hsize. simpl in Hsize.
  pose proof (compress_tokens_inv version tokens vl ids lastbits bitstream
                Hv ltac:(lia) Hids Hc comp Hcomp) as Hfit.
  rewrite (compress_tokens_container version tokens vl ids lastbits bitstream
             Hv ltac:(lia) Hids Hc Hlast Hfit) in Hcomp.
  injection Hcomp as <-. destruct Hfit as (Hn & Hfit & Hfr).
  pose proof (len_nonneg tokens).
  exists vl, (build_freq_table ids), lastbits, bitstream, ids.
  split_and!; try done.
  - apply read_container_tokens; try done; try lia.
    apply build_freq_table_length.
  - by apply (lookup_tokens_ok vl tokens ids Hnames []).
Qed.

Lemma compress_tokens_roundtrip (version : Z) (tokens : list (list Z)) (comp : list Z) :
  compress_tokens version tokens = Ok comp ->
  decompress_tokens version comp = Ok (concat tokens).
Proof.
  intros (vl & fr & lastbits & bitstream & ids & Hr & Hd & _ & Hl)%compress_tokens_decode.
  unfold decompress_tokens. rewrite Hr. cbn [mbind result_bind].
  rewrite Hd. exact Hl.
Qed.

Lemma compress_tokens_ok (version : Z) (tokens : list (list Z)) :
  len (build_vocab tokens).2 <= 256 ->
  Forall (fun tok => len tok <= 65535) tokens ->
  len tokens < 2 ^ 32 ->
  exists comp, compress_tokens version tokens = Ok comp.
Proof.
  intros Hsize Hfit Hlen.
  destruct (token_streams tokens Hsize)
    as (vl & ids & lastbits & bitstream & Hv & Hnd & Hel & Hids & Hnames & Hc
        & Hlast & Hd).
  rewrite Hv in Hsize. simpl in Hsize.
  destruct (names_bytes vl tokens ids Hsize Hnames) as [Hbytes Hlen'].
  eexists.
  apply (compress_tokens_container version tokens vl ids lastbits bitstream
           Hv Hsize Hids Hc Hlast).
  split_and!; [lia| |apply freq_table_fields; lia].
  apply Forall_forall. intros t Ht%Hel. by eapply Forall_forall in Hfit.
Qed.

(** ** The tokenizers as runs of one class *)

Lemma run_skip (p : Z -> bool) (l : list Z) : run p l ++ skip p l = l.
Proof. induction l as [|b l IH]; simpl; [done|]. destruct (p b); simpl; by f_equal. Qed.

Lemma run_ext (p q : Z -> bool) (l : list Z) :
  (forall x, p x = q x) -> run p l = run q l /\ skip p l = skip q l.
Proof.
  intros Hpq. induction l as [|b l [IH1 IH2]]; simpl; [done|].
  rewrite <- Hpq. destruct (p b); [by rewrite IH1|done].
Qed.

Lemma group_run (rest : list Z) : forall (b : Z) (p : Z -> bool),
  (forall c, p c = Bool.eqb (_is_ascii_letter b) (_is_ascii_letter c)) ->
  group (b :: rest) = (b :: run p rest) :: group (skip p rest).
Proof.
  induction rest as [|c rest IH]; intros b p Hp; [done|].
  specialize (IH c (fun d => Bool.eqb (_is_ascii_letter c) (_is_ascii_letter d))
                 (fun _ => eq_refl)).
  change (group (b :: c :: rest))
    with (match group (c :: rest) with
          | (c' :: tok) :: toks =>
              if Bool.eqb (_is_ascii_letter b) (_is_ascii_letter c')
              then (b :: c' :: tok) :: toks
              else [b] :: (c' :: tok) :: toks
          | _ => [[b]]
          end).
  rewrite IH. cbn [run skip]. rewrite Hp.
  destruct (Bool.eqb (_is_ascii_letter b) (_is_ascii_letter c)) eqn:Heq.
  - apply Bool.eqb_prop in Heq.
    destruct (run_ext p (fun d => Bool.eqb (_is_ascii_letter c) (_is_ascii_letter d))
                rest) as [-> ->]; [|done].
    intros x. by rewrite Hp, Heq.
  - by rewrite IH.
Qed.

Lemma scan_while_run (p : Z -> bool) (data : list Z) (fuel : nat) : forall i,
  0 <= i <= len data -> len data - i <= Z.of_nat fuel ->
  scan_while fuel p data (len data) i
  = i + len (run p (drop (Z.to_nat i) data)).
Proof.
  induction fuel as [|fuel IH]; intros i Hi Hfuel.
  - simpl. rewrite drop_ge by (unfold len in *; lia). simpl. unfold len. simpl. lia.
  - cbn [scan_while]. destruct (i <? len data) eqn:Hlt.
    + apply Z.ltb_lt in Hlt.
      assert (Hlook : data !! Z.to_nat i = Some (data !!! Z.to_nat i)).
      { apply list_lookup_lookup_total_lt. unfold len in *. lia. }
      rewrite (drop_S _ _ _ Hlook). cbn [andb run].
      destruct (p (data !!! Z.to_nat i)).
      * rewrite IH by lia. replace (Z.to_nat (i + 1)) with (S (Z.to_nat i)) by lia.
        unfold len. simpl length. lia.
      * unfold len. simpl. lia.
    + apply Z.ltb_ge in Hlt. cbn [andb].
      rewrite drop_ge by (unfold len in *; lia). unfold len. simpl. lia.
Qed.

Section tokenize_group.

Variable letters : list Z -> list (list Z).

Lemma tokenize_loop_group (data : list Z) (fuel : nat) : forall i tokens,
  0 <= i <= len data -> len data - i <= Z.of_nat fuel ->
  tokenize_loop fuel letters data (len data) i tokens
  = tokens ++ (group (drop (Z.to_nat i) data) ≫= emit letters).
Proof.
  induction fuel as [|fuel IH]; intros i tokens Hi Hfuel.
  - simpl. rewrite drop_ge by (unfold len in *; lia). simpl. by rewrite app_nil_r.
  - cbn [tokenize_loop]. destruct (i <? len data) eqn:Hlt; cycle 1.
    { apply Z.ltb_ge in Hlt. rewrite drop_ge by (unfold len in *; lia).
      simpl. by rewrite app_nil_r. }
    apply Z.ltb_lt in Hlt.
    assert (Hlook : data !! Z.to_nat i = Some (data !!! Z.to_nat i)).
    { apply list_lookup_lookup_total_lt. unfold len in *. lia. }
    set (b := data !!! Z.to_nat i) in *.
    set (rest := drop (S (Z.to_nat i)) data).
    assert (Hdrop : drop (Z.to_nat i) data = b :: rest) by by apply drop_S.
    assert (Hstep : forall p,
              (forall c, p c = Bool.eqb (_is_ascii_letter b) (_is_ascii_letter c)) ->
              let i' := scan_while (length data) p data (len data) (i + 1) in
              i + 1 <= i' <= len data /\
              slice data i i' = b :: run p rest /\
              drop (Z.to_nat i') data = skip p rest /\
              group (b :: rest) = (b :: run p rest) :: group (skip p rest)).
    { intros p Hp i'. subst i'.
      rewrite scan_while_run by (unfold len in *; lia).
      replace (Z.to_nat (i + 1)) with (S (Z.to_nat i)) by lia. fold rest.
      pose proof (run_skip p rest) as Hrs.
      assert (Hlen : len (run p rest) + len (skip p rest) = len data - i - 1).
      { rewrite <- len_app, Hrs. subst rest. unfold len in *.
        rewrite length_drop. lia. }
      pose proof (len_nonneg (run p rest)). pose proof (len_nonneg (skip p rest)).
      split; [lia|]. split; [|split].
      - rewrite slice_in_range by lia. rewrite Hdrop.
        replace (Z.to_nat (i + 1 + len (run p rest) - i))
          with (S (length (run p rest))) by (unfold len; lia).
        cbn [take]. f_equal.
        etrans; [|apply (take_app_length (run p rest) (skip p rest))].
        by rewrite Hrs.
      - replace (Z.to_nat (i + 1 + len (run p rest)))
          with (S (Z.to_nat i) + length (run p rest))%nat by (unfold len; lia).
        rewrite <- drop_drop. fold rest.
        etrans; [|apply (drop_app_length (run p rest) (skip p rest))].
        by rewrite Hrs.
      - by apply group_run. }
    rewrite Hdrop.
    destruct (_is_ascii_letter b) eqn:Hb.
    + destruct (Hstep _is_ascii_letter) as (Hi' & Hword & Hskip & Hgroup).
      { intros c. by destruct (_is_ascii_letter c). }
      rewrite IH by lia. rewrite Hword, Hskip, Hgroup, bind_cons.
      unfold emit at 2. cbn [head default from_option id]. rewrite Hb. by rewrite <- app_assoc.
    + destruct (Hstep (fun c => negb (_is_ascii_letter c)))
        as (Hi' & Hword & Hskip & Hgroup).
      { intros c. by destruct (_is_ascii_letter c). }
      rewrite IH by lia. rewrite Hword, Hskip, Hgroup, bind_cons.
      unfold emit at 2. cbn [head default from_option id]. rewrite Hb. by rewrite <- app_assoc.
Qed.

End tokenize_group.

(** the word tokenizer returns the maximal runs of letters and non-letters *)
Lemma tokenize_words_group (data : list Z) :
  tokenize_words_and_other data = group data.
Proof.
  unfold tokenize_words_and_other. cbv zeta.
  pose proof (len_nonneg data).
  rewrite tokenize_loop_group by (unfold len in *; lia).
  rewrite app_nil_l. change (Z.to_nat 0) with 0%nat. rewrite drop_0.
  induction (group data) as [|tok toks IH]; [done|].
  rewrite bind_cons, IH. unfold emit. by destruct (_is_ascii_letter _).
Qed.

(** the syllable tokenizer splits the runs of letters and keeps the others *)
Lemma tokenize_syllables_group (data : list Z) :
  tokenize_syllables_and_other data
  = group data ≫= emit split_word_into_syllables.
Proof.
  unfold tokenize_syllables_and_other. cbv zeta.
  pose proof (len_nonneg data).
  by rewrite tokenize_loop_group by (unfold len in *; lia).
Qed.

Lemma group_nonempty (data : list Z) : Forall (fun tok => tok <> []) (group data).
Proof.
  induction data as [|b data IH]; [constructor|]. cbn [group].
  destruct (group data) as [|[|c tok] toks]; [by repeat constructor..|].
  apply Forall_cons in IH as [_ IH].
  destruct (Bool.eqb _ _); by repeat constructor.
Qed.

Lemma elem_of_concat {A} (x : A) (tok : list A) (toks : list (list A)) :
  x ∈ tok -> tok ∈ toks -> x ∈ concat toks.
Proof.
  intros Hx Htok. induction toks as [|tok' toks IH].
  - by apply elem_of_nil in Htok.
  - simpl. apply elem_of_app. apply elem_of_cons in Htok as [->|Htok]; auto.
Qed.

Lemma group_concat (data : list Z) : concat (group data) = data.
Proof.
  rewrite <- tokenize_words_group. apply tokenize_words_concat.
Qed.

Lemma syllable_fold_count (word : list Z) : forall syllables current,
  (length (fold_left syllable_step word (syllables, current)).1
   + length (fold_left syllable_step word (syllables, current)).2
   <= length syllables + length current + length word)%nat.
Proof.
  induction word as [|b word IH]; intros syllables current; simpl; [lia|].
  destruct (_is_vowel_byte b).
  - etrans; [apply IH|]. rewrite !length_app. simpl. lia.
  - etrans; [apply IH|]. rewrite !length_app. simpl. lia.
Qed.

Lemma syllables_count (word : list Z) :
  (length (split_word_into_syllables word) <= length word)%nat.
Proof.
  unfold split_word_into_syllables.
  pose proof (syllable_fold_count word [] []) as H. revert H.
  destruct (fold_left syllable_step word ([], [])) as [syllables [|c current]];
    simpl; rewrite ?length_app; simpl; lia.
Qed.

Lemma syllable_fold_no_vowel (word : list Z) : forall syllables current,
  Forall (fun b => _is_vowel_byte b = false) word ->
  fold_left syllable_step word (syllables, current) = (syllables, current ++ word).
Proof.
  induction word as [|b word IH]; intros syllables current Hw; simpl.
  - by rewrite app_nil_r.
  - apply Forall_cons in Hw as [Hb Hw]. rewrite Hb, IH by done.
    by rewrite <- app_assoc.
Qed.

Lemma split_no_vowel (word : list Z) :
  word <> [] -> Forall (fun b => _is_vowel_byte b = false) word ->
  split_word_into_syllables word = [word].
Proof.
  intros Hne Hw. unfold split_word_into_syllables.
  rewrite syllable_fold_no_vowel by done. simpl. by destruct word.
Qed.

(** an input without vowels has the same tokens in both formats *)
Lemma tokenize_syllables_no_vowel (data : list Z) :
  Forall (fun b => _is_vowel_byte b = false) data ->
  tokenize_syllables_and_other data = tokenize_words_and_other data.
Proof.
  intros Hdata. rewrite tokenize_syllables_group, tokenize_words_group.
  pose proof (group_nonempty data) as Hne.
  assert (Hin : Forall (Forall (fun b => _is_vowel_byte b = false)) (group data)).
  { apply Forall_forall. intros tok Htok. apply Forall_forall. intros b Hb.
    rewrite Forall_forall in Hdata. apply Hdata.
    rewrite <- (group_concat data). by eapply elem_of_concat. }
  induction (group data) as [|tok toks IH]; [done|].
  apply Forall_cons in Hne as [Hne1 Hne]. apply Forall_cons in Hin as [Hin1 Hin].
  rewrite bind_cons, IH by done. unfold emit.
  rewrite split_no_vowel by done. by destruct (_is_ascii_letter _).
Qed.

Lemma emit_count (letters : list Z -> list (list Z)) (toks : list (list Z)) :
  (forall word, (length (letters word) <= length word)%nat) ->
  Forall (fun tok => tok <> []) toks ->
  (length (toks ≫= emit letters) <= length (concat toks))%nat.
Proof.
  intros Hletters. induction 1 as [|tok toks Hne _ IH]; [done|].
  rewrite bind_cons. simpl concat. rewrite !length_app.
  assert (length (emit letters tok) <= length tok)%nat; [|lia].
  unfold emit. destruct (_is_ascii_letter _); [apply Hletters|].
  destruct tok; [done|simpl; lia].
Qed.

(** neither tokenizer returns more tokens than the input has bytes *)
Lemma tokenize_count (data : list Z) :
  len (tokenize_words_and_other data) <= len data /\
  len (tokenize_syllables_and_other data) <= len data.
Proof.
  pose proof (group_nonempty data) as Hne.
  pose proof (emit_count split_word_into_syllables (group data) syllables_count Hne)
    as Hs.
  assert (Hw : (length (group data) <= length (concat (group data)))%nat).
  { clear Hs. induction Hne as [|tok toks Htok _ IH]; [done|].
    simpl. rewrite length_app. destruct tok; [done|simpl; lia]. }
  rewrite group_concat in Hw, Hs.
  rewrite tokenize_syllables_group, tokenize_words_group. unfold len. lia.
Qed.

(** ** The claims about whole containers *)

(** C1, as stated, fails for formats 3 and 4: an input of 257 distinct
    words has 258 distinct tokens, and compression raises instead of
    returning a container. *)
Lemma roundtrip_counterexample :
  is_bytes (many_words 257) /\
  (c ← compress_bytes_v3 (many_words 257); decompress_bytes_v3 c)
    = Raise (VocabTooLarge 258) /\
  (c ← compress_bytes_v4 (many_words 257); decompress_bytes_v4 c)
    = Raise (VocabTooLarge 258).
Proof.
  split; [|split].
  - apply (bool_decide_unpack (is_bytes (many_words 257))). vm_compute. exact I.
  - vm_compute. reflexivity.
  - vm_compute. reflexivity.
Qed.

(** C1, amended: in each format, whatever the compressor returns
    decompresses to the input. Formats 1 and 2 return a container for every
    input shorter than 2^32 bytes (the empty input, one byte and one repeated
    byte included); formats 3 and 4 do so when moreover the input has at most
    256 distinct tokens, none longer than 65535 bytes. *)
Theorem roundtrip (x : list Z) :
  is_bytes x ->
  (forall c, compress_bytes_v1 x = Ok c -> decompress_bytes_v1 c = Ok x) /\
  (forall c, compress_bytes_v2 x = Ok c -> decompress_bytes_v2 c = Ok x) /\
  (forall c, compress_bytes_v3 x = Ok c -> decompress_bytes_v3 c = Ok x) /\
  (forall c, compress_bytes_v4 x = Ok c -> decompress_bytes_v4 c = Ok x) /\
  (len x < 2 ^ 32 ->
     (exists c, compress_bytes_v1 x = Ok c) /\
     (exists c, compress_bytes_v2 x = Ok c)) /\
  (len x < 2 ^ 32 ->
     (distinct (tokenize_syllables_and_other x) <= 256)%nat ->
     Forall (fun tok => len tok <= 65535) (tokenize_syllables_and_other x) ->
     exists c, compress_bytes_v3 x = Ok c) /\
  (len x < 2 ^ 32 ->
     (distinct (tokenize_words_and_other x) <= 256)%nat ->
     Forall (fun tok => len tok <= 65535) (tokenize_words_and_other x) ->
     exists c, compress_bytes_v4 x = Ok c).
Proof.
  intros Hbytes. pose proof (tokenize_words_concat x) as Hw.
  pose proof (tokenize_syllables_concat x) as Hs.
  destruct (tokenize_count x) as [Hcw Hcs].
  split_and!.
  - intros c. by apply compress_bytes_v1_roundtrip.
  - intros c. by apply compress_bytes_v2_roundtrip.
  - intros c Hc%compress_tokens_roundtrip.
    unfold decompress_bytes_v3. by rewrite Hc, Hs.
  - intros c Hc%compress_tokens_roundtrip.
    unfold decompress_bytes_v4. by rewrite Hc, Hw.
  - intros Hlen. split; [by apply compress_bytes_v1_ok|by apply compress_bytes_v2_ok].
  - intros Hlen Hd Hfit. apply compress_tokens_ok; [|done|lia].
    unfold len. rewrite build_vocab_distinct. unfold distinct in Hd. lia.
  - intros Hlen Hd Hfit. apply compress_tokens_ok; [|done|lia].
    unfold len. rewrite build_vocab_distinct. unfold distinct in Hd. lia.
Qed.

Lemma roundtrip_witness :
  is_bytes [97; 97; 97] /\
  (exists c, compress_bytes_v1 [97; 97; 97] = Ok c /\
             decompress_bytes_v1 c = Ok [97; 97; 97]) /\
  (exists c, compress_bytes_v4 [97; 97; 97] = Ok c /\
             decompress_bytes_v4 c = Ok [97; 97; 97]).
Proof.
  assert (Hb : is_bytes [97; 97; 97]) by (repeat constructor; unfold is_byte; lia).
  destruct (roundtrip [97; 97; 97] Hb) as (H1 & _ & _ & H4 & Hok12 & _ & Hok4).
  split; [exact Hb|]. split.
  - destruct Hok12 as [[c Hc] _]; [done|]. exists c. split; [exact Hc|by apply H1].
  - destruct Hok4 as [c Hc]; [done|vm_compute; lia|repeat constructor; done|].
    exists c. split; [exact Hc|by apply H4].
Defined.

(** C3, as stated, fails: an input with exactly 256 distinct tokens, one of
    them 65536 bytes long, is rejected because the token does not fit the
    2-byte length field. *)
Lemma vocabulary_bound_counterexample :
  distinct (tokenize_syllables_and_other long_word_input) = 256%nat /\
  distinct (tokenize_words_and_other long_word_input) = 256%nat /\
  compress_bytes_v3 long_word_input = Raise TokenTooLong /\
  compress_bytes_v4 long_word_input = Raise TokenTooLong.
Proof.
  assert (Hnv : Forall (fun b => _is_vowel_byte b = false) long_word_input).
  { apply (bool_decide_unpack
             (Forall (fun b => _is_vowel_byte b = false) long_word_input)).
    vm_compute. exact I. }
  unfold compress_bytes_v3, compress_bytes_v4.
  rewrite (tokenize_syllables_no_vowel _ Hnv), tokenize_words_group.
  split_and!; vm_compute; reflexivity.
Qed.

(** C3, amended: more than 256 distinct tokens make formats 3 and 4 raise
    the vocabulary error; with exactly 256 distinct tokens, none longer than
    65535 bytes, in an input shorter than 2^32 bytes, compression succeeds. *)
Theorem vocabulary_bound (data : list Z) :
  ((256 < distinct (tokenize_syllables_and_other data))%nat ->
   compress_bytes_v3 data
   = Raise (VocabTooLarge (Z.of_nat (distinct (tokenize_syllables_and_other data))))) /\
  ((256 < distinct (tokenize_words_and_other data))%nat ->
   compress_bytes_v4 data
   = Raise (VocabTooLarge (Z.of_nat (distinct (tokenize_words_and_other data))))) /\
  (distinct (tokenize_syllables_and_other data) = 256%nat ->
   Forall (fun tok => len tok <= 65535) (tokenize_syllables_and_other data) ->
   len data < 2 ^ 32 ->
   exists comp, compress_bytes_v3 data = Ok comp) /\
  (distinct (tokenize_words_and_other data) = 256%nat ->
   Forall (fun tok => len tok <= 65535) (tokenize_words_and_other data) ->
   len data < 2 ^ 32 ->
   exists comp, compress_bytes_v4 data = Ok comp).
Proof.
  destruct (tokenize_count data) as [Hcw Hcs]. unfold distinct.
  split_and!.
  - intros Hd. unfold compress_bytes_v3. rewrite <- build_vocab_distinct in *.
    apply compress_tokens_overflow. unfold len. lia.
  - intros Hd. unfold compress_bytes_v4. rewrite <- build_vocab_distinct in *.
    apply compress_tokens_overflow. unfold len. lia.
  - intros Hd Hfit Hlen. apply compress_tokens_ok; [|done|lia].
    unfold len. rewrite build_vocab_distinct. lia.
  - intros Hd Hfit Hlen. apply compress_tokens_ok; [|done|lia].
    unfold len. rewrite build_vocab_distinct. lia.
Qed.

Lemma vocabulary_bound_witness :
  compress_bytes_v4 (many_words 257) = Raise (VocabTooLarge 258) /\
  exists comp, compress_bytes_v4 (many_words 255) = Ok comp.
Proof.
  split.
  - destruct (vocabulary_bound (many_words 257)) as (_ & H & _).
    rewrite H; [vm_compute; reflexivity|vm_compute; lia].
  - destruct (vocabulary_bound (many_words 255)) as (_ & _ & _ & H).
    apply H.
    + vm_compute. reflexivity.
    + apply (bool_decide_unpack
               (Forall (fun tok => len tok <= 65535)
                  (tokenize_words_and_other (many_words 255)))).
      vm_compute. exact I.
    + vm_compute. reflexivity.
Defined.

(** C2 does not hold of the code: when the bits run out before [N] symbols
    are decoded, [decode_bitstream] returns the symbols decoded so far as an
    ordinary result. With an empty stream that result is empty whatever [N]
    is; a stream cut after its first byte, or a v1 container that lost its
    last byte, decodes to a proper prefix of the eleven declared symbols. *)
Theorem decode_bitstream_silent_truncation :
  (forall root N lastbits, decode_bitstream root [] N lastbits = Ok []) /\
  decode_bitstream
    (build_huffman_tree (build_freq_table (bytes_of_string "abracadabra")))
    [110] 11 7 = Ok (bytes_of_string "abr") /\
  (c ← compress_bytes_v1 (bytes_of_string "abracadabra");
   decompress_bytes_v1 (take (length c - 1) c))
  = Ok (bytes_of_string "abracad").
Proof.
  split_and!.
  - intros root N lastbits. unfold decode_bitstream.
    destruct (N =? 0); [done|]. by destruct root.
  - vm_compute. reflexivity.
  - vm_compute. reflexivity.
Qed.

Lemma names_in_bounds (vl tokens : list (list Z)) (ids : list Z) :
  names vl tokens ids -> Forall (fun b => 0 <= b < len vl) ids.
Proof. induction 1 as [|tok id tokens ids [Hid _] _ IH]; by constructor. Qed.

Lemma container_vocab_size (version N : Z) (vl : list (list Z)) (fr : list Z)
  (lastbits : Z) (bitstream : list Z) :
  len vl < 2 ^ 16 ->
  from_bytes (slice (container_tokens version N vl fr lastbits bitstream) 12 14)
  = len vl.
Proof.
  intros Hvl. pose proof (len_nonneg vl). unfold container_tokens.
  replace (MAGIC ++ [version] ++ be_digits 8 N ++ be_digits 2 (len vl)
           ++ vocab_bytes vl ++ freq_bytes fr ++ [lastbits] ++ bitstream)
    with ((MAGIC ++ [version] ++ be_digits 8 N) ++ be_digits 2 (len vl)
          ++ (vocab_bytes vl ++ freq_bytes fr ++ [lastbits] ++ bitstream))
    by reassoc.
  rewrite slice_at.
  - apply from_bytes_be_digits. field_range.
  - rewrite !len_app, len_singleton. unfold len at 2. by rewrite be_digits_length.
  - unfold len at 1. by rewrite be_digits_length.
Qed.

Section decoded_ids.

Variables (version : Z) (tokens : list (list Z)) (comp : list Z).

Hypothesis Hcomp : compress_tokens version tokens = Ok comp.

Lemma compress_tokens_in_bounds :
  exists N vl fr lastbits bitstream ids,
    read_container version comp = Ok (N, vl, fr, lastbits, bitstream) /\
    from_bytes (slice comp 12 14) = len vl /\
    huffman_decompress_core fr bitstream N lastbits = Ok ids /\
    Forall (fun b => 0 <= b < len vl) ids.
Proof using Hcomp.
  destruct (compress_tokens_decode version tokens comp Hcomp)
    as (vl & fr & lastbits & bitstream & ids & Hr & Hd & Hn & _).
  exists (len tokens), vl, fr, lastbits, bitstream, ids.
  split_and!; [done| |done|by eapply names_in_bounds].
  destruct (decide (256 < len (build_vocab tokens).2)) as [Hbig|Hsize].
  { by rewrite compress_tokens_overflow in Hcomp. }
  destruct (token_streams tokens ltac:(lia))
    as (vl' & ids' & lastbits' & bitstream' & Hv & _ & _ & Hids & _ & Hc
        & Hlast & _).
  rewrite Hv in Hsize. simpl in Hsize.
  pose proof (compress_tokens_inv version tokens vl' ids' lastbits' bitstream'
                Hv ltac:(lia) Hids Hc comp Hcomp) as Hfit.
  pose proof Hcomp as Hcomp'.
  rewrite (compress_tokens_container version tokens vl' ids' lastbits' bitstream'
             Hv ltac:(lia) Hids Hc Hlast Hfit) in Hcomp'.
  injection Hcomp' as <-. destruct Hfit as (Hn' & Hfit & Hfr).
  pose proof (len_nonneg tokens).
  rewrite read_container_tokens in Hr
    by (try done; try lia; apply build_freq_table_length).
  injection Hr as <- <- <- <-. apply container_vocab_size. lia.
Qed.

End decoded_ids.

(** C10: in a container made by [compress_bytes_v3] or [compress_bytes_v4]
    every decoded id is below the stored vocabulary size, which is the length
    of the vocabulary list read back, so [vocab_list[b]] is in bounds. The
    decoders do not check this: a container with an empty vocabulary and one
    id passes every header check and fails in the lookup. *)
Theorem decoded_ids_in_bounds (data comp : list Z) :
  (compress_bytes_v3 data = Ok comp ->
   exists N vl fr lastbits bitstream ids,
     read_container VERSION_STEP3 comp = Ok (N, vl, fr, lastbits, bitstream) /\
     from_bytes (slice comp 12 14) = len vl /\
     huffman_decompress_core fr bitstream N lastbits = Ok ids /\
     Forall (fun b => 0 <= b < len vl) ids) /\
  (compress_bytes_v4 data = Ok comp ->
   exists N vl fr lastbits bitstream ids,
     read_container VERSION_STEP4 comp = Ok (N, vl, fr, lastbits, bitstream) /\
     from_bytes (slice comp 12 14) = len vl /\
     huffman_decompress_core fr bitstream N lastbits = Ok ids /\
     Forall (fun b => 0 <= b < len vl) ids) /\
  (exists fr,
     read_container VERSION_STEP3 (unchecked_container VERSION_STEP3)
       = Ok (1, [], fr, 1, [128]) /\
     huffman_decompress_core fr [128] 1 1 = Ok [0] /\
     decompress_bytes_v3 (unchecked_container VERSION_STEP3) = Raise IndexError) /\
  (exists fr,
     read_container VERSION_STEP4 (unchecked_container VERSION_STEP4)
       = Ok (1, [], fr, 1, [128]) /\
     huffman_decompress_core fr [128] 1 1 = Ok [0] /\
     decompress_bytes_v4 (unchecked_container VERSION_STEP4) = Raise IndexError).
Proof.
  split_and!.
  - apply compress_tokens_in_bounds.
  - apply compress_tokens_in_bounds.
  - eexists. split_and!; vm_compute; reflexivity.
  - eexists. split_and!; vm_compute; reflexivity.
Qed.

Lemma decoded_ids_in_bounds_witness :
  exists comp N vl fr lastbits bitstream ids,
    compress_bytes_v3 (bytes_of_string "ciao, mondo!") = Ok comp /\
    read_container VERSION_STEP3 comp = Ok (N, vl, fr, lastbits, bitstream) /\
    from_bytes (slice comp 12 14) = len vl /\
    huffman_decompress_core fr bitstream N lastbits = Ok ids /\
    Forall (fun b => 0 <= b < len vl) ids.
Proof.
  assert (Hex : exists comp,
            compress_bytes_v3 (bytes_of_string "ciao, mondo!") = Ok comp).
  { eexists. vm_compute. reflexivity. }
  destruct Hex as [comp Hc].
  destruct (decoded_ids_in_bounds (bytes_of_string "ciao, mondo!") comp) as (H & _).
  destruct (H Hc) as (N & vl & fr & lastbits & bitstream & ids & H').
  exists comp, N, vl, fr, lastbits, bitstream, ids. exact (conj Hc H').
Defined.

(** ** Further properties of the code *)

(** *** The frequency table *)

Lemma freq_step_count (fr : list Z) (b : Z) (i : nat) :
  (Z.to_nat b < length fr)%nat ->
  freq_step fr b !!! i = fr !!! i + (if decide (Z.to_nat b = i) then 1 else 0).
Proof.
  intros Hb. unfold freq_step.
  destruct (decide (Z.to_nat b = i)) as [<-|Hne].
  - by rewrite list_lookup_total_insert_eq.
  - rewrite list_lookup_total_insert_ne by done. lia.
Qed.

Lemma freq_fold_count (data : list Z) : forall fr (c : Z),
  length fr = 256%nat -> is_bytes data -> is_byte c ->
  fold_left freq_step data fr !!! Z.to_nat c
  = fr !!! Z.to_nat c + Z.of_nat (length (filter (fun b => b = c) data)).
Proof.
  induction data as [|b data IH]; intros fr c Hlen Hdata Hc; simpl; [lia|].
  apply Forall_cons in Hdata as [Hb Hdata].
  rewrite IH by (done || (unfold freq_step; by rewrite length_insert)).
  rewrite freq_step_count by (unfold is_byte in Hb; lia).
  rewrite filter_cons. unfold is_byte in *.
  destruct (decide (b = c)) as [->|Hne].
  - rewrite decide_True by done. simpl length. lia.
  - rewrite decide_False by lia. lia.
Qed.

Lemma sum_list_insert (fr : list Z) (i : nat) (x : Z) :
  (i < length fr)%nat ->
  foldr Z.add 0 (<[i := x]> fr) = foldr Z.add 0 fr - fr !!! i + x.
Proof.
  revert i. induction fr as [|f fr IH]; intros i Hi; simpl in Hi; [lia|].
  destruct i as [|i]; simpl.
  - change ((f :: fr) !!! 0%nat) with f. lia.
  - rewrite IH by lia. change ((f :: fr) !!! S i) with (fr !!! i). lia.
Qed.

Lemma freq_fold_sum (data : list Z) : forall fr,
  length fr = 256%nat -> is_bytes data ->
  foldr Z.add 0 (fold_left freq_step data fr) = foldr Z.add 0 fr + len data.
Proof.
  induction data as [|b data IH]; intros fr Hlen Hdata; simpl.
  - unfold len. simpl. lia.
  - apply Forall_cons in Hdata as [Hb Hdata].
    rewrite IH by (done || (unfold freq_step; by rewrite length_insert)).
    unfold freq_step. rewrite sum_list_insert by (unfold is_byte in Hb; lia).
    unfold len. simpl length. lia.
Qed.

(** X1: the table has 256 entries, entry [c] is the number of occurrences of
    the byte [c] in the input, and the entries add up to the input length. *)
Theorem build_freq_table_counts (data : list Z) :
  is_bytes data ->
  length (build_freq_table data) = 256%nat /\
  (forall c, is_byte c ->
     build_freq_table data !!! Z.to_nat c
     = Z.of_nat (length (filter (fun b => b = c) data))) /\
  foldr Z.add 0 (build_freq_table data) = len data.
Proof.
  intros Hdata. split; [apply build_freq_table_length|]. split.
  - intros c Hc. unfold build_freq_table.
    rewrite freq_fold_count by done.
    rewrite lookup_total_replicate_2 by (unfold is_byte in Hc; lia). lia.
  - unfold build_freq_table. rewrite freq_fold_sum by done.
    assert (Hz : forall n, foldr Z.add 0 (replicate n 0) = 0).
    { induction n as [|n IHn]; [done|]. simpl. lia. }
    rewrite Hz. lia.
Qed.

Lemma build_freq_table_counts_witness :
  length (build_freq_table [97; 98; 97]) = 256%nat /\
  (forall c, is_byte c ->
     build_freq_table [97; 98; 97] !!! Z.to_nat c
     = Z.of_nat (length (filter (fun b => b = c) [97; 98; 97]))) /\
  foldr Z.add 0 (build_freq_table [97; 98; 97]) = len [97; 98; 97].
Proof.
  apply build_freq_table_counts. repeat constructor; unfold is_byte; lia.
Defined.

(** *** The leaves and the weights of the tree *)

Lemma weighted_proper (node : HuffmanNode) : weighted node -> proper node.
Proof. induction 1; by constructor. Qed.

Lemma leaf_items_syms (node : HuffmanNode) :
  weighted node -> (leaf_items node).*1 = leaf_syms node.
Proof.
  induction 1 as [f s|l r Hl IHl Hr IHr]; [done|].
  rewrite leaf_syms_internal. cbn [leaf_items]. by rewrite fmap_app, IHl, IHr.
Qed.

Lemma sum_list_app (xs ys : list Z) :
  foldr Z.add 0 (xs ++ ys) = foldr Z.add 0 xs + foldr Z.add 0 ys.
Proof. induction xs as [|x xs IH]; simpl; lia. Qed.

Lemma sum_list_perm (xs ys : list Z) :
  xs ≡ₚ ys -> foldr Z.add 0 xs = foldr Z.add 0 ys.
Proof. induction 1; simpl; lia. Qed.

Lemma weighted_freq (node : HuffmanNode) :
  weighted node -> freq node = foldr Z.add 0 (leaf_items node).*2.
Proof.
  induction 1 as [f s|l r Hl IHl Hr IHr]; [simpl; lia|].
  cbn [leaf_items freq]. by rewrite fmap_app, sum_list_app, IHl, IHr.
Qed.

Lemma positive_items_syms (sym : Z) (fr : list Z) :
  (positive_items sym fr).*1 = positive_syms sym fr.
Proof.
  revert sym. induction fr as [|f fr IH]; intros sym; simpl; [done|].
  destruct (0 <? f); simpl; by rewrite IH.
Qed.

Lemma positive_items_sum (sym : Z) (fr : list Z) :
  Forall (fun f => 0 <= f) fr ->
  foldr Z.add 0 (positive_items sym fr).*2 = foldr Z.add 0 fr.
Proof.
  intros H. revert sym. induction H as [|f fr Hf _ IH]; intros sym; simpl; [done|].
  destruct (0 <? f) eqn:E; simpl; rewrite IH; [done|].
  apply Z.ltb_ge in E. lia.
Qed.

Lemma positive_items_elem (sym : Z) (fr : list Z) (s f : Z) :
  (s, f) ∈ positive_items sym fr
  <-> exists i : nat, s = sym + Z.of_nat i /\ fr !! i = Some f /\ 0 < f.
Proof.
  revert sym. induction fr as [|f0 fr IH]; intros sym; simpl.
  - split; [by intros ?%elem_of_nil|]. by intros (i & _ & ? & _).
  - assert (Hrest : (s, f) ∈ positive_items (sym + 1) fr
              <-> exists i : nat, s = sym + Z.of_nat (S i) /\
                    (f0 :: fr) !! S i = Some f /\ 0 < f).
    { rewrite IH. split; intros (i & -> & Hi & Hf); exists i;
        (split; [lia|done]). }
    assert (Hhead : forall i : nat, s = sym + Z.of_nat i ->
              (f0 :: fr) !! i = Some f -> 0 < f ->
              (s = sym /\ f = f0) \/
              exists i : nat, s = sym + Z.of_nat (S i) /\
                (f0 :: fr) !! S i = Some f /\ 0 < f).
    { intros [|i] -> Hi Hf.
      - left. simpl in Hi. injection Hi as ->. split; [lia|done].
      - right. by exists i. }
    destruct (0 <? f0) eqn:E.
    + rewrite elem_of_cons, Hrest. apply Z.ltb_lt in E. split.
      * intros [Heq|(i & ? & ? & ?)]; [|by exists (S i)].
        injection Heq as -> ->. exists 0%nat. split; [lia|done].
      * intros (i & Hs & Hi & Hf).
        destruct (Hhead i Hs Hi Hf) as [[-> ->]|H]; [by left|by right].
    + rewrite Hrest. apply Z.ltb_ge in E. split.
      * intros (i & ? & ? & ?). by exists (S i).
      * intros (i & Hs & Hi & Hf).
        destruct (Hhead i Hs Hi Hf) as [[-> ->]|H]; [lia|done].
Qed.

Lemma heappush_items (heap : list heap_item) (item : heap_item) :
  forest_items (heappush heap item) ≡ₚ leaf_items item.2 ++ forest_items heap.
Proof. unfold forest_items. by rewrite heappush_perm. Qed.

Lemma heappush_weighted (heap : list heap_item) (item : heap_item) :
  forest_weighted heap -> weighted item.2 -> item.1.1 = freq item.2 ->
  forest_weighted (heappush heap item).
Proof.
  intros Hh Hw Hk. unfold forest_weighted. rewrite heappush_perm. by constructor.
Qed.

Lemma push_leaves_items (fr : list Z) :
  forall sym heap counter, forest_weighted heap ->
  forest_weighted (push_leaves sym fr heap counter).1 /\
  forest_items (push_leaves sym fr heap counter).1
    ≡ₚ forest_items heap ++ positive_items sym fr.
Proof.
  induction fr as [|f fr IH]; intros sym heap counter Hw; simpl.
  - by rewrite app_nil_r.
  - destruct (0 <? f); [|by apply IH].
    destruct (IH (sym + 1) (heappush heap (f, counter, leaf_node f sym))
                 (counter + 1)) as [IH1 IH2].
    { apply heappush_weighted; [done|constructor|done]. }
    split; [done|]. rewrite IH2, heappush_items. simpl.
    by rewrite (Permutation_middle (forest_items heap)).
Qed.

Lemma merge_loop_items (fuel : nat) :
  forall heap counter, forest_weighted heap -> heap <> [] ->
  (length heap <= S fuel)%nat ->
  exists f c root, merge_loop fuel heap counter = [(f, c, root)] /\
    weighted root /\ leaf_items root ≡ₚ forest_items heap.
Proof.
  induction fuel as [|fuel IH]; intros heap counter Hw Hne Hlen.
  - destruct heap as [|[[f c] root] [|? ?]]; simpl in *; [done| |lia].
    exists f, c, root. apply Forall_cons in Hw as [[Hw _] _].
    repeat split; [done|]. unfold forest_items. simpl. by rewrite app_nil_r.
  - destruct heap as [|[[f1 c1] n1] [|[[f2 c2] n2] rest]]; [done| |].
    + exists f1, c1, n1. apply Forall_cons in Hw as [[Hw _] _].
      repeat split; [done|]. unfold forest_items. simpl. by rewrite app_nil_r.
    + simpl. apply Forall_cons in Hw as [[Hw1 Hk1] Hw].
      apply Forall_cons in Hw as [[Hw2 Hk2] Hw]. simpl in Hk1, Hk2. subst f1 f2.
      destruct (IH (heappush rest (freq n1 + freq n2, counter,
                      mkNode (freq n1 + freq n2) None (Some n1) (Some n2)))
                   (counter + 1))
        as (f & c & root & Hm & Hroot & Hitems).
      * apply heappush_weighted; [done|by constructor|done].
      * intros Hnil. apply (f_equal length) in Hnil.
        rewrite heappush_length in Hnil. done.
      * rewrite heappush_length. simpl in Hlen. lia.
      * exists f, c, root. repeat split; [done..|].
        rewrite Hitems, heappush_items. cbn [snd leaf_items].
        unfold forest_items. simpl. by rewrite <- app_assoc.
Qed.

Lemma forest_leaves_items (heap : list heap_item) :
  forest_leaves heap -> forest_weighted heap ->
  forest_items heap = (fun it => (default 0 (symbol it.2), it.1.1)) <$> heap.
Proof.
  induction 1 as [|[[f c] n] heap (f' & s & Hn) _ IH]; [done|].
  intros [[_ Hk] Hw]%Forall_cons. simpl in Hn, Hk. subst n. simpl in Hk. subst f'.
  rewrite fmap_cons, <- IH by done. done.
Qed.

(** What [build_huffman_tree] returns, whenever it returns a tree: the root is
    internal, the weights add up, and the leaves are the symbols with a
    positive count, each with its count, joined by a dummy leaf of weight 0
    when there is only one such symbol. *)
Lemma build_huffman_tree_items (fr : list Z) (root : HuffmanNode) :
  build_huffman_tree fr = Some root ->
  weighted root /\ is_leaf root = false /\
  ((2 <= length (positive_items 0 fr))%nat /\
     leaf_items root ≡ₚ positive_items 0 fr
   \/ exists s f, positive_items 0 fr = [(s, f)] /\
        leaf_items root ≡ₚ [((s + 1) mod 256, 0); (s, f)]).
Proof.
  unfold build_huffman_tree.
  destruct (push_leaves_items fr 0 [] 0) as [Hw Hitems]; [constructor|].
  pose proof (push_leaves_leaves fr 0 [] 0 ltac:(constructor)) as Hlv.
  revert Hw Hitems Hlv. destruct (push_leaves 0 fr [] 0) as [heap counter]. simpl.
  intros Hw Hitems Hlv.
  assert (Hroot : forall heap' counter', forest_weighted heap' -> heap' <> [] ->
            (2 <= length (forest_items heap'))%nat ->
            match merge_loop (length heap') heap' counter' with
            | [] => None
            | (_, _, root) :: _ => Some root
            end = Some root ->
            weighted root /\ is_leaf root = false /\
            leaf_items root ≡ₚ forest_items heap').
  { intros heap' counter' Hw' Hne' Hlen' Hm'.
    destruct (merge_loop_items (length heap') heap' counter' Hw' Hne')
      as (f & c & root' & Hm & Hr & Hs); [lia|].
    rewrite Hm in Hm'. injection Hm' as ->. split; [done|]. split; [|done].
    destruct Hr as [f' s|l r Hl Hr]; [|done].
    rewrite <- Hs in Hlen'. simpl in Hlen'. lia. }
  destruct heap as [|[[f c] only] [|it2 rest]]; [done| |].
  - pose proof Hlv as Hlv'.
    apply Forall_cons in Hlv' as [(f' & s & Honly) _]. simpl in Honly. subst only.
    pose proof Hw as Hw'. apply Forall_cons in Hw' as [[_ Hk] _].
    simpl in Hk. subst f'.
    unfold forest_items in Hitems. simpl in Hitems.
    apply Permutation_singleton_l in Hitems.
    cbn [symbol leaf_node]. intros Hm. apply Hroot in Hm as (Hwr & Hleaf & Hit).
    + split; [done|]. split; [done|]. right. exists s, f. split; [done|].
      by rewrite Hit, heappush_items.
    + apply heappush_weighted; [done|constructor|done].
    + intros Hnil. apply (f_equal length) in Hnil.
      by rewrite heappush_length in Hnil.
    + rewrite heappush_items. simpl. lia.
  - intros Hm. apply Hroot in Hm as (Hwr & Hleaf & Hit); [|done|done|].
    + split; [done|]. split; [done|]. left. rewrite <- Hitems.
      split; [|done]. rewrite forest_leaves_items by done. simpl. lia.
    + rewrite forest_leaves_items by done. simpl. lia.
Qed.

Lemma build_huffman_tree_None (fr : list Z) :
  build_huffman_tree fr = None -> positive_items 0 fr = [].
Proof.
  unfold build_huffman_tree.
  destruct (push_leaves_items fr 0 [] 0) as [Hw Hitems]; [constructor|].
  pose proof (push_leaves_leaves fr 0 [] 0 ltac:(constructor)) as Hlv.
  revert Hw Hitems Hlv. destruct (push_leaves 0 fr [] 0) as [heap counter]. simpl.
  intros Hw Hitems Hlv.
  assert (Hroot : forall heap' counter', heap' <> [] ->
            match merge_loop (length heap') heap' counter' with
            | [] => None
            | (_, _, root) :: _ => Some root
            end = None -> forest_weighted heap' -> False).
  { intros heap' counter' Hne' Hm' Hw'.
    destruct (merge_loop_items (length heap') heap' counter' Hw' Hne')
      as (f & c & root' & Hm & _); [lia|].
    by rewrite Hm in Hm'. }
  destruct heap as [|[[f c] only] [|it2 rest]].
  - intros _. unfold forest_items in Hitems. simpl in Hitems.
    by apply Permutation_nil in Hitems.
  - apply Forall_cons in Hlv as [(f' & s & Honly) _]. simpl in Honly. subst only.
    cbn [symbol leaf_node]. intros Hm. exfalso. eapply Hroot; [|exact Hm|].
    + intros Hnil. apply (f_equal length) in Hnil.
      by rewrite heappush_length in Hnil.
    + apply heappush_weighted; [done|constructor|done].
  - intros Hm. exfalso. eapply Hroot; [|exact Hm|done]. done.
Qed.

Lemma positive_items_nil (sym : Z) (fr : list Z) :
  positive_items sym fr = [] <-> Forall (fun f => f <= 0) fr.
Proof.
  revert sym. induction fr as [|f fr IH]; intros sym; simpl; [done|].
  destruct (0 <? f) eqn:E.
  - apply Z.ltb_lt in E. split; [done|]. intros [? _]%Forall_cons. lia.
  - apply Z.ltb_ge in E. rewrite IH. split; [by constructor|].
    by intros [_ ?]%Forall_cons.
Qed.

(** X2: [build_huffman_tree] returns [None] exactly when no entry of the
    table is positive. *)
Theorem build_huffman_tree_none_iff (fr : list Z) :
  build_huffman_tree fr = None <-> Forall (fun f => f <= 0) fr.
Proof.
  split.
  - intros H%build_huffman_tree_None. by apply (positive_items_nil 0).
  - intros H. destruct (build_huffman_tree fr) as [root|] eqn:E; [|done].
    apply build_huffman_tree_items in E as (_ & _ & [[Hlen _]|(s & f & Hs & _)]);
      apply (positive_items_nil 0) in H; rewrite H in *; [simpl in Hlen; lia|done].
Qed.

Lemma build_huffman_tree_syms (fr : list Z) (root : HuffmanNode) :
  build_huffman_tree fr = Some root ->
  NoDup (leaf_syms root) /\
  ((2 <= length (positive_syms 0 fr))%nat /\ leaf_syms root ≡ₚ positive_syms 0 fr
   \/ exists s, positive_syms 0 fr = [s] /\
        leaf_syms root ≡ₚ [(s + 1) mod 256; s]).
Proof.
  intros (Hw & _ & Hcases)%build_huffman_tree_items.
  rewrite <- (leaf_items_syms root Hw), <- positive_items_syms.
  destruct Hcases as [[Hlen Hit]|(s & f & Hs & Hit)].
  - split; [rewrite Hit, positive_items_syms; apply positive_syms_NoDup|].
    left. rewrite length_fmap. split; [done|]. by rewrite Hit.
  - rewrite Hit, Hs.
    change ([((s + 1) mod 256, 0); (s, f)].*1) with [(s + 1) mod 256; s].
    change ([(s, f)].*1) with [s]. split; [|right; exists s; split; [done|by rewrite Hit]].
    apply NoDup_cons. split; [|apply NoDup_singleton].
    intros Hin%list_elem_of_singleton. by apply dummy_symbol_fresh in Hin.
Qed.

(** X3: the leaves of the tree carry pairwise distinct symbols; they are the
    indices of the positive entries of the table, each weighted with its
    entry, and, when exactly one entry is positive, one more leaf of weight 0
    for the symbol that follows it modulo 256. *)
Theorem huffman_tree_leaves (fr : list Z) (root : HuffmanNode) :
  build_huffman_tree fr = Some root ->
  NoDup (leaf_items root).*1 /\
  forall s f, (s, f) ∈ leaf_items root <->
    (exists i : nat, s = Z.of_nat i /\ fr !! i = Some f /\ 0 < f) \/
    (exists s0, positive_syms 0 fr = [s0] /\ s = (s0 + 1) mod 256 /\ f = 0).
Proof.
  intros Hb. pose proof (build_huffman_tree_syms fr root Hb) as [Hnd _].
  apply build_huffman_tree_items in Hb as (Hw & _ & Hcases).
  rewrite leaf_items_syms by done. split; [done|]. intros s f.
  destruct Hcases as [[Hlen Hit]|(s0 & f0 & Hs & Hit)]; rewrite Hit.
  - rewrite positive_items_elem. split; [by left|].
    intros [H|(s0 & Hs0 & _)]; [done|].
    rewrite <- positive_items_syms in Hs0. apply (f_equal length) in Hs0.
    rewrite length_fmap in Hs0. simpl in Hs0. lia.
  - assert (Hs' : positive_syms 0 fr = [s0])
      by by rewrite <- positive_items_syms, Hs.
    rewrite elem_of_cons, <- Hs, positive_items_elem.
    split.
    + intros [Heq|H]; [|by left]. injection Heq as -> ->. right. by exists s0.
    + intros [H|(s1 & Hs1 & -> & ->)]; [by right|].
      left. rewrite Hs' in Hs1. by injection Hs1 as ->.
Qed.

Lemma huffman_tree_leaves_witness :
  NoDup (leaf_items (mkNode 3 None (Some (leaf_node 1 1)) (Some (leaf_node 2 0)))).*1 /\
  forall s f,
    (s, f) ∈ leaf_items (mkNode 3 None (Some (leaf_node 1 1)) (Some (leaf_node 2 0)))
    <-> (exists i : nat, s = Z.of_nat i /\ [2; 1] !! i = Some f /\ 0 < f) \/
        (exists s0, positive_syms 0 [2; 1] = [s0] /\ s = (s0 + 1) mod 256 /\ f = 0).
Proof. apply (huffman_tree_leaves [2; 1]). reflexivity. Defined.

Lemma positive_items_filter (sym : Z) (fr : list Z) :
  (positive_items sym fr).*2 = filter (fun f => 0 < f) fr.
Proof.
  revert sym. induction fr as [|f fr IH]; intros sym; simpl; [done|].
  rewrite filter_cons. destruct (0 <? f) eqn:E.
  - apply Z.ltb_lt in E. rewrite decide_True by done. simpl. by rewrite IH.
  - apply Z.ltb_ge in E. rewrite decide_False by lia. apply IH.
Qed.

(** X4: in the tree every internal node weighs what its two children weigh
    together, and the root weighs the sum of the positive entries of the
    table. *)
Theorem huffman_tree_weight (fr : list Z) (root : HuffmanNode) :
  build_huffman_tree fr = Some root ->
  weighted root /\ freq root = foldr Z.add 0 (filter (fun f => 0 < f) fr).
Proof.
  intros (Hw & _ & Hcases)%build_huffman_tree_items. split; [done|].
  rewrite (weighted_freq root Hw), <- (positive_items_filter 0).
  destruct Hcases as [[_ Hit]|(s & f & Hs & Hit)];
    rewrite (sum_list_perm _ _ (fmap_Permutation snd _ _ Hit)); [done|].
  rewrite Hs. simpl. lia.
Qed.

Lemma huffman_tree_weight_witness :
  weighted (mkNode 3 None (Some (leaf_node 1 1)) (Some (leaf_node 2 0))) /\
  freq (mkNode 3 None (Some (leaf_node 1 1)) (Some (leaf_node 2 0)))
  = foldr Z.add 0 (filter (fun f => 0 < f) [2; 1]).
Proof. apply (huffman_tree_weight [2; 1]). reflexivity. Defined.

(** X5: the code table of the tree has an entry exactly for the symbols of
    the leaves; every code is made of bits 0 and 1, is not empty, and is
    shorter than the number of leaves, so at most 255 bits long for a table
    of 256 counts. *)
Theorem code_table_domain_and_lengths (fr : list Z) (root : HuffmanNode) :
  build_huffman_tree fr = Some root ->
  (forall s, is_Some (build_code_table root !! s) <-> s ∈ (leaf_items root).*1) /\
  (forall s c, build_code_table root !! s = Some c ->
     Forall is_bit c /\
     (1 <= length c <= Nat.max 1 (length (positive_syms 0 fr) - 1))%nat /\
     (1 <= length c < Nat.max 2 (length fr))%nat).
Proof.
  intros Hb. pose proof (build_huffman_tree_syms fr root Hb) as [Hnd Hsyms].
  apply build_huffman_tree_items in Hb as (Hw & Hleaf & _).
  rewrite leaf_items_syms by done.
  destruct Hw as [f s|l r Hl Hr]; [done|].
  pose proof (weighted_proper l Hl) as Hpl. pose proof (weighted_proper r Hr) as Hpr.
  set (root := mkNode (freq l + freq r) None (Some l) (Some r)) in *.
  assert (Hpr' : proper root) by by constructor.
  split.
  - intros s. split.
    + intros [c Hc]. apply build_code_table_lookup in Hc; [|done..].
      unfold leaf_syms. apply list_elem_of_fmap. by exists (s, c).
    + intros Hin. unfold leaf_syms in Hin.
      apply list_elem_of_fmap in Hin as ([s' c] & -> & Hin).
      exists c. by apply build_code_table_lookup.
  - intros s c Hc. apply build_code_table_lookup in Hc; [|done..].
    pose proof (leaf_codes_depth root Hpr' s c Hc) as Hdepth.
    pose proof (internal_codes_nonempty _ _ _ _ _ Hc) as Hne.
    pose proof (positive_syms_length 0 fr) as Hcount.
    assert (1 <= length c)%nat by (destruct c; [done|simpl; lia]).
    split; [exact (leaf_codes_bits root Hpr' s c Hc)|].
    destruct Hsyms as [[Hlen Hs]|(s0 & Hs0 & Hs)]; rewrite Hs in Hdepth.
    + lia.
    + rewrite Hs0 in *. simpl in *. lia.
Qed.

Lemma code_table_domain_and_lengths_witness :
  (forall s,
     is_Some (build_code_table
                (mkNode 3 None (Some (leaf_node 1 1)) (Some (leaf_node 2 0))) !! s)
     <-> s ∈ (leaf_items
                (mkNode 3 None (Some (leaf_node 1 1)) (Some (leaf_node 2 0)))).*1) /\
  (forall s c,
     build_code_table
       (mkNode 3 None (Some (leaf_node 1 1)) (Some (leaf_node 2 0))) !! s = Some c ->
     Forall is_bit c /\
     (1 <= length c <= Nat.max 1 (length (positive_syms 0%Z [2; 1]%Z) - 1))%nat /\
     (1 <= length c < Nat.max 2 (length [2; 1]%Z))%nat).
Proof. apply (code_table_domain_and_lengths [2; 1]). reflexivity. Defined.

(** *** Encoding and decoding *)

(** What the compression core works with on a non-empty input: the tree has
    an internal root, every byte of the input has the path of its leaf as
    code, and the stream holds the code bits, padded with zeros. *)
Lemma huffman_core_nonempty (data : list Z) :
  is_bytes data -> data <> [] ->
  exists f l r lastbits bitstream,
    build_huffman_tree (build_freq_table data)
      = Some (mkNode f None (Some l) (Some r)) /\
    proper l /\ proper r /\
    (forall b, b ∈ data -> is_byte b /\
       exists p, (b, p) ∈ leaf_codes (mkNode f None (Some l) (Some r)) /\
         build_code_table (mkNode f None (Some l) (Some r)) !! b = Some p) /\
    encode_data data (build_code_table (mkNode f None (Some l) (Some r)))
      = Ok (bitstream, lastbits) /\
    1 <= lastbits <= 8 /\
    len (code_bits (build_code_table (mkNode f None (Some l) (Some r))) data)
      = 8 * len bitstream - (8 - lastbits) /\
    unpack_bits bitstream
      = code_bits (build_code_table (mkNode f None (Some l) (Some r))) data
        ++ replicate (Z.to_nat (8 - lastbits)) 0.
Proof.
  intros Hbytes Hne.
  destruct (build_huffman_tree_spec (build_freq_table data))
    as (f & l & r & Htree & Hl & Hr & Hnd & Hsyms & Hcount).
  { destruct data as [|b0 data0] eqn:Hdata; [done|]. rewrite <- Hdata in *.
    assert (Hb0 : b0 ∈ data) by (rewrite Hdata; by left).
    pose proof (build_freq_table_pos data b0 Hbytes Hb0) as Hin.
    destruct (decide (Exists (fun f => 0 < f) (build_freq_table data)))
      as [|Hno]; [done|].
    apply not_Exists_Forall in Hno; [|intros x; apply _].
    rewrite positive_syms_nil in Hin; [by apply elem_of_nil in Hin|].
    eapply Forall_impl; [exact Hno|]. simpl. lia. }
  set (root := mkNode f None (Some l) (Some r)) in *.
  assert (Hroot : proper root) by by constructor.
  assert (Hcodes : forall b, b ∈ data -> is_byte b /\
            exists p, (b, p) ∈ leaf_codes root /\
                      build_code_table root !! b = Some p).
  { intros b Hb. split; [by eapply Forall_forall in Hbytes|].
    pose proof (Hsyms b (build_freq_table_pos data b Hbytes Hb)) as Hin.
    apply list_elem_of_fmap in Hin as ([b' p] & -> & Hin).
    exists p. split; [done|]. by apply build_code_table_lookup. }
  destruct (encode_data_spec data (build_code_table root))
    as (bitstream & lastbits & Henc & Hlast & Hlen & Hbits); [|done|].
  { intros b (_ & p & Hin & Hp)%Hcodes. exists p. split; [done|].
    by eapply leaf_codes_bits. }
  by exists f, l, r, lastbits, bitstream.
Qed.

Lemma stream_bits_app (lastbits : Z) (bs junk : list Z) :
  junk <> [] ->
  stream_bits lastbits (bs ++ junk) = unpack_bits bs ++ stream_bits lastbits junk.
Proof.
  intros Hj. induction bs as [|b bs IH]; [done|].
  change (unpack_bits (b :: bs)) with (to_bits 8 b ++ unpack_bits bs).
  rewrite <- app_assoc, <- IH, <- app_comm_cons.
  destruct (bs ++ junk) as [|b' rest] eqn:E; [|done].
  by apply app_eq_nil in E as [_ ?].
Qed.

Lemma huffman_core_trailing (data fr bitstream junk : list Z) (lastbits : Z) :
  is_bytes data ->
  huffman_compress_core data = Ok (fr, lastbits, bitstream) ->
  fr = build_freq_table data /\ is_byte lastbits /\
  huffman_decompress_core fr (bitstream ++ junk) (len data) lastbits = Ok data.
Proof.
  intros Hbytes Hc. destruct (decide (data = [])) as [->|Hne].
  { vm_compute in Hc. injection Hc as <- <- <-. split; [done|].
    split; [unfold is_byte; lia|done]. }
  destruct (huffman_core_nonempty data Hbytes Hne)
    as (f & l & r & lastbits' & bitstream' & Htree & Hl & Hr & Hcodes & Henc
        & Hlast & Hlen & Hbits).
  unfold huffman_compress_core in Hc. rewrite Htree, Henc in Hc.
  injection Hc as <- <- <-. split; [done|]. split; [unfold is_byte; lia|].
  unfold huffman_decompress_core. rewrite Htree.
  assert (HN : len data <> 0) by (unfold len; destruct data; simpl; [done|lia]).
  rewrite (proj2 (Z.eqb_neq _ _)) by done.
  rewrite decode_bitstream_walk by (done || lia).
  pose proof (walk_data (len data) _ f l r data Hl Hr Hcodes [] 0 Hne ltac:(lia))
    as Hw. cbv zeta in Hw.
  destruct (decide (junk = [])) as [->|Hj].
  - rewrite app_nil_r, (encoded_stream_bits _ _ _ _ Hlast Hlen Hbits). by rewrite Hw.
  - rewrite stream_bits_app, Hbits, <- app_assoc, foldM_app, Hw by done.
    cbn [mbind result_bind]. by rewrite walk_returned.
Qed.

(** X6: the decoding core reads no further than the declared number of
    symbols: whatever bytes follow the stream that [huffman_compress_core]
    produced, [huffman_decompress_core] returns the original data. *)
Theorem huffman_core_ignores_trailing_bytes (data fr bitstream junk : list Z)
  (lastbits : Z) :
  is_bytes data ->
  huffman_compress_core data = Ok (fr, lastbits, bitstream) ->
  huffman_decompress_core fr (bitstream ++ junk) (len data) lastbits = Ok data.
Proof. intros Hbytes Hc. by apply huffman_core_trailing. Qed.

Lemma huffman_core_ignores_trailing_bytes_witness :
  huffman_decompress_core (build_freq_table [97; 98; 97]) ([160] ++ [255; 7])
    (len [97; 98; 97]) 3 = Ok [97; 98; 97].
Proof.
  apply huffman_core_ignores_trailing_bytes.
  - repeat constructor; unfold is_byte; lia.
  - vm_compute. reflexivity.
Defined.

Lemma compress_bytes_v1_trailing (data comp junk : list Z) :
  is_bytes data -> compress_bytes_v1 data = Ok comp ->
  decompress_bytes_v1 (comp ++ junk) = Ok data.
Proof.
  intros Hbytes Hcomp.
  destruct (huffman_core_roundtrip data Hbytes)
    as (lastbits & bitstream & Hc & Hlast & _ & _).
  destruct (compress_bytes_v1_inv data lastbits bitstream comp Hc Hcomp)
    as [Hlen Hfr].
  rewrite (compress_bytes_v1_container data lastbits bitstream) in Hcomp
    by (done || (unfold is_byte; lia)).
  injection Hcomp as <-. pose proof (len_nonneg data).
  replace (container_v1 (len data) (build_freq_table data) lastbits bitstream ++ junk)
    with (container_v1 (len data) (build_freq_table data) lastbits (bitstream ++ junk))
    by (unfold container_v1; reassoc).
  rewrite decompress_container_v1; [|lia|apply build_freq_table_length|done].
  by apply huffman_core_trailing.
Qed.

Lemma compress_tokens_trailing (version : Z) (tokens : list (list Z))
  (comp junk : list Z) :
  compress_tokens version tokens = Ok comp ->
  decompress_tokens version (comp ++ junk) = Ok (concat tokens).
Proof.
  intros Hcomp.
  destruct (decide (256 < len (build_vocab tokens).2)) as [Hbig|Hsize].
  { by rewrite compress_tokens_overflow in Hcomp. }
  destruct (token_streams tokens ltac:(lia))
    as (vl & ids & lastbits & bitstream & Hv & Hnd & Hel & Hids & Hnames & Hc
        & Hlast & Hd).
  rewrite Hv in Hsize. simpl in Hsize.
  pose proof (compress_tokens_inv version tokens vl ids lastbits bitstream
                Hv ltac:(lia) Hids Hc comp Hcomp) as Hfit.
  rewrite (compress_tokens_container version tokens vl ids lastbits bitstream
             Hv ltac:(lia) Hids Hc Hlast Hfit) in Hcomp.
  injection Hcomp as <-. destruct Hfit as (Hn & Hfit & Hfr).
  pose proof (len_nonneg tokens).
  destruct (names_bytes vl tokens ids ltac:(lia) Hnames) as [Hbytes Hlen].
  replace (container_tokens version (len tokens) vl (build_freq_table ids)
             lastbits bitstream ++ junk)
    with (container_tokens version (len tokens) vl (build_freq_table ids)
            lastbits (bitstream ++ junk))
    by (unfold container_tokens; reassoc).
  unfold decompress_tokens.
  rewrite read_container_tokens; try done; try lia;
    [|apply build_freq_table_length].
  cbn [mbind result_bind]. rewrite <- Hlen.
  destruct (huffman_core_trailing ids _ bitstream junk lastbits Hbytes Hc)
    as (_ & _ & ->).
  cbn [mbind result_bind]. by apply (lookup_tokens_ok vl tokens ids Hnames []).
Qed.

Lemma decompress_container_v2_trailing (N len_v len_c : Z)
  (fm : list Z) (last_m : Z) (bs_m : list Z)
  (fv : list Z) (last_v : Z) (bs_v : list Z)
  (fc : list Z) (last_c : Z) (bs_c junk : list Z) :
  0 <= N < 2 ^ 64 -> 0 <= len_v < 2 ^ 64 -> 0 <= len_c < 2 ^ 64 ->
  length fm = 256%nat -> length fv = 256%nat -> length fc = 256%nat ->
  Forall (fun f => 0 <= f < 2 ^ 32) fm -> len bs_m < 2 ^ 64 ->
  Forall (fun f => 0 <= f < 2 ^ 32) fv -> len bs_v < 2 ^ 64 ->
  Forall (fun f => 0 <= f < 2 ^ 32) fc -> len bs_c < 2 ^ 64 ->
  decompress_bytes_v2
    (container_v2 N len_v len_c fm last_m bs_m fv last_v bs_v fc last_c bs_c
     ++ junk)
  = (mask ← huffman_decompress_core fm bs_m N last_m;
     vowels ← huffman_decompress_core fv bs_v len_v last_v;
     cons_ ← huffman_decompress_core fc bs_c len_c last_c;
     merge_streams_v2 mask vowels cons_).
Proof.
  intros HN Hlenv Hlenc Hflm Hflv Hflc Hfm Hszm Hfv Hszv Hfc Hszc.
  pose proof (len_nonneg bs_m). pose proof (len_nonneg bs_v).
  pose proof (len_nonneg bs_c). pose proof (len_nonneg junk).
  set (sm := stream_fields fm last_m bs_m).
  set (sv := stream_fields fv last_v bs_v).
  set (sc := stream_fields fc last_c bs_c).
  set (nb := be_digits 8 N).
  set (lv := be_digits 8 len_v).
  set (lc := be_digits 8 len_c).
  set (comp := container_v2 N len_v len_c fm last_m bs_m fv last_v bs_v
                 fc last_c bs_c ++ junk).
  assert (Hcomp : comp = MAGIC ++ [VERSION_STEP2] ++ nb ++ lv ++ lc ++ sm ++ sv
                         ++ sc ++ bs_m ++ bs_v ++ bs_c ++ junk)
    by (subst comp; unfold container_v2; reassoc).
  assert (Hnb : len nb = 8) by (subst nb; unfold len; by rewrite be_digits_length).
  assert (Hlv : len lv = 8) by (subst lv; unfold len; by rewrite be_digits_length).
  assert (Hlc : len lc = 8) by (subst lc; unfold len; by rewrite be_digits_length).
  assert (Hsm : len sm = 1033) by by apply stream_fields_length.
  assert (Hsv : len sv = 1033) by by apply stream_fields_length.
  assert (Hsc : len sc = 1033) by by apply stream_fields_length.
  assert (Hmg : len MAGIC = 3) by done.
  assert (Fn : from_bytes nb = N)
    by (subst nb; apply from_bytes_be_digits; field_range).
  assert (Fv : from_bytes lv = len_v)
    by (subst lv; apply from_bytes_be_digits; field_range).
  assert (Fc : from_bytes lc = len_c)
    by (subst lc; apply from_bytes_be_digits; field_range).
  clearbody comp nb lv lc.
  assert (Hclen : len comp = 3127 + len bs_m + len bs_v + len bs_c + len junk).
  { subst comp. rewrite !len_app, Hnb, Hlv, Hlc, Hsm, Hsv, Hsc, Hmg, len_singleton.
    lia. }
  assert (E1 : slice comp 0 3 = MAGIC).
  { subst comp. apply (slice_at [] MAGIC); done. }
  assert (E2 : get_item comp 3 = Ok VERSION_STEP2).
  { subst comp. apply (get_item_at MAGIC); done. }
  assert (E3 : slice comp 4 12 = nb).
  { replace comp with ((MAGIC ++ [VERSION_STEP2]) ++ nb ++ lv ++ lc ++ sm ++ sv
                        ++ sc ++ bs_m ++ bs_v ++ bs_c ++ junk)
      by (subst comp; reassoc).
    apply slice_at; [done|lia]. }
  assert (E4 : slice comp 12 20 = lv).
  { replace comp with ((MAGIC ++ [VERSION_STEP2] ++ nb) ++ lv ++ lc ++ sm ++ sv
                        ++ sc ++ bs_m ++ bs_v ++ bs_c ++ junk)
      by (subst comp; reassoc).
    apply slice_at; [rewrite !len_app, len_singleton|]; lia. }
  assert (E5 : slice comp 20 28 = lc).
  { replace comp with ((MAGIC ++ [VERSION_STEP2] ++ nb ++ lv) ++ lc ++ sm ++ sv
                        ++ sc ++ bs_m ++ bs_v ++ bs_c ++ junk)
      by (subst comp; reassoc).
    apply slice_at; [rewrite !len_app, len_singleton|]; lia. }
  assert (E6 : read_stream_header comp 28 = Ok (fm, last_m, len bs_m, 1061)).
  { replace comp with ((MAGIC ++ [VERSION_STEP2] ++ nb ++ lv ++ lc) ++ sm
                        ++ (sv ++ sc ++ bs_m ++ bs_v ++ bs_c ++ junk))
      by (subst comp; reassoc).
    subst sm. rewrite read_stream_header_at; [done|done|done|lia|].
    rewrite !len_app, len_singleton. lia. }
  assert (E7 : read_stream_header comp 1061 = Ok (fv, last_v, len bs_v, 2094)).
  { replace comp with ((MAGIC ++ [VERSION_STEP2] ++ nb ++ lv ++ lc ++ sm) ++ sv
                        ++ (sc ++ bs_m ++ bs_v ++ bs_c ++ junk))
      by (subst comp; reassoc).
    subst sv. rewrite read_stream_header_at; [done|done|done|lia|].
    rewrite !len_app, len_singleton. lia. }
  assert (E8 : read_stream_header comp 2094 = Ok (fc, last_c, len bs_c, 3127)).
  { replace comp with ((MAGIC ++ [VERSION_STEP2] ++ nb ++ lv ++ lc ++ sm ++ sv)
                        ++ sc ++ (bs_m ++ bs_v ++ bs_c ++ junk))
      by (subst comp; reassoc).
    subst sc. rewrite read_stream_header_at; [done|done|done|lia|].
    rewrite !len_app, len_singleton. lia. }
  assert (E9 : slice comp 3127 (3127 + len bs_m) = bs_m).
  { replace comp with ((MAGIC ++ [VERSION_STEP2] ++ nb ++ lv ++ lc ++ sm ++ sv ++ sc)
                        ++ bs_m ++ (bs_v ++ bs_c ++ junk))
      by (subst comp; reassoc).
    apply slice_at; [rewrite !len_app, len_singleton|]; lia. }
  assert (E10 : slice comp (3127 + len bs_m) (3127 + len bs_m + len bs_v) = bs_v).
  { replace comp with ((MAGIC ++ [VERSION_STEP2] ++ nb ++ lv ++ lc ++ sm ++ sv ++ sc
                         ++ bs_m) ++ bs_v ++ bs_c ++ junk)
      by (subst comp; reassoc).
    apply slice_at; [rewrite !len_app, len_singleton|]; lia. }
  assert (E11 : slice comp (3127 + len bs_m + len bs_v)
                  (3127 + len bs_m + len bs_v + len bs_c) = bs_c).
  { replace comp with ((MAGIC ++ [VERSION_STEP2] ++ nb ++ lv ++ lc ++ sm ++ sv ++ sc
                         ++ bs_m ++ bs_v) ++ bs_c ++ junk)
      by (subst comp; reassoc).
    apply slice_at; [rewrite !len_app, len_singleton|]; lia. }
  clear Hcomp.
  unfold decompress_bytes_v2. cbv zeta.
  change (3 + 1 + 8 + 8 + 8) with 28.
  rewrite (proj2 (Z.ltb_ge _ _)) by lia.
  change (0 + 3) with 3. rewrite E1. rewrite bool_decide_eq_true_2 by done.
  cbn [negb]. rewrite E2. cbn [mbind result_bind].
  change (negb (VERSION_STEP2 =? VERSION_STEP2)) with false. cbv iota.
  change (3 + 1) with 4. change (4 + 8) with 12. change (12 + 8) with 20.
  change (20 + 8) with 28.
  rewrite E3, E4, E5, E6. cbn [mbind result_bind].
  rewrite E7. cbn [mbind result_bind]. rewrite E8. cbn [mbind result_bind].
  by rewrite E9, E10, E11, Fn, Fv, Fc.
Qed.

Lemma compress_bytes_v2_trailing (data comp junk : list Z) :
  is_bytes data -> compress_bytes_v2 data = Ok comp ->
  decompress_bytes_v2 (comp ++ junk) = Ok data.
Proof.
  intros Hbytes Hcomp.
  destruct (v2_streams data Hbytes)
    as (mask & vowels & cons_ & last_m & bs_m & last_v & bs_v & last_c & bs_c
        & Hsplit & Hcm & Hcv & Hcc & Hlast & _ & Hdec).
  pose proof (compress_bytes_v2_inv _ _ _ _ _ _ _ _ _ _ Hsplit Hcm Hcv Hcc Hlast
                comp Hcomp) as Hfit.
  rewrite (compress_bytes_v2_container _ _ _ _ _ _ _ _ _ _ Hsplit Hcm Hcv Hcc Hlast Hfit)
    in Hcomp.
  injection Hcomp as <-.
  destruct Hfit as (Hn & [Hfm Hsm] & [Hfv Hsv] & [Hfc Hsc]).
  destruct (split_lens _ _ _ _ Hsplit) as [Hl1 Hl2].
  pose proof (len_nonneg data). pose proof (len_nonneg vowels).
  pose proof (len_nonneg cons_).
  rewrite decompress_container_v2_trailing;
    try done; try apply build_freq_table_length; try lia.
  by rewrite <- Hl1.
Qed.

(** X7: the four decoders ignore whatever follows a container: a container
    that the compressor of a format returned, with any bytes appended, still
    decompresses to the original data. *)
Theorem decompress_ignores_trailing_bytes (data junk : list Z) :
  is_bytes data ->
  (forall c, compress_bytes_v1 data = Ok c ->
     decompress_bytes_v1 (c ++ junk) = Ok data) /\
  (forall c, compress_bytes_v2 data = Ok c ->
     decompress_bytes_v2 (c ++ junk) = Ok data) /\
  (forall c, compress_bytes_v3 data = Ok c ->
     decompress_bytes_v3 (c ++ junk) = Ok data) /\
  (forall c, compress_bytes_v4 data = Ok c ->
     decompress_bytes_v4 (c ++ junk) = Ok data).
Proof.
  intros Hbytes. split_and!.
  - intros c. by apply compress_bytes_v1_trailing.
  - intros c. by apply compress_bytes_v2_trailing.
  - intros c Hc. unfold decompress_bytes_v3.
    rewrite (compress_tokens_trailing _ _ _ junk Hc).
    by rewrite tokenize_syllables_concat.
  - intros c Hc. unfold decompress_bytes_v4.
    rewrite (compress_tokens_trailing _ _ _ junk Hc).
    by rewrite tokenize_words_concat.
Qed.

Lemma decompress_ignores_trailing_bytes_witness :
  is_bytes [97; 98; 97] /\
  (exists c, compress_bytes_v1 [97; 98; 97] = Ok c /\
             decompress_bytes_v1 (c ++ [255; 7]) = Ok [97; 98; 97]) /\
  (exists c, compress_bytes_v2 [97; 98; 97] = Ok c /\
             decompress_bytes_v2 (c ++ [255; 7]) = Ok [97; 98; 97]).
Proof.
  assert (Hb : is_bytes [97; 98; 97]) by (repeat constructor; unfold is_byte; lia).
  destruct (decompress_ignores_trailing_bytes [97; 98; 97] [255; 7] Hb)
    as (H1 & H2 & _ & _).
  split; [exact Hb|]. split.
  - destruct (compress_bytes_v1_ok [97; 98; 97] Hb) as [c Hc]; [done|].
    exists c. split; [exact Hc|by apply H1].
  - destruct (compress_bytes_v2_ok [97; 98; 97] Hb) as [c Hc]; [done|].
    exists c. split; [exact Hc|by apply H2].
Defined.

Lemma encode_symbols_missing (codes : gmap Z (list Z)) (data : list Z) :
  (forall s c, codes !! s = Some c -> Forall is_bit c) ->
  (exists b, b ∈ data /\ codes !! b = None) ->
  forall bits st, enc_inv bits st ->
  foldM (encode_symbol codes) data st = Raise KeyError.
Proof.
  intros Hbits. induction data as [|b data IH]; intros (b0 & Hin & Hnone) bits st Hinv.
  - by apply elem_of_nil in Hin.
  - cbn [foldM]. destruct (codes !! b) as [code|] eqn:Hcode.
    + destruct (encode_symbol_inv codes b code Hcode (Hbits b code Hcode) bits st Hinv)
        as (st1 & -> & Hinv1).
      cbn [mbind result_bind]. apply (IH) with (bits := bits ++ code); [|done].
      exists b0. split; [|done].
      apply elem_of_cons in Hin as [->|Hin]; [congruence|done].
    + unfold encode_symbol. by rewrite Hcode.
Qed.

(** X8: with a table whose codes are made of bits, [encode_data] fails
    exactly when some byte of the input has no code, and the failure is the
    [KeyError] of the dictionary lookup. *)
Theorem encode_data_fails_iff_code_missing (data : list Z)
  (codes : gmap Z (list Z)) :
  (forall s c, codes !! s = Some c -> Forall is_bit c) ->
  ((exists b, b ∈ data /\ codes !! b = None) ->
   encode_data data codes = Raise KeyError) /\
  ((forall b, b ∈ data -> is_Some (codes !! b)) ->
   exists bitstream lastbits, encode_data data codes = Ok (bitstream, lastbits)).
Proof.
  intros Hbits. split.
  - intros Hmiss. destruct data as [|b data]; [by destruct Hmiss as (? & ?%elem_of_nil & _)|].
    unfold encode_data.
    by rewrite (encode_symbols_missing codes (b :: data) Hbits Hmiss [] ([], 0, 0)).
  - intros Hall. destruct (decide (data = [])) as [->|Hne]; [by exists [], 0|].
    destruct (encode_data_spec data codes) as (bitstream & lastbits & Henc & _);
      [|done|by exists bitstream, lastbits].
    intros b [code Hcode]%Hall. exists code. split; [done|]. by eapply Hbits.
Qed.

Lemma encode_data_fails_iff_code_missing_witness :
  ((exists b, b ∈ [98; 97] /\ ({[97 := [0]]} : gmap Z (list Z)) !! b = None) ->
   encode_data [98; 97] {[97 := [0]]} = Raise KeyError) /\
  ((forall b, b ∈ [98; 97] -> is_Some (({[97 := [0]]} : gmap Z (list Z)) !! b)) ->
   exists bitstream lastbits,
     encode_data [98; 97] {[97 := [0]]} = Ok (bitstream, lastbits)).
Proof.
  apply encode_data_fails_iff_code_missing.
  intros s c Hc. apply lookup_singleton_Some in Hc as [_ <-].
  repeat constructor.
Defined.

(** *** Containers of one format given to the decoder of another *)

Lemma compress_bytes_v1_header (data comp : list Z) :
  is_bytes data -> compress_bytes_v1 data = Ok comp ->
  exists rest, comp = MAGIC ++ VERSION_STEP1 :: rest /\ 1033 <= len rest.
Proof.
  intros Hbytes Hcomp.
  destruct (huffman_core_roundtrip data Hbytes)
    as (lastbits & bitstream & Hc & Hlast & _ & _).
  destruct (compress_bytes_v1_inv data lastbits bitstream comp Hc Hcomp)
    as [Hlen Hfr].
  rewrite (compress_bytes_v1_container data lastbits bitstream) in Hcomp
    by (done || (unfold is_byte; lia)).
  injection Hcomp as <-. eexists. split; [reflexivity|].
  pose proof (len_nonneg bitstream).
  assert (len (build_freq_table data) = 256)
    by (unfold len; by rewrite build_freq_table_length).
  assert (len (be_digits 8 (len data)) = 8)
    by (unfold len; by rewrite be_digits_length).
  rewrite !len_app, freq_bytes_length, len_singleton. lia.
Qed.

Lemma compress_bytes_v2_header (data comp : list Z) :
  is_bytes data -> compress_bytes_v2 data = Ok comp ->
  exists rest, comp = MAGIC ++ VERSION_STEP2 :: rest /\ 1033 <= len rest.
Proof.
  intros Hbytes Hcomp.
  destruct (v2_streams data Hbytes)
    as (mask & vowels & cons_ & last_m & bs_m & last_v & bs_v & last_c & bs_c
        & Hsplit & Hcm & Hcv & Hcc & Hlast & _ & Hdec).
  pose proof (compress_bytes_v2_inv _ _ _ _ _ _ _ _ _ _ Hsplit Hcm Hcv Hcc Hlast
                comp Hcomp) as Hfit.
  rewrite (compress_bytes_v2_container _ _ _ _ _ _ _ _ _ _ Hsplit Hcm Hcv Hcc Hlast Hfit)
    in Hcomp.
  injection Hcomp as <-. eexists. split; [reflexivity|].
  rewrite !len_app, !stream_fields_length by apply build_freq_table_length.
  pose proof (len_nonneg bs_m). pose proof (len_nonneg bs_v).
  pose proof (len_nonneg bs_c).
  pose proof (len_nonneg (be_digits 8 (len data))).
  pose proof (len_nonneg (be_digits 8 (len vowels))).
  pose proof (len_nonneg (be_digits 8 (len cons_))). lia.
Qed.

Lemma compress_tokens_header (version : Z) (tokens : list (list Z)) (comp : list Z) :
  compress_tokens version tokens = Ok comp ->
  exists rest, comp = MAGIC ++ version :: rest /\ 1033 <= len rest.
Proof.
  intros Hcomp.
  destruct (decide (256 < len (build_vocab tokens).2)) as [Hbig|Hsize].
  { by rewrite compress_tokens_overflow in Hcomp. }
  destruct (token_streams tokens ltac:(lia))
    as (vl & ids & lastbits & bitstream & Hv & Hnd & Hel & Hids & Hnames & Hc
        & Hlast & Hd).
  rewrite Hv in Hsize. simpl in Hsize.
  pose proof (compress_tokens_inv version tokens vl ids lastbits bitstream
                Hv ltac:(lia) Hids Hc comp Hcomp) as Hfit.
  rewrite (compress_tokens_container version tokens vl ids lastbits bitstream
             Hv ltac:(lia) Hids Hc Hlast Hfit) in Hcomp.
  injection Hcomp as <-. eexists. split; [reflexivity|].
  rewrite !len_app, freq_bytes_length, len_singleton.
  pose proof (len_nonneg bitstream). pose proof (len_nonneg (vocab_bytes vl)).
  assert (len (build_freq_table ids) = 256)
    by (unfold len; by rewrite build_freq_table_length).
  assert (len (be_digits 8 (len tokens)) = 8)
    by (unfold len; by rewrite be_digits_length).
  pose proof (len_nonneg (be_digits 2 (len vl))). lia.
Qed.

Lemma header_fields (v : Z) (rest : list Z) :
  len (MAGIC ++ v :: rest) = 4 + len rest /\
  slice (MAGIC ++ v :: rest) 0 3 = MAGIC /\
  get_item (MAGIC ++ v :: rest) 3 = Ok v.
Proof.
  split_and!.
  - rewrite len_app. unfold len. simpl length. lia.
  - apply (slice_at [] MAGIC (v :: rest)); done.
  - by apply (get_item_at MAGIC).
Qed.

Lemma decompress_bytes_v1_version (v : Z) (rest : list Z) :
  1033 <= len rest -> v <> VERSION_STEP1 ->
  decompress_bytes_v1 (MAGIC ++ v :: rest) = Raise (BadVersion v).
Proof.
  intros Hlen Hv. destruct (header_fields v rest) as (Hl & Hm & Hg).
  unfold decompress_bytes_v1. cbv zeta. rewrite Hl.
  rewrite (proj2 (Z.ltb_ge _ _)) by lia.
  change (0 + 3) with 3. rewrite Hm, bool_decide_eq_true_2 by done.
  cbn [negb]. rewrite Hg. cbn [mbind result_bind].
  by rewrite (proj2 (Z.eqb_neq _ _)) by done.
Qed.

Lemma decompress_bytes_v2_version (v : Z) (rest : list Z) :
  1033 <= len rest -> v <> VERSION_STEP2 ->
  decompress_bytes_v2 (MAGIC ++ v :: rest) = Raise (BadVersion v).
Proof.
  intros Hlen Hv. destruct (header_fields v rest) as (Hl & Hm & Hg).
  unfold decompress_bytes_v2. cbv zeta. rewrite Hl.
  rewrite (proj2 (Z.ltb_ge _ _)) by lia.
  change (0 + 3) with 3. rewrite Hm, bool_decide_eq_true_2 by done.
  cbn [negb]. rewrite Hg. cbn [mbind result_bind].
  by rewrite (proj2 (Z.eqb_neq _ _)) by done.
Qed.

Lemma decompress_tokens_version (wanted v : Z) (rest : list Z) :
  1033 <= len rest -> v <> wanted ->
  decompress_tokens wanted (MAGIC ++ v :: rest) = Raise (BadVersion v).
Proof.
  intros Hlen Hv. destruct (header_fields v rest) as (Hl & Hm & Hg).
  unfold decompress_tokens, read_container. cbv zeta. rewrite Hl.
  rewrite (proj2 (Z.ltb_ge _ _)) by lia.
  change (0 + 3) with 3. rewrite Hm, bool_decide_eq_true_2 by done.
  cbn [negb]. rewrite Hg. cbn [mbind result_bind].
  by rewrite (proj2 (Z.eqb_neq _ _)) by done.
Qed.

(** X9: a container is accepted by the decoder of its own format only: the
    decoder of any other format rejects it with the version error, which
    reports the version byte of the container. *)
Theorem decoders_reject_other_formats (data : list Z) :
  is_bytes data ->
  (forall c, compress_bytes_v1 data = Ok c ->
     decompress_bytes_v2 c = Raise (BadVersion 1) /\
     decompress_bytes_v3 c = Raise (BadVersion 1) /\
     decompress_bytes_v4 c = Raise (BadVersion 1)) /\
  (forall c, compress_bytes_v2 data = Ok c ->
     decompress_bytes_v1 c = Raise (BadVersion 2) /\
     decompress_bytes_v3 c = Raise (BadVersion 2) /\
     decompress_bytes_v4 c = Raise (BadVersion 2)) /\
  (forall c, compress_bytes_v3 data = Ok c ->
     decompress_bytes_v1 c = Raise (BadVersion 3) /\
     decompress_bytes_v2 c = Raise (BadVersion 3) /\
     decompress_bytes_v4 c = Raise (BadVersion 3)) /\
  (forall c, compress_bytes_v4 data = Ok c ->
     decompress_bytes_v1 c = Raise (BadVersion 4) /\
     decompress_bytes_v2 c = Raise (BadVersion 4) /\
     decompress_bytes_v3 c = Raise (BadVersion 4)).
Proof.
  intros Hbytes. unfold decompress_bytes_v3, decompress_bytes_v4. split_and!.
  - intros c (rest & -> & Hlen)%compress_bytes_v1_header; [|done].
    split_and!; [apply decompress_bytes_v2_version
                |apply decompress_tokens_version..]; done.
  - intros c (rest & -> & Hlen)%compress_bytes_v2_header; [|done].
    split_and!; [apply decompress_bytes_v1_version
                |apply decompress_tokens_version..]; done.
  - intros c (rest & -> & Hlen)%compress_tokens_header.
    split_and!; [apply decompress_bytes_v1_version
                |apply decompress_bytes_v2_version
                |apply decompress_tokens_version]; done.
  - intros c (rest & -> & Hlen)%compress_tokens_header.
    split_and!; [apply decompress_bytes_v1_version
                |apply decompress_bytes_v2_version
                |apply decompress_tokens_version]; done.
Qed.

Lemma decoders_reject_other_formats_witness :
  is_bytes [97; 98; 97] /\
  (exists c, compress_bytes_v1 [97; 98; 97] = Ok c /\
             decompress_bytes_v2 c = Raise (BadVersion 1)) /\
  (exists c, compress_bytes_v2 [97; 98; 97] = Ok c /\
             decompress_bytes_v1 c = Raise (BadVersion 2)).
Proof.
  assert (Hb : is_bytes [97; 98; 97]) by (repeat constructor; unfold is_byte; lia).
  destruct (decoders_reject_other_formats [97; 98; 97] Hb) as (H1 & H2 & _ & _).
  split; [exact Hb|]. split.
  - destruct (compress_bytes_v1_ok [97; 98; 97] Hb) as [c Hc]; [done|].
    exists c. split; [exact Hc|by apply H1].
  - destruct (compress_bytes_v2_ok [97; 98; 97] Hb) as [c Hc]; [done|].
    exists c. split; [exact Hc|by apply H2].
Defined.

(** *** The three streams of format 2 *)

(** X10: [split_streams_v2] keeps the order of the bytes: the vowel stream is
    the subsequence of the vowels of the input, the other stream is the
    subsequence of the remaining bytes, and the mask classifies every byte in
    place as V, C (another letter) or O. *)
Theorem split_streams_v2_subsequences (data : list Z) :
  (split_streams_v2 data).1.2 = filter (fun b => b ∈ VOWELS) data /\
  (split_streams_v2 data).2 = filter (fun b => b ∉ VOWELS) data /\
  (split_streams_v2 data).1.1
  = (fun b => if bool_decide (b ∈ VOWELS) then ord "V"
              else if isalpha b then ord "C" else ord "O") <$> data.
Proof.
  rewrite split_streams_v2_spec.
  induction data as [|b data (IHv & IHc & IHm)]; [done|].
  cbn [split_spec]. destruct (split_spec data) as [[m v] c]. simpl in IHv, IHc, IHm.
  rewrite !filter_cons, fmap_cons. case_bool_decide as Hb.
  - rewrite decide_True, decide_False by tauto. simpl. by rewrite IHv, IHc, IHm.
  - rewrite decide_False, decide_True by tauto.
    destruct (isalpha b); simpl; by rewrite IHv, IHc, IHm.
Qed.

Lemma merge_step_vowel (vowels cons_ out : list Z) (iv ic m : Z) :
  m = ord "V" -> 0 <= iv ->
  merge_step vowels cons_ (out, iv, ic) m
  = match vowels !! Z.to_nat iv with
    | Some b => Ok (out ++ [b], iv + 1, ic)
    | None => Raise IndexError
    end.
Proof.
  intros -> Hiv. unfold merge_step, get_item. rewrite Z.eqb_refl.
  rewrite (proj2 (Z.ltb_ge _ _)) by lia. by destruct (vowels !! Z.to_nat iv).
Qed.

Lemma merge_step_other (vowels cons_ out : list Z) (iv ic m : Z) :
  m <> ord "V" -> 0 <= ic ->
  merge_step vowels cons_ (out, iv, ic) m
  = match cons_ !! Z.to_nat ic with
    | Some b => Ok (out ++ [b], iv, ic + 1)
    | None => Raise IndexError
    end.
Proof.
  intros Hm Hic. unfold merge_step, get_item.
  rewrite (proj2 (Z.eqb_neq _ _)) by done.
  rewrite (proj2 (Z.ltb_ge _ _)) by lia. by destruct (cons_ !! Z.to_nat ic).
Qed.

Lemma merge_fold (vowels cons_ : list Z) (mask : list Z) :
  forall out iv ic, 0 <= iv <= len vowels -> 0 <= ic <= len cons_ ->
  match foldM (merge_step vowels cons_) mask (out, iv, ic) with
  | Ok (out', iv', ic') =>
      iv + len (filter (fun m => m = ord "V") mask) <= len vowels /\
      ic + len (filter (fun m => m <> ord "V") mask) <= len cons_ /\
      len out' = len out + len mask
  | Raise e =>
      e = IndexError /\
      (len vowels < iv + len (filter (fun m => m = ord "V") mask) \/
       len cons_ < ic + len (filter (fun m => m <> ord "V") mask))
  end.
Proof.
  induction mask as [|m mask IH]; intros out iv ic Hiv Hic.
  - cbn. unfold len in *. simpl. split_and!; (done || lia).
  - rewrite !filter_cons. cbn [foldM].
    pose proof (len_nonneg (filter (fun m => m = ord "V") mask)).
    pose proof (len_nonneg (filter (fun m => m <> ord "V") mask)).
    destruct (decide (m = ord "V")) as [Hm|Hm].
    + rewrite decide_False by tauto.
      rewrite merge_step_vowel by (done || lia).
      destruct (vowels !! Z.to_nat iv) as [b|] eqn:Hb.
      * apply lookup_lt_Some in Hb. cbn [mbind result_bind].
        specialize (IH (out ++ [b]) (iv + 1) ic ltac:(unfold len; lia) Hic).
        destruct (foldM (merge_step vowels cons_) mask (out ++ [b], iv + 1, ic))
          as [[[out' iv'] ic']|e].
        -- destruct IH as (H1 & H2 & H3). rewrite len_app, len_singleton in H3.
           unfold len in *. simpl length. split_and!; lia.
        -- destruct IH as [-> IH]. split; [done|].
           unfold len in *. simpl length. lia.
      * apply lookup_ge_None in Hb. cbn [mbind result_bind]. split; [done|].
        unfold len in *. simpl length. lia.
    + rewrite decide_True by tauto.
      rewrite merge_step_other by (done || lia).
      destruct (cons_ !! Z.to_nat ic) as [b|] eqn:Hb.
      * apply lookup_lt_Some in Hb. cbn [mbind result_bind].
        specialize (IH (out ++ [b]) iv (ic + 1) Hiv ltac:(unfold len; lia)).
        destruct (foldM (merge_step vowels cons_) mask (out ++ [b], iv, ic + 1))
          as [[[out' iv'] ic']|e].
        -- destruct IH as (H1 & H2 & H3). rewrite len_app, len_singleton in H3.
           unfold len in *. simpl length. split_and!; lia.
        -- destruct IH as [-> IH]. split; [done|].
           unfold len in *. simpl length. lia.
      * apply lookup_ge_None in Hb. cbn [mbind result_bind]. split; [done|].
        unfold len in *. simpl length. lia.
Qed.

(** X11: [merge_streams_v2] returns one byte per mask byte when the vowel
    stream has a byte for every V of the mask and the other stream has a byte
    for every other mask byte; otherwise a stream runs out and the result is
    the [IndexError] of the failed lookup. *)
Theorem merge_streams_v2_result (mask vowels cons_ : list Z) :
  let nv := len (filter (fun m => m = ord "V") mask) in
  let nc := len (filter (fun m => m <> ord "V") mask) in
  match merge_streams_v2 mask vowels cons_ with
  | Ok out => nv <= len vowels /\ nc <= len cons_ /\ len out = len mask
  | Raise e => e = IndexError /\ (len vowels < nv \/ len cons_ < nc)
  end.
Proof.
  cbv zeta. unfold merge_streams_v2.
  pose proof (len_nonneg vowels). pose proof (len_nonneg cons_).
  pose proof (merge_fold vowels cons_ mask [] 0 0 ltac:(lia) ltac:(lia)) as H1.
  destruct (foldM (merge_step vowels cons_) mask ([], 0, 0)) as [[[out iv] ic]|e];
    cbn [mbind result_bind].
  - destruct H1 as (? & ? & ?). unfold len in *. simpl in *. lia.
  - destruct H1 as [-> ?]. split; [done|lia].
Qed.

(** *** The tokenizers *)

Lemma group_runs (data : list Z) :
  Forall (fun tok => tok <> [] /\
            forall b c, b ∈ tok -> c ∈ tok -> _is_ascii_letter b = _is_ascii_letter c)
         (group data) /\
  alternating (group data).
Proof.
  induction data as [|b data [IH1 IH2]]; [by split; [constructor|]|].
  cbn [group]. destruct (group data) as [|[|c tok] toks] eqn:Hg.
  - split; [|done]. repeat constructor; [done|].
    intros x y ->%list_elem_of_singleton ->%list_elem_of_singleton. done.
  - by apply Forall_cons in IH1 as [[? _] _].
  - apply Forall_cons in IH1 as [[_ Hhom] IH1].
    destruct (Bool.eqb (_is_ascii_letter b) (_is_ascii_letter c)) eqn:E.
    + apply Bool.eqb_prop in E.
      assert (Hb : forall y, y ∈ c :: tok -> _is_ascii_letter b = _is_ascii_letter y).
      { intros y Hy. rewrite E. apply Hhom; [by left|done]. }
      split.
      * constructor; [|done]. split; [done|].
        intros x y [->|Hx]%elem_of_cons [->|Hy]%elem_of_cons; auto.
        symmetry. auto.
      * destruct toks as [|t2 toks]; [done|]. destruct IH2 as [Halt IH2].
        split; [|done]. intros x y [->|Hx]%elem_of_cons Hy; [|by apply Halt].
        rewrite E. apply Halt; [by left|done].
    + apply Bool.eqb_false_iff in E. split.
      * constructor; [|by constructor]. split; [done|].
        by intros x y ->%list_elem_of_singleton ->%list_elem_of_singleton.
      * split; [|done]. intros x y ->%list_elem_of_singleton Hy.
        rewrite <- (Hhom c y) by (by left || done). done.
Qed.

(** X12: the tokens of format 4 are the maximal runs of the input: no token
    is empty, a token holds either ASCII letters only or no ASCII letter, and
    of two neighbouring tokens one is a run of letters and the other is
    not. *)
Theorem tokenize_words_runs (data : list Z) :
  Forall (fun tok => tok <> [] /\
            forall b c, b ∈ tok -> c ∈ tok -> _is_ascii_letter b = _is_ascii_letter c)
         (tokenize_words_and_other data) /\
  alternating (tokenize_words_and_other data).
Proof. rewrite tokenize_words_group. apply group_runs. Qed.

Lemma syllable_fold_shape (word : list Z) : forall syllables current,
  Forall closed_syllable syllables ->
  Forall (fun b => _is_vowel_byte b = false) current ->
  Forall closed_syllable (fold_left syllable_step word (syllables, current)).1 /\
  Forall (fun b => _is_vowel_byte b = false)
         (fold_left syllable_step word (syllables, current)).2.
Proof.
  induction word as [|b word IH]; intros syllables current Hs Hc; [done|].
  cbn [fold_left syllable_step]. destruct (_is_vowel_byte b) eqn:Hb.
  - apply IH; [|constructor]. apply Forall_app. split; [done|].
    constructor; [|constructor]. by exists current, b.
  - apply IH; [done|]. apply Forall_app. split; [done|]. by repeat constructor.
Qed.

(** X13: [split_word_into_syllables] cuts a word after each vowel: every
    syllable but possibly the last ends with a vowel and has no other vowel;
    the last one may instead be a non-empty tail without any vowel. The
    syllables put together are the word. *)
Theorem split_word_into_syllables_shape (word : list Z) :
  concat (split_word_into_syllables word) = word /\
  exists syllables tail,
    split_word_into_syllables word
      = syllables ++ (if bool_decide (tail = []) then [] else [tail]) /\
    Forall closed_syllable syllables /\
    Forall (fun b => _is_vowel_byte b = false) tail.
Proof.
  split; [apply split_word_into_syllables_concat|].
  unfold split_word_into_syllables.
  destruct (syllable_fold_shape word [] []) as [Hs Hc]; [constructor..|].
  destruct (fold_left syllable_step word ([], [])) as [syllables current].
  simpl in Hs, Hc. exists syllables, current. split; [|done].
  destruct current; [by rewrite app_nil_r|done].
Qed.

(** X14: the tokens of format 3 are those of format 4 with every run of
    letters cut into its syllables; the other runs are kept whole. *)
Theorem tokenize_syllables_refines_words (data : list Z) :
  tokenize_syllables_and_other data
  = tokenize_words_and_other data
      ≫= (fun tok => if _is_ascii_letter (default 0 (head tok))
                     then split_word_into_syllables tok else [tok]).
Proof. by rewrite tokenize_syllables_group, tokenize_words_group. Qed.

(** *** The vocabulary *)

Lemma dict_get_indexed_lookup (vl : list (list Z)) : forall k i tok,
  NoDup vl -> vl !! i = Some tok ->
  dict_get (indexed k vl) tok = Some (Z.of_nat (k + i)).
Proof.
  induction vl as [|t vl IH]; intros k i tok Hnd Hi; [done|].
  apply NoDup_cons in Hnd as [Ht Hnd].
  rewrite indexed_cons. cbn [dict_get]. destruct i as [|i].
  - simpl in Hi. injection Hi as ->. rewrite bool_decide_eq_true_2 by done.
    by rewrite Nat.add_0_r.
  - simpl in Hi. rewrite bool_decide_eq_false_2.
    + rewrite (IH (S k) i tok Hnd Hi). do 2 f_equal. lia.
    + intros ->. by apply list_elem_of_lookup_2 in Hi.
Qed.

Lemma build_vocab_fold_prefix (tokens : list (list Z)) : forall vl,
  vl `prefix_of` (fold_left vocab_step tokens (indexed 0 vl, vl)).2.
Proof.
  induction tokens as [|tok tokens IH]; intros vl; [done|].
  cbn [fold_left vocab_step].
  destruct (dict_get (indexed 0 vl) tok) as [id|]; [apply IH|].
  rewrite indexed_snoc. etrans; [|apply IH]. by apply prefix_app_r.
Qed.

(** X15: [build_vocab] lists every token of the input once; the dictionary
    maps a token to its position in the list and has no other key; and the
    numbering is stable: tokenizing a longer input only appends to the
    list. *)
Theorem build_vocab_ids (tokens : list (list Z)) :
  NoDup (build_vocab tokens).2 /\
  (forall tok, tok ∈ (build_vocab tokens).2 <-> tok ∈ tokens) /\
  (forall tok id, dict_get (build_vocab tokens).1 tok = Some id
     <-> 0 <= id /\ (build_vocab tokens).2 !! Z.to_nat id = Some tok) /\
  (forall more, (build_vocab tokens).2 `prefix_of` (build_vocab (tokens ++ more)).2).
Proof.
  destruct (build_vocab_spec tokens) as (vl & Hv & Hnd & Hel).
  split_and!.
  - by rewrite Hv.
  - by rewrite Hv.
  - rewrite Hv. cbn [fst snd]. intros tok id. split.
    + intros (i & -> & Hi)%dict_get_indexed_Some. split; [lia|].
      by rewrite Nat.add_0_l, Nat2Z.id.
    + intros [Hid Hi]. rewrite (dict_get_indexed_lookup vl 0 _ tok Hnd Hi).
      f_equal. lia.
  - intros more. unfold build_vocab at 2. rewrite fold_left_app.
    fold (build_vocab tokens). rewrite Hv. apply build_vocab_fold_prefix.
Qed.

(** *** The first release, [gcc_huffman_step1.py] *)

Lemma foldM_ext {A B} (f g : A -> B -> result A) (l : list B) (a : A) :
  (forall a b, f a b = g a b) -> foldM f l a = foldM g l a.
Proof.
  intros Hfg. revert a. induction l as [|b l IH]; intros a; [done|].
  cbn [foldM]. rewrite Hfg. destruct (g a b); [apply IH|done].
Qed.

Lemma step1_compress_container (data : list Z) :
  is_bytes data -> Step1.compress_bytes data = compress_bytes_v1 data.
Proof.
  intros Hbytes. destruct (decide (data = [])) as [->|Hne].
  { vm_compute. reflexivity. }
  destruct (huffman_core_nonempty data Hbytes Hne)
    as (f & l & r & lastbits & bitstream & Htree & _ & _ & _ & Henc & _).
  assert (Henc1 : Step1.encode_data data
                    (build_code_table (mkNode f None (Some l) (Some r)))
                  = Ok (bitstream, lastbits)).
  { rewrite <- Henc. by destruct data. }
  unfold Step1.compress_bytes, compress_bytes_v1, huffman_compress_core.
  cbv zeta. rewrite Htree, Henc, Henc1. cbn [mbind result_bind].
  destruct (to_bytes 8 (len data)) as [nb|e]; [|done]. cbn [mbind result_bind].
  by destruct (freq_to_bytes _ _).
Qed.

(** X16: the compressor of the first release writes byte for byte the
    container that [compress_bytes_v1] writes, and fails when it fails. *)
Theorem step1_writes_format_v1 (data : list Z) :
  is_bytes data -> Step1.compress_bytes data = compress_bytes_v1 data.
Proof. apply step1_compress_container. Qed.

Lemma step1_writes_format_v1_witness :
  Step1.compress_bytes [97; 98; 97] = compress_bytes_v1 [97; 98; 97].
Proof.
  apply step1_writes_format_v1. repeat constructor; unfold is_byte; lia.
Defined.

Lemma read_freq_idx (n : nat) (comp : list Z) : forall idx acc,
  (read_freq n comp idx acc).2 = idx + 4 * Z.of_nat n.
Proof.
  induction n as [|n IH]; intros idx acc; [simpl; lia|].
  cbn [read_freq]. rewrite IH. lia.
Qed.

Lemma step1_decode_byte (root : HuffmanNode) (N lastbits total : Z) :
  lastbits <> 0 ->
  forall st ib, Step1.decode_byte root N lastbits total st ib
                = decode_byte root N lastbits total st ib.
Proof.
  intros Hl st [i byte]. unfold Step1.decode_byte, decode_byte.
  by rewrite (proj2 (Z.eqb_neq _ _) Hl), andb_true_r.
Qed.

Lemma step1_decompress_agrees (comp : list Z) :
  get_item comp 1036 <> Ok 0 ->
  Step1.decompress_bytes comp = decompress_bytes_v1 comp.
Proof.
  intros Hlast. unfold Step1.decompress_bytes, decompress_bytes_v1. cbv zeta.
  destruct (len comp <? _); [done|]. destruct (negb (bool_decide _)); [done|].
  destruct (get_item comp (0 + 3)) as [version|e]; [|done].
  cbn [mbind result_bind]. change Step1.VERSION with VERSION_STEP1.
  destruct (negb (version =? VERSION_STEP1)); [done|].
  pose proof (read_freq_idx 256 comp (0 + 3 + 1 + 8) []) as Hidx.
  destruct (read_freq 256 comp (0 + 3 + 1 + 8) []) as [fr idx].
  simpl in Hidx. subst idx.
  change (0 + 3 + 1 + 8 + 4 * Z.of_nat 256) with 1036.
  destruct (get_item comp 1036) as [lastbits|e]; [|done].
  cbn [mbind result_bind].
  assert (Hl : lastbits <> 0) by (intros ->; by apply Hlast).
  unfold huffman_decompress_core, decode_bitstream.
  destruct (_ =? 0); [by destruct (build_huffman_tree fr)|].
  destruct (build_huffman_tree fr) as [root|]; [|done].
  by rewrite (foldM_ext _ _ _ _ (step1_decode_byte root _ lastbits _ Hl)).
Qed.

(** X17: the decoder of the first release and [decompress_bytes_v1] return
    the same result, or raise the same error, on every input whose LASTBITS
    byte (at offset 1036) is not 0. *)
Theorem step1_decoder_agrees_with_v1 (comp : list Z) :
  get_item comp 1036 <> Ok 0 ->
  Step1.decompress_bytes comp = decompress_bytes_v1 comp.
Proof. apply step1_decompress_agrees. Qed.

Lemma step1_decoder_agrees_with_v1_witness :
  Step1.decompress_bytes (container_v1 3 (build_freq_table [97; 98; 97]) 3 [160])
  = decompress_bytes_v1 (container_v1 3 (build_freq_table [97; 98; 97]) 3 [160]).
Proof. apply step1_decoder_agrees_with_v1. vm_compute. discriminate. Defined.

Lemma container_v1_lastbits (N : Z) (fr : list Z) (lastbits : Z) (bitstream : list Z) :
  length fr = 256%nat ->
  get_item (container_v1 N fr lastbits bitstream) 1036 = Ok lastbits.
Proof.
  intros Hfr.
  replace (container_v1 N fr lastbits bitstream)
    with ((MAGIC ++ [VERSION_STEP1] ++ be_digits 8 N ++ freq_bytes fr)
          ++ lastbits :: bitstream)
    by (unfold container_v1; reassoc).
  apply get_item_at. rewrite !len_app, freq_bytes_length, len_singleton.
  unfold len. rewrite be_digits_length, Hfr. simpl length. lia.
Qed.

(** X18: the first release round-trips: whatever its compressor returns,
    its decompressor turns back into the input. *)
Theorem step1_roundtrip (data comp : list Z) :
  is_bytes data -> Step1.compress_bytes data = Ok comp ->
  Step1.decompress_bytes comp = Ok data.
Proof.
  intros Hbytes Hcomp. destruct (decide (data = [])) as [->|Hne].
  { vm_compute in Hcomp. injection Hcomp as <-. vm_compute. reflexivity. }
  rewrite step1_compress_container in Hcomp by done.
  rewrite step1_decompress_agrees; [by apply compress_bytes_v1_roundtrip|].
  destruct (huffman_core_nonempty data Hbytes Hne)
    as (f & l & r & lastbits & bitstream & Htree & _ & _ & _ & Henc & Hlast & _).
  assert (Hc : huffman_compress_core data
               = Ok (build_freq_table data, lastbits, bitstream)).
  { unfold huffman_compress_core. by rewrite Htree, Henc. }
  destruct (compress_bytes_v1_inv data lastbits bitstream comp Hc Hcomp)
    as [Hlen Hfr].
  rewrite (compress_bytes_v1_container data lastbits bitstream) in Hcomp
    by (done || (unfold is_byte; lia)).
  injection Hcomp as <-.
  rewrite container_v1_lastbits by apply build_freq_table_length.
  intros [= ->]. lia.
Qed.

Lemma step1_roundtrip_witness :
  exists comp, Step1.compress_bytes [97; 98; 97] = Ok comp /\
               Step1.decompress_bytes comp = Ok [97; 98; 97].
Proof.
  assert (Hb : is_bytes [97; 98; 97]) by (repeat constructor; unfold is_byte; lia).
  destruct (compress_bytes_v1_ok [97; 98; 97] Hb) as [c Hc]; [done|].
  rewrite <- step1_compress_container in Hc by done.
  exists c. split; [exact Hc|]. by apply (step1_roundtrip [97; 98; 97]).
Defined.

(** *** Decoding untrusted input *)

Lemma positive_syms_upper (sym : Z) (fr : list Z) (x : Z) :
  x ∈ positive_syms sym fr -> x < sym + len fr.
Proof.
  revert sym. induction fr as [|f fr IH]; intros sym; simpl.
  - by intros ?%elem_of_nil.
  - unfold len in *. simpl length. destruct (0 <? f).
    + intros [->|Hx%IH]%elem_of_cons; lia.
    + intros Hx%IH. lia.
Qed.

Lemma build_huffman_tree_walkable (fr : list Z) (root : HuffmanNode) :
  (length fr <= 256)%nat -> build_huffman_tree fr = Some root ->
  walkable root /\ is_leaf root = false.
Proof.
  intros Hlen Hb. pose proof (build_huffman_tree_syms fr root Hb) as [_ Hsyms].
  apply build_huffman_tree_items in Hb as (Hw & Hleaf & _).
  split; [|done]. split; [by apply weighted_proper|].
  assert (Hpos : forall s, s ∈ positive_syms 0 fr -> is_byte s).
  { intros s Hs. pose proof (positive_syms_lower _ _ _ Hs).
    pose proof (positive_syms_upper _ _ _ Hs). unfold is_byte, len in *. lia. }
  apply Forall_forall. intros s Hs.
  destruct Hsyms as [[_ Hp]|(s0 & Hs0 & Hp)]; rewrite Hp in Hs.
  - by apply Hpos.
  - apply elem_of_cons in Hs as [->|Hs].
    + unfold is_byte. apply Z.mod_pos_bound. lia.
    + apply Hpos. by rewrite Hs0.
Qed.

Lemma walkable_child (f : Z) (l r : HuffmanNode) :
  walkable (mkNode f None (Some l) (Some r)) -> walkable l /\ walkable r.
Proof.
  intros [Hp Hs]. rewrite leaf_syms_internal in Hs.
  apply Forall_app in Hs as [Hl Hr].
  inversion Hp as [|? ? ? Hpl Hpr]; subst. by repeat split.
Qed.

Lemma decode_bit_safe (root : HuffmanNode) (N byte : Z) (st : dec_state) (j : Z) :
  walkable root -> is_leaf root = false -> dec_inv N st ->
  match decode_bit root N byte st j with
  | Ok st' => dec_inv N st'
  | Raise e => e = NegativeShift /\ 7 < j
  end.
Proof.
  intros Hroot Hrleaf Hinv. destruct st as [out node t|out]; [|done].
  destruct Hinv as (Hout & Hlen & Ht & Hnode & Hleaf).
  unfold decode_bit, py_rshift. destruct (7 - j <? 0) eqn:Hj.
  { cbn [mbind result_bind]. split; [done|lia]. }
  cbn [mbind result_bind].
  destruct Hnode as [Hp Hs]. destruct Hp as [f s|f l r Hl Hr]; [done|].
  destruct (walkable_child f l r) as [Hwl Hwr]; [by split; [constructor|]|].
  assert (Hchild : forall child, walkable child ->
            match (if is_leaf child then
                     match symbol child with
                     | Some s =>
                         out ← bytearray_append out s;
                         if t + 1 =? N then Ok (Returned out)
                         else Ok (Running out root (t + 1))
                     | None => Raise AttributeError
                     end
                   else Ok (Running out child t)) with
            | Ok st' => dec_inv N st'
            | Raise e => e = NegativeShift /\ 7 < j
            end).
  { intros child [Hpc Hsc]. destruct Hpc as [fc sc|fc lc rc Hlc Hrc].
    - cbn [is_leaf leaf_node symbol left right].
      apply Forall_cons in Hsc as [Hsc _]. rewrite bytearray_append_ok by done.
      cbn [mbind result_bind].
      assert (Hout' : is_bytes (out ++ [sc]))
        by (apply Forall_app; split; [done|by constructor]).
      assert (Hlen' : len (out ++ [sc]) = t + 1)
        by (rewrite len_app, len_singleton; lia).
      destruct (t + 1 =? N) eqn:HN.
      + apply Z.eqb_eq in HN. simpl. split; [done|lia].
      + apply Z.eqb_neq in HN. simpl. split_and!; try done. lia.
    - cbn [is_leaf]. simpl. split_and!; try done. split; [by constructor|done]. }
  cbn [left right]. destruct (Z.land _ 1 =? 0); by apply Hchild.
Qed.

Lemma decode_bits_safe (root : HuffmanNode) (N byte : Z) (js : list Z) :
  walkable root -> is_leaf root = false ->
  forall st, dec_inv N st ->
  match foldM (decode_bit root N byte) js st with
  | Ok st' => dec_inv N st'
  | Raise e => e = NegativeShift /\ exists j, j ∈ js /\ 7 < j
  end.
Proof.
  intros Hroot Hleaf. induction js as [|j js IH]; intros st Hinv; [done|].
  cbn [foldM]. pose proof (decode_bit_safe root N byte st j Hroot Hleaf Hinv) as Hstep.
  destruct (decode_bit root N byte st j) as [st1|e]; cbn [mbind result_bind].
  - specialize (IH st1 Hstep).
    destruct (foldM (decode_bit root N byte) js st1) as [st2|e]; [done|].
    destruct IH as (-> & j' & Hj' & Hlt). split; [done|].
    exists j'. split; [by right|done].
  - destruct Hstep as [-> Hlt]. split; [done|]. exists j. split; [by left|done].
Qed.

Lemma decode_bytes_safe (root : HuffmanNode) (N lastbits total : Z)
  (ibs : list (Z * Z)) :
  walkable root -> is_leaf root = false ->
  forall st, dec_inv N st ->
  match foldM (decode_byte root N lastbits total) ibs st with
  | Ok st' => dec_inv N st'
  | Raise e => e = NegativeShift /\ 8 < lastbits
  end.
Proof.
  intros Hroot Hleaf. induction ibs as [|[i byte] ibs IH]; intros st Hinv; [done|].
  cbn [foldM].
  set (bits := if (i =? total - 1) && negb (lastbits =? 0) then lastbits else 8).
  assert (Hbyte : decode_byte root N lastbits total st (i, byte)
                  = foldM (decode_bit root N byte) (seqZ 0 bits) st) by done.
  rewrite Hbyte. clear Hbyte.
  pose proof (decode_bits_safe root N byte (seqZ 0 bits) Hroot Hleaf st Hinv) as Hstep.
  destruct (foldM (decode_bit root N byte) (seqZ 0 bits) st) as [st1|e];
    cbn [mbind result_bind].
  - by apply IH.
  - destruct Hstep as (-> & j & Hj & Hlt). split; [done|].
    apply elem_of_seqZ in Hj. subst bits.
    destruct ((i =? total - 1) && negb (lastbits =? 0)); lia.
Qed.

Lemma huffman_decompress_core_safe (fr bitstream : list Z) (N lastbits : Z) :
  (length fr <= 256)%nat -> 0 <= N ->
  match huffman_decompress_core fr bitstream N lastbits with
  | Ok out => is_bytes out /\ len out <= N
  | Raise e => e = NegativeShift /\ 8 < lastbits
  end.
Proof.
  intros Hfr HN. unfold huffman_decompress_core.
  destruct (build_huffman_tree fr) as [root|] eqn:Hb;
    [|split; [constructor|unfold len; simpl; lia]].
  destruct (N =? 0) eqn:HN0; [split; [constructor|unfold len; simpl; lia]|].
  apply Z.eqb_neq in HN0. unfold decode_bitstream.
  rewrite (proj2 (Z.eqb_neq _ _)) by done.
  destruct (build_huffman_tree_walkable fr root Hfr Hb) as [Hroot Hleaf].
  pose proof (decode_bytes_safe root N lastbits (len bitstream) (enumerate bitstream)
                Hroot Hleaf (Running [] root 0)) as Hdec.
  destruct (foldM _ (enumerate bitstream) _) as [st|e]; cbn [mbind result_bind].
  - destruct st as [out node t|out]; simpl in Hdec.
    + destruct Hdec as (? & ? & ? & _); [|split; [done|lia]].
      split_and!; try done; try lia. constructor.
    + destruct Hdec as (? & ?); [|split; [done|lia]].
      split_and!; try done; try lia. constructor.
  - apply Hdec. simpl. split_and!; try done; try lia. constructor.
Qed.

(** X19: the decoding core is safe on any frequency table of at most 256
    entries and any stream: it returns at most [N] bytes, each in range, or
    fails with the negative-shift error, and that only when [lastbits] is
    larger than 8. It never reads a missing child or symbol of the tree. *)
Theorem huffman_decompress_core_total (fr bitstream : list Z) (N lastbits : Z) :
  (length fr <= 256)%nat -> 0 <= N ->
  match huffman_decompress_core fr bitstream N lastbits with
  | Ok out => is_bytes out /\ len out <= N
  | Raise e => e = NegativeShift /\ 8 < lastbits
  end.
Proof. apply huffman_decompress_core_safe. Qed.

Lemma huffman_decompress_core_total_witness :
  match huffman_decompress_core (build_freq_table [97; 98; 97]) [160; 255] 3 3 with
  | Ok out => is_bytes out /\ len out <= 3
  | Raise e => e = NegativeShift /\ 8 < 3
  end.
Proof.
  apply huffman_decompress_core_total; [|lia].
  rewrite build_freq_table_length. lia.
Defined.

Lemma get_item_ok (l : list Z) (i : Z) :
  0 <= i < len l -> exists x, get_item l i = Ok x /\ x ∈ l.
Proof.
  intros Hi. unfold get_item. rewrite (proj2 (Z.ltb_ge _ _)) by lia.
  destruct (l !! Z.to_nat i) as [x|] eqn:Hx.
  - exists x. split; [done|]. by eapply list_elem_of_lookup_2.
  - apply lookup_ge_None in Hx. unfold len in Hi. lia.
Qed.

Lemma read_freq_length (n : nat) (comp : list Z) : forall idx acc,
  length (read_freq n comp idx acc).1 = (length acc + n)%nat.
Proof.
  induction n as [|n IH]; intros idx acc; [simpl; lia|].
  cbn [read_freq]. rewrite IH, length_app. simpl. lia.
Qed.

Lemma from_bytes_nonneg (bs : list Z) : is_bytes bs -> 0 <= from_bytes bs.
Proof.
  unfold from_bytes. intros Hbs.
  assert (H : forall acc, 0 <= acc ->
            0 <= fold_left (fun acc b => acc * 256 + b) bs acc); [|by apply H].
  induction Hbs as [|b bs Hb _ IH]; intros acc Hacc; [done|].
  simpl. apply IH. unfold is_byte in Hb. lia.
Qed.

Lemma slice_bytes (l : list Z) (i j : Z) : is_bytes l -> is_bytes (slice l i j).
Proof. intros Hl. unfold slice. by apply Forall_take, Forall_drop. Qed.

(** X20: on any byte string, [decompress_bytes_v1] either returns bytes, at
    most as many as the N field announces, or raises one of its own errors:
    too short (fewer than 1037 bytes), wrong magic, wrong version, or the
    negative-shift error when the LASTBITS byte is larger than 8. *)
Theorem decompress_bytes_v1_total (comp : list Z) :
  is_bytes comp ->
  match decompress_bytes_v1 comp with
  | Ok out => is_bytes out /\ len out <= from_bytes (slice comp 4 12)
  | Raise e =>
      (e = TooShort /\ len comp < 1037) \/
      (e = BadMagic /\ slice comp 0 3 <> MAGIC) \/
      (exists v, e = BadVersion v /\ get_item comp 3 = Ok v /\ v <> 1) \/
      (e = NegativeShift /\
       exists lastbits, get_item comp 1036 = Ok lastbits /\ 8 < lastbits)
  end.
Proof.
  intros Hbytes. unfold decompress_bytes_v1. cbv zeta.
  change (3 + 1 + 8 + 256 * 4 + 1) with 1037.
  destruct (len comp <? 1037) eqn:Hlen; [left; split; [done|lia]|].
  apply Z.ltb_ge in Hlen. change (0 + 3) with 3.
  case_bool_decide as Hmagic; [|right; left; by split]. cbn [negb].
  destruct (get_item_ok comp 3 ltac:(lia)) as (version & Hv & _).
  rewrite Hv. cbn [mbind result_bind].
  destruct (version =? VERSION_STEP1) eqn:Hver; cbn [negb];
    [|right; right; left; exists version; apply Z.eqb_neq in Hver; by split_and!].
  change (3 + 1) with 4. change (4 + 8) with 12.
  pose proof (read_freq_idx 256 comp 12 []) as Hidx.
  pose proof (read_freq_length 256 comp 12 []) as Hfr.
  destruct (read_freq 256 comp 12 []) as [fr idx]. simpl in Hidx, Hfr. subst idx.
  change (12 + 4 * Z.of_nat 256) with 1036.
  destruct (get_item_ok comp 1036 ltac:(lia)) as (lastbits & Hl & _).
  rewrite Hl. cbn [mbind result_bind].
  pose proof (huffman_decompress_core_safe fr (slice comp (1036 + 1) (len comp))
                (from_bytes (slice comp 4 12)) lastbits ltac:(lia)
                (from_bytes_nonneg _ (slice_bytes comp 4 12 Hbytes))) as Hcore.
  destruct (huffman_decompress_core _ _ _ _) as [out|e]; [done|].
  destruct Hcore as [-> Hlast]. right; right; right. split; [done|].
  by exists lastbits.
Qed.

Lemma decompress_bytes_v1_total_witness :
  match decompress_bytes_v1 [71; 67; 67; 9] with
  | Ok out => is_bytes out /\ len out <= from_bytes (slice [71; 67; 67; 9] 4 12)
  | Raise e =>
      (e = TooShort /\ len [71; 67; 67; 9] < 1037) \/
      (e = BadMagic /\ slice [71; 67; 67; 9] 0 3 <> MAGIC) \/
      (exists v, e = BadVersion v /\ get_item [71; 67; 67; 9] 3 = Ok v /\ v <> 1) \/
      (e = NegativeShift /\
       exists lastbits, get_item [71; 67; 67; 9] 1036 = Ok lastbits /\ 8 < lastbits)
  end.
Proof.
  apply decompress_bytes_v1_total. repeat constructor; unfold is_byte; lia.
Defined.

Lemma get_item_safe (l : list Z) (i : Z) :
  is_bytes l ->
  match get_item l i with
  | Ok x => is_byte x
  | Raise e => e = IndexError
  end.
Proof.
  intros Hl. unfold get_item. destruct (i <? 0); [done|].
  destruct (l !! Z.to_nat i) as [x|] eqn:Hx; [|done].
  eapply Forall_forall; [exact Hl|]. by eapply list_elem_of_lookup_2.
Qed.

Lemma read_stream_header_safe (comp : list Z) (idx : Z) :
  match read_stream_header comp idx with
  | Ok (fr, _, _, _) => length fr = 256%nat
  | Raise e => e = IndexError
  end.
Proof.
  unfold read_stream_header.
  pose proof (read_freq_length 256 comp idx []) as Hfr.
  destruct (read_freq 256 comp idx []) as [fr idx']. simpl in Hfr.
  unfold get_item. destruct (idx' <? 0); [done|].
  by destruct (comp !! Z.to_nat idx').
Qed.

Lemma merge_fold_safe (vowels cons_ mask : list Z) :
  is_bytes vowels -> is_bytes cons_ ->
  forall st, is_bytes st.1.1 ->
  match foldM (merge_step vowels cons_) mask st with
  | Ok st' => is_bytes st'.1.1
  | Raise e => e = IndexError
  end.
Proof.
  intros Hv Hc. induction mask as [|m mask IH]; intros [[out iv] ic] Hout; [done|].
  cbn [foldM]. simpl in Hout.
  assert (Hstep : match merge_step vowels cons_ (out, iv, ic) m with
                  | Ok st' => is_bytes st'.1.1
                  | Raise e => e = IndexError
                  end).
  { unfold merge_step. destruct (m =? ord "V").
    - pose proof (get_item_safe vowels iv Hv) as Hg.
      destruct (get_item vowels iv) as [b|e]; [|done]. simpl.
      apply Forall_app. split; [done|by constructor].
    - pose proof (get_item_safe cons_ ic Hc) as Hg.
      destruct (get_item cons_ ic) as [b|e]; [|done]. simpl.
      apply Forall_app. split; [done|by constructor]. }
  destruct (merge_step vowels cons_ (out, iv, ic) m) as [st1|e]; [|done].
  cbn [mbind result_bind]. by apply IH.
Qed.

Lemma merge_streams_v2_safe (mask vowels cons_ : list Z) :
  is_bytes vowels -> is_bytes cons_ ->
  match merge_streams_v2 mask vowels cons_ with
  | Ok out => is_bytes out
  | Raise e => e = IndexError
  end.
Proof.
  intros Hv Hc. unfold merge_streams_v2.
  pose proof (merge_fold_safe vowels cons_ mask Hv Hc ([], 0, 0)
                ltac:(constructor)) as H.
  by destruct (foldM _ mask _) as [[[out iv] ic]|e].
Qed.

Lemma decompress_bytes_v2_safe (comp : list Z) :
  is_bytes comp ->
  match decompress_bytes_v2 comp with
  | Ok out => is_bytes out
  | Raise e => decoder_error e
  end.
Proof.
  intros Hbytes. unfold decompress_bytes_v2. cbv zeta.
  destruct (len comp <? _); [done|]. destruct (negb (bool_decide _)); [done|].
  pose proof (get_item_safe comp (0 + 3) Hbytes) as Hv.
  destruct (get_item comp (0 + 3)) as [version|e]; [|by subst e].
  cbn [mbind result_bind]. destruct (negb (version =? VERSION_STEP2)); [done|].
  set (N := from_bytes _). set (len_v := from_bytes _). set (len_c := from_bytes _).
  assert (HN : 0 <= N) by by apply from_bytes_nonneg, slice_bytes.
  assert (Hlv : 0 <= len_v) by by apply from_bytes_nonneg, slice_bytes.
  assert (Hlc : 0 <= len_c) by by apply from_bytes_nonneg, slice_bytes.
  clearbody N len_v len_c.
  match goal with |- context [read_stream_header comp ?i ≫= _] =>
    pose proof (read_stream_header_safe comp i) as H1;
    destruct (read_stream_header comp i) as [[[[fm last_m] bsize_m] idx1]|e1]
  end; cbn [mbind result_bind]; [|by subst e1].
  pose proof (read_stream_header_safe comp idx1) as H2.
  destruct (read_stream_header comp idx1) as [[[[fv last_v] bsize_v] idx2]|e2];
    cbn [mbind result_bind]; [|by subst e2].
  pose proof (read_stream_header_safe comp idx2) as H3.
  destruct (read_stream_header comp idx2) as [[[[fc last_c] bsize_c] idx3]|e3];
    cbn [mbind result_bind]; [|by subst e3].
  match goal with |- context [huffman_decompress_core fm ?bs ?n last_m] =>
    pose proof (huffman_decompress_core_safe fm bs n last_m ltac:(lia) ltac:(lia)) as Hm;
    destruct (huffman_decompress_core fm bs n last_m) as [mask|e4]
  end; cbn [mbind result_bind]; [|by destruct Hm as [-> _]].
  match goal with |- context [huffman_decompress_core fv ?bs ?n last_v] =>
    pose proof (huffman_decompress_core_safe fv bs n last_v ltac:(lia) ltac:(lia)) as Hvw;
    destruct (huffman_decompress_core fv bs n last_v) as [vowels|e5]
  end; cbn [mbind result_bind]; [|by destruct Hvw as [-> _]].
  match goal with |- context [huffman_decompress_core fc ?bs ?n last_c] =>
    pose proof (huffman_decompress_core_safe fc bs n last_c ltac:(lia) ltac:(lia)) as Hcs;
    destruct (huffman_decompress_core fc bs n last_c) as [cons_|e6]
  end; cbn [mbind result_bind]; [|by destruct Hcs as [-> _]].
  pose proof (merge_streams_v2_safe mask vowels cons_ (proj1 Hvw) (proj1 Hcs)) as Hmg.
  destruct (merge_streams_v2 mask vowels cons_) as [out|e7]; [done|by subst e7].
Qed.

Lemma read_vocab_safe (n : nat) (comp : list Z) :
  is_bytes comp -> forall idx acc, Forall is_bytes acc ->
  match read_vocab n comp idx acc with
  | Ok (vl, _) => Forall is_bytes vl
  | Raise e => e = TruncatedLen \/ e = TruncatedToken
  end.
Proof.
  intros Hbytes. induction n as [|n IH]; intros idx acc Hacc; [done|].
  cbn [read_vocab]. destruct (len comp <? idx + 2); [by left|].
  destruct (len comp <? _); [by right|].
  apply IH. apply Forall_app. split; [done|].
  constructor; [|constructor]. by apply slice_bytes.
Qed.

Lemma lookup_tokens_safe (vl : list (list Z)) (ids : list Z) :
  Forall is_bytes vl -> forall out, is_bytes out ->
  match foldM (lookup_token vl) ids out with
  | Ok out' => is_bytes out'
  | Raise e => e = IndexError
  end.
Proof.
  intros Hvl. induction ids as [|b ids IH]; intros out Hout; [done|].
  cbn [foldM].
  assert (Hstep : lookup_token vl out b
                  = match vl !! Z.to_nat b with
                    | Some tok => Ok (out ++ tok)
                    | None => Raise IndexError
                    end) by done.
  rewrite Hstep. clear Hstep.
  destruct (vl !! Z.to_nat b) as [tok|] eqn:Htok; [|done].
  cbn [mbind result_bind]. apply IH. apply Forall_app. split; [done|].
  apply list_elem_of_lookup_2 in Htok. revert tok Htok. by apply Forall_forall.
Qed.

Lemma decompress_tokens_safe (version : Z) (comp : list Z) :
  is_bytes comp ->
  match decompress_tokens version comp with
  | Ok out => is_bytes out
  | Raise e => decoder_error e
  end.
Proof.
  intros Hbytes. unfold decompress_tokens, read_container. cbv zeta.
  destruct (len comp <? _); [done|]. destruct (negb (bool_decide _)); [done|].
  pose proof (get_item_safe comp (0 + 3) Hbytes) as Hv.
  destruct (get_item comp (0 + 3)) as [v|e]; [|by subst e].
  cbn [mbind result_bind]. destruct (negb (v =? version)); [done|].
  set (N := from_bytes _).
  assert (HN : 0 <= N) by by apply from_bytes_nonneg, slice_bytes.
  clearbody N.
  match goal with |- context [read_vocab ?n comp ?i []] =>
    pose proof (read_vocab_safe n comp Hbytes i [] ltac:(constructor)) as Hvl;
    destruct (read_vocab n comp i []) as [[vl idx]|e1]
  end; cbn [mbind result_bind]; [|by destruct Hvl as [-> | ->]].
  destruct (len comp <? _); [done|].
  pose proof (read_freq_length 256 comp idx []) as Hfr.
  destruct (read_freq 256 comp idx []) as [fr idx']. simpl in Hfr.
  pose proof (get_item_safe comp idx' Hbytes) as Hl.
  destruct (get_item comp idx') as [lastbits|e2]; cbn [mbind result_bind];
    [|by subst e2].
  match goal with |- context [huffman_decompress_core fr ?bs N lastbits] =>
    pose proof (huffman_decompress_core_safe fr bs N lastbits ltac:(lia) HN) as Hc;
    destruct (huffman_decompress_core fr bs N lastbits) as [ids|e3]
  end; cbn [mbind result_bind]; [|by destruct Hc as [-> _]].
  pose proof (lookup_tokens_safe vl ids Hvl [] ltac:(constructor)) as Hk.
  destruct (foldM (lookup_token vl) ids []) as [out|e4]; [done|by subst e4].
Qed.

(** X21: on any byte string the decoders of formats 2, 3 and 4 either return
    bytes or raise a decoder error: a failed header check, a truncation
    error, an index out of range or a shift by a negative count. They never
    walk off the Huffman tree and never produce a value that is not a
    byte. *)
Theorem decoders_total (comp : list Z) :
  is_bytes comp ->
  match decompress_bytes_v2 comp with
  | Ok out => is_bytes out
  | Raise e => decoder_error e
  end /\
  match decompress_bytes_v3 comp with
  | Ok out => is_bytes out
  | Raise e => decoder_error e
  end /\
  match decompress_bytes_v4 comp with
  | Ok out => is_bytes out
  | Raise e => decoder_error e
  end.
Proof.
  intros Hbytes. split_and!.
  - by apply decompress_bytes_v2_safe.
  - by apply decompress_tokens_safe.
  - by apply decompress_tokens_safe.
Qed.

Lemma decoders_total_witness :
  match decompress_bytes_v2 (unchecked_container 3) with
  | Ok out => is_bytes out
  | Raise e => decoder_error e
  end /\
  match decompress_bytes_v3 (unchecked_container 3) with
  | Ok out => is_bytes out
  | Raise e => decoder_error e
  end /\
  match decompress_bytes_v4 (unchecked_container 3) with
  | Ok out => is_bytes out
  | Raise e => decoder_error e
  end.
Proof.
  apply decoders_total.
  apply (bool_decide_unpack (is_bytes (unchecked_container 3))).
  vm_compute. exact I.
Defined.

(** *** The layout of a format 1 container *)

(** X22: what [compress_bytes_v1] returns is laid out as the source
    documents it: the magic, the version byte 1, the input length on 8 bytes,
    the 256 counts of the input on 4 bytes each, LASTBITS, and the stream of
    the compression core; LASTBITS is at most 8 and the container is at most
    1038 + 32 * N bytes long. *)
Theorem compress_bytes_v1_layout (data comp : list Z) :
  is_bytes data -> compress_bytes_v1 data = Ok comp ->
  exists lastbits bitstream,
    huffman_compress_core data = Ok (build_freq_table data, lastbits, bitstream) /\
    comp = MAGIC ++ [VERSION_STEP1] ++ be_digits 8 (len data)
           ++ (build_freq_table data ≫= be_digits 4) ++ [lastbits] ++ bitstream /\
    0 <= lastbits <= 8 /\
    len comp = 1037 + len bitstream /\ len comp <= 1038 + 32 * len data.
Proof.
  intros Hbytes Hcomp.
  destruct (huffman_core_roundtrip data Hbytes)
    as (lastbits & bitstream & Hc & Hlast & Hsize & _).
  destruct (compress_bytes_v1_inv data lastbits bitstream comp Hc Hcomp)
    as [Hlen Hfr].
  rewrite (compress_bytes_v1_container data lastbits bitstream) in Hcomp
    by (done || (unfold is_byte; lia)).
  injection Hcomp as <-. exists lastbits, bitstream.
  assert (Hl : len (container_v1 (len data) (build_freq_table data) lastbits bitstream)
               = 1037 + len bitstream).
  { unfold container_v1. rewrite !len_app, freq_bytes_length, !len_singleton.
    assert (len (build_freq_table data) = 256)
      by (unfold len; by rewrite build_freq_table_length).
    assert (len (be_digits 8 (len data)) = 8)
      by (unfold len; by rewrite be_digits_length).
    assert (len MAGIC = 3) by done. lia. }
  split_and!; try done; lia.
Qed.

Lemma compress_bytes_v1_layout_witness :
  exists comp lastbits bitstream,
    compress_bytes_v1 [97; 98; 97] = Ok comp /\
    comp = MAGIC ++ [VERSION_STEP1] ++ be_digits 8 (len [97; 98; 97])
           ++ (build_freq_table [97; 98; 97] ≫= be_digits 4)
           ++ [lastbits] ++ bitstream /\
    len comp = 1037 + len bitstream.
Proof.
  assert (Hb : is_bytes [97; 98; 97]) by (repeat constructor; unfold is_byte; lia).
  destruct (compress_bytes_v1_ok [97; 98; 97] Hb) as [c Hc]; [done|].
  destruct (compress_bytes_v1_layout [97; 98; 97] c Hb Hc)
    as (lastbits & bitstream & _ & Hlay & _ & Hlen & _).
  exists c, lastbits, bitstream. by split_and!.
Defined.

(** *** Round trips below the containers *)

(** X23: [merge_streams_v2] undoes [split_streams_v2]: merging the mask, the
    vowels and the other bytes of any input gives the input back, also when
    the two streams are followed by bytes the mask does not ask for. *)
Theorem merge_inverts_split (data more_vowels more_cons : list Z) :
  merge_streams_v2 (split_streams_v2 data).1.1
                   ((split_streams_v2 data).1.2 ++ more_vowels)
                   ((split_streams_v2 data).2 ++ more_cons) = Ok data.
Proof.
  rewrite split_streams_v2_spec.
  pose proof (merge_split_spec data [] [] more_vowels more_cons []) as H.
  unfold merge_streams_v2. rewrite !app_nil_l in H.
  change (len []) with 0 in H. by rewrite H.
Qed.

(** X24: with at most 256 distinct tokens, every token gets an id that fits
    a byte, the id stream has one id per token, and looking the ids up in the
    vocabulary list gives the tokens back, concatenated. *)
Theorem vocabulary_roundtrip (tokens : list (list Z)) :
  len (build_vocab tokens).2 <= 256 ->
  exists ids,
    foldM (id_step (build_vocab tokens).1) tokens [] = Ok ids /\
    is_bytes ids /\ len ids = len tokens /\
    foldM (lookup_token (build_vocab tokens).2) ids [] = Ok (concat tokens).
Proof.
  intros Hsize. destruct (build_vocab_spec tokens) as (vl & Hv & Hnd & Hel).
  rewrite Hv in *. cbn [fst snd] in *.
  destruct (id_stream_ok vl tokens Hsize (fun t => proj2 (Hel t)) [])
    as (ids & Hids & Hnames).
  destruct (names_bytes vl tokens ids Hsize Hnames) as [Hbytes Hlen].
  exists ids. split_and!; try done.
  by apply (lookup_tokens_ok vl tokens ids Hnames []).
Qed.

Lemma vocabulary_roundtrip_witness :
  exists ids,
    foldM (id_step (build_vocab [[97]; [32]; [97]]).1) [[97]; [32]; [97]] [] = Ok ids /\
    is_bytes ids /\ len ids = len [[97]; [32]; [97]] /\
    foldM (lookup_token (build_vocab [[97]; [32]; [97]]).2) ids []
    = Ok (concat [[97]; [32]; [97]]).
Proof. apply vocabulary_roundtrip. vm_compute. discriminate. Defined.
